(** * Branching decisions and the node-local graph of the RVRP-HTW pricer

    A shallow embedding of
      - src/src/cons_vehicleass.c      (customer/day decision records and
                                        their propagation),
      - src/src/pricer_vrp.c           (arc matrix, timetable, enforced
                                        customers, neighbourhood, node cache),
      - src/src/vehicleass_branching.c (selection of the branching pair),
    followed by the properties proved about them.

    Conventions.  A C [int] is a [Z]; a C array is a total map from index to
    cell ([Z -> A]) updated with [upd]; a linked list ([modelWindow],
    [neighbor]) is the [list] of its payloads in link order; a failed
    [assert] aborts, which the model renders as [None].  The local bounds of
    a column are compared with the literal 0.5 only, by the exact comparisons
    of C, and are the rationals the doubles stand for.  The two routines that
    compute with [SCIP_Real] values (the branching rule and the bound on the
    dual values) are written against an interface of the floating-point
    operations and of the engine's tolerance comparisons, [SCIP_Real];
    binary64 arithmetic with the engine's default tolerances is an instance
    of it. *)

From Stdlib Require Import Floats.
From Stdlib Require Import ZArith QArith Qabs List Bool Lia Lqa Finite
  Sorted.
Import ListNotations.
Open Scope Z_scope.

(* ================================================================== *)
(** * Part I. Definitions                                              *)
(* ================================================================== *)

(** ** Shared helpers *)

(** [assert(b)]: continue when [b] holds, abort otherwise. *)
Definition assert (b : bool) : option unit :=
  if b then Some tt else None.

Notation "'do' x <- c1 ; c2" :=
  (match c1 with Some x => c2 | None => None end)
  (at level 10, x pattern, c1 at level 100, c2 at level 200).

(** Strict comparison of reals. *)
Definition Qltb (a b : Q) : bool := negb (Qle_bool b a).

Definition half : Q := 1 # 2.

(** One-dimensional array update [a[i] = v]. *)
Definition upd {A : Type} (a : Z -> A) (i : Z) (v : A) : Z -> A :=
  fun k => if k =? i then v else a k.

(** Two-dimensional array update [m[i][j] = v]. *)
Definition upd2 {A : Type} (m : Z -> Z -> A) (i j : Z) (v : A) : Z -> Z -> A :=
  fun k l => if (k =? i) && (l =? j) then v else m k l.

(** The indices [0, 1, ..., n-1] visited by [for(i = 0; i < n; i++)]. *)
Definition range (n : Z) : list Z :=
  map Z.of_nat (seq 0 (Z.to_nat n)).

(** [0 <= k && k < n]. *)
Definition inRangeb (n k : Z) : bool := (0 <=? k) && (k <? n).

(** [for(i = 0; i < n; i++) body], with the loop state threaded through. *)
Definition for_range {S : Type} (n : Z) (body : Z -> S -> S) (s : S) : S :=
  fold_left (fun acc i => body i acc) (range n) s.

(* ------------------------------------------------------------------ *)
(** ** Floating-point values and the comparisons of the engine         *)
(* ------------------------------------------------------------------ *)

(** What the code does with a [SCIP_Real] (a C [double]): the conversion of
    an [int], the literal 0.5, [+], [-], [fabs], [>=], and the engine's
    comparisons [SCIPisSumPositive], [SCIPisZero], [SCIPisEQ] and
    [SCIPisGT].  Nothing is assumed about them: the additions round, and the
    comparisons hold up to a tolerance. *)
Class SCIP_Real (R : Type) := {
  real_of_int : Z -> R;
  real_half : R;
  real_add : R -> R -> R;
  real_sub : R -> R -> R;
  real_fabs : R -> R;
  real_geb : R -> R -> bool;
  SCIPisSumPositive : R -> bool;
  SCIPisZero : R -> bool;
  SCIPisEQ : R -> R -> bool;
  SCIPisGT : R -> R -> bool
}.

(** The literal [0.0], and the [0] that C converts in [x >= 0]. *)
Definition real_zero {R : Type} {num : SCIP_Real R} : R := real_of_int 0.

(** The conversion of an [int] to a [double]. *)
Definition float_of_int (z : Z) : float :=
  if z <? 0 then PrimFloat.opp (PrimFloat.of_uint63 (Uint63.of_Z (- z)))
  else PrimFloat.of_uint63 (Uint63.of_Z z).

(** The engine's default tolerances: the doubles nearest to 1e-9
    ([epsilon]) and to 1e-6 ([sumepsilon]). *)
Definition epsilon : float := 0x1.12e0be826d695p-30%float.
Definition sumepsilon : float := 0x1.0c6f7a0b5ed8dp-20%float.

(** Binary64 arithmetic, with the comparisons as the engine defines them:
    [SCIPisSumPositive(x)] is [x > sumepsilon], [SCIPisZero(x)] is
    [fabs(x) <= epsilon], [SCIPisEQ(x, y)] is [fabs(x - y) <= epsilon] and
    [SCIPisGT(x, y)] is [x - y > epsilon]. *)
#[export] Instance IEEE : SCIP_Real float := {
  real_of_int := float_of_int;
  real_half := 0.5%float;
  real_add := PrimFloat.add;
  real_sub := PrimFloat.sub;
  real_fabs := PrimFloat.abs;
  real_geb := fun x y => PrimFloat.leb y x;
  SCIPisSumPositive := fun x => PrimFloat.ltb sumepsilon x;
  SCIPisZero := fun x => PrimFloat.leb (PrimFloat.abs x) epsilon;
  SCIPisEQ :=
    fun x y => PrimFloat.leb (PrimFloat.abs (PrimFloat.sub x y)) epsilon;
  SCIPisGT := fun x y => PrimFloat.ltb epsilon (PrimFloat.sub x y)
}.

(** The same comparisons over the rationals, where no addition rounds:
    the arithmetic in which the laws that a statement assumes of the
    additions can be proved. *)
Definition Qepsilon : Q := 1 # 1000000000.
Definition Qsumepsilon : Q := 1 # 1000000.

#[export] Instance Rational : SCIP_Real Q := {
  real_of_int := inject_Z;
  real_half := 1 # 2;
  real_add := Qplus;
  real_sub := Qminus;
  real_fabs := Qabs;
  real_geb := fun x y => Qle_bool y x;
  SCIPisSumPositive := fun x => Qltb Qsumepsilon x;
  SCIPisZero := fun x => Qle_bool (Qabs x) Qepsilon;
  SCIPisEQ := fun x y => Qle_bool (Qabs (x - y)) Qepsilon;
  SCIPisGT := fun x y => Qltb Qepsilon (x - y)
}.

(* ------------------------------------------------------------------ *)
(** ** cons_vehicleass.c                                               *)
(* ------------------------------------------------------------------ *)

Module ConsVA.

(** [enum ConsTypeVA] of cons_vehicleass.h. *)
Inductive CONSTYPEVA := VA_PROHIBIT | VA_ENFORCE.

Definition CONSTYPEVA_eqb (a b : CONSTYPEVA) : bool :=
  match a, b with
  | VA_PROHIBIT, VA_PROHIBIT | VA_ENFORCE, VA_ENFORCE => true
  | _, _ => false
  end.

(** The results a propagation callback reports. *)
Inductive SCIP_RESULT := SCIP_DIDNOTFIND | SCIP_REDUCEDDOM | SCIP_CUTOFF.

Definition is_cutoff (r : SCIP_RESULT) : bool :=
  match r with SCIP_CUTOFF => true | _ => false end.

(** [SCIP_Bool] is an unsigned integer; [SCIP_OKAY] is the return code +1. *)
Definition SCIP_Bool := Z.
Definition FALSE : SCIP_Bool := 0.
Definition TRUE : SCIP_Bool := 1.
Definition SCIP_OKAY : Z := 1.

(** A column: the tour data attached to the variable ([SCIP_VARDATA]:
    [customertour], of length [tourlength], and [day]) and the local bounds
    the engine keeps for it. *)
Record SCIP_VAR := mkVar {
  customertour : list Z;
  vday : Z;
  lbLocal : Q;
  ubLocal : Q
}.

(** [struct SCIP_ConsData]; the owning node plays no part in what follows. *)
Record SCIP_CONSDATA := mkConsData {
  customer : Z;
  day : Z;
  type : CONSTYPEVA;
  npropagatedvars : Z;
  npropagations : Z;
  propagated : bool
}.

(** [consdataCreate]. *)
Definition consdataCreate (customer day : Z) (type : CONSTYPEVA)
  : option SCIP_CONSDATA :=
  do _ <- assert (0 <=? customer);
  do _ <- assert (0 <=? day);
  Some (mkConsData customer day type 0 0 false).

(** The scan of [customerAndDayInVar] over the tour: every entry read is
    asserted to be non-negative before it is compared with the customer. *)
Fixpoint tourScan (tour : list Z) (vd customer day : Z) : option Z :=
  match tour with
  | [] => Some (if vd =? day then 1 else 0)
  | u :: rest =>
      do _ <- assert (0 <=? u);
      if u =? customer
      then Some (if vd =? day then 2 else 1)
      else tourScan rest vd customer day
  end.

Definition customerAndDayInVar (var : SCIP_VAR) (customer day : Z)
  : option Z :=
  tourScan (customertour var) (vday var) customer day.

(** The engine's [SCIPfixVar(scip, var, 0.0, &infeasible, &fixed)] on a
    binary column, as [checkVariable] relies on it: the fixing is infeasible
    when the local lower bound exceeds 0.5 (the column is already forced to
    one) and leaves the column alone; otherwise the upper bound drops to
    zero.  The result is [(var, infeasible, fixed)]. *)
Definition SCIPfixVar_zero (var : SCIP_VAR) : SCIP_VAR * bool * bool :=
  if Qltb half (lbLocal var)
  then (var, true, false)
  else (mkVar (customertour var) (vday var) (lbLocal var) 0%Q, false, true).

(** The test of [checkVariable] and [consdataCheck] on the classifier's
    answer. *)
Definition verdictHit (type : CONSTYPEVA) (arcStatus : Z) : bool :=
  (CONSTYPEVA_eqb type VA_PROHIBIT && (arcStatus =? 2))
  || (CONSTYPEVA_eqb type VA_ENFORCE && (arcStatus =? 1)).

(** [checkVariable]: the column, [*nfixedvars] and [*cutoff] after the call. *)
Definition checkVariable (consdata : SCIP_CONSDATA) (var : SCIP_VAR)
    (nfixedvars : Z) (cutoff : bool) : option (SCIP_VAR * Z * bool) :=
  if Qltb (ubLocal var) half then Some (var, nfixedvars, cutoff)
  else
    do arcStatus <-
      customerAndDayInVar var (customer consdata) (day consdata);
    if arcStatus =? 0 then Some (var, nfixedvars, cutoff)
    else if verdictHit (type consdata) arcStatus then
      match SCIPfixVar_zero var with
      | (var', true, _) =>
          do _ <- assert (Qltb half (lbLocal var'));
          Some (var', nfixedvars, true)
      | (var', false, fixed) =>
          do _ <- assert fixed;
          Some (var', nfixedvars + 1, cutoff)
      end
    else Some (var, nfixedvars, cutoff).

(** The loop [for(v = npropagatedvars; v < nvars && !cutoff; ++v)] of
    [consdataFixVariables], run over the columns from the start index on. *)
Fixpoint scanVars (consdata : SCIP_CONSDATA) (vars : list SCIP_VAR)
    (nfixedvars : Z) (cutoff : bool) : option (list SCIP_VAR * Z * bool) :=
  match vars with
  | [] => Some ([], nfixedvars, cutoff)
  | var :: rest =>
      if cutoff then Some (vars, nfixedvars, cutoff)
      else
        do checked <- checkVariable consdata var nfixedvars cutoff;
        match checked with
        | (var', nf, co) =>
            do scanned <- scanVars consdata rest nf co;
            match scanned with
            | (rest', nf', co') => Some (var' :: rest', nf', co')
            end
        end
  end.

(** [consdataFixVariables]: the columns and [*result] after the call. *)
Definition consdataFixVariables (consdata : SCIP_CONSDATA)
    (vars : list SCIP_VAR) (result : SCIP_RESULT)
  : option (list SCIP_VAR * SCIP_RESULT) :=
  let start := Z.to_nat (npropagatedvars consdata) in
  do scan <- scanVars consdata (skipn start vars) 0 false;
  match scan with
  | (scanned, nfixedvars, cutoff) =>
      Some (firstn start vars ++ scanned,
            if cutoff then SCIP_CUTOFF
            else if 0 <? nfixedvars then SCIP_REDUCEDDOM
            else result)
  end.

(** The loop of [consdataCheck] over the first [nvars] columns. *)
Fixpoint checkScan (consdata : SCIP_CONSDATA) (vars : list SCIP_VAR)
  : option SCIP_Bool :=
  match vars with
  | [] => Some TRUE
  | var :: rest =>
      if Qltb (ubLocal var) half then checkScan consdata rest
      else
        do arcStatus <-
          customerAndDayInVar var (customer consdata) (day consdata);
        if arcStatus =? 0 then Some SCIP_OKAY
        else if verdictHit (type consdata) arcStatus then Some FALSE
        else checkScan consdata rest
  end.

(** [consdataCheck] (compiled when [NDEBUG] is not defined). *)
Definition consdataCheck (vars : list SCIP_VAR) (consdata : SCIP_CONSDATA)
    (beforeprop : bool) : option SCIP_Bool :=
  let nvars :=
    if beforeprop then npropagatedvars consdata else Z.of_nat (length vars) in
  do _ <- assert (nvars <=? Z.of_nat (length vars));
  checkScan consdata (firstn (Z.to_nat nvars) vars).

(** [assert( consdataCheck(...) )]. *)
Definition assertCheck (vars : list SCIP_VAR) (consdata : SCIP_CONSDATA)
    (beforeprop : bool) : option unit :=
  do b <- consdataCheck vars consdata beforeprop;
  assert (negb (b =? 0)).

(** The debug block of [consPropVehicleAss]: no later record has the same
    customer with both records enforcing, or the same customer and day. *)
Definition noEqualConsdata (consdata : SCIP_CONSDATA)
    (later : list SCIP_CONSDATA) : bool :=
  forallb
    (fun consdata2 =>
       negb ((customer consdata =? customer consdata2)
             && CONSTYPEVA_eqb (type consdata) VA_ENFORCE
             && CONSTYPEVA_eqb (type consdata2) VA_ENFORCE)
       && negb ((customer consdata =? customer consdata2)
                && (day consdata =? day consdata2)))
    later.

Definition bumpPropagations (c : SCIP_CONSDATA) : SCIP_CONSDATA :=
  mkConsData (customer c) (day c) (type c) (npropagatedvars c)
             (npropagations c + 1) (propagated c).

Definition markPropagated (c : SCIP_CONSDATA) (nvars : Z) : SCIP_CONSDATA :=
  mkConsData (customer c) (day c) (type c) nvars (npropagations c) true.

(** The loop [for(c = 0; c < nconss; ++c)] of [consPropVehicleAss] over the
    records handed to the callback; the columns are [probData->vars]. *)
Fixpoint propLoop (conss : list SCIP_CONSDATA) (vars : list SCIP_VAR)
    (result : SCIP_RESULT)
  : option (list SCIP_CONSDATA * list SCIP_VAR * SCIP_RESULT) :=
  match conss with
  | [] => Some ([], vars, result)
  | consdata :: later =>
      do _ <- assertCheck vars consdata true;
      do _ <- assert (noEqualConsdata consdata later);
      if negb (propagated consdata) then
        do fixing <- consdataFixVariables consdata vars result;
        match fixing with
        | (vars1, result1) =>
            let consdata1 := bumpPropagations consdata in
            if negb (is_cutoff result1) then
              let consdata2 :=
                markPropagated consdata1 (Z.of_nat (length vars1)) in
              do _ <- assertCheck vars1 consdata2 false;
              do r <- propLoop later vars1 result1;
              match r with
              | (later', vars2, result2) =>
                  Some (consdata2 :: later', vars2, result2)
              end
            else Some (consdata1 :: later, vars1, result1)
        end
      else
        do _ <- assertCheck vars consdata false;
        do r <- propLoop later vars result;
        match r with
        | (later', vars2, result2) => Some (consdata :: later', vars2, result2)
        end
  end.

(** [consPropVehicleAss]. *)
Definition consPropVehicleAss (conss : list SCIP_CONSDATA)
    (vars : list SCIP_VAR)
  : option (list SCIP_CONSDATA * list SCIP_VAR * SCIP_RESULT) :=
  propLoop conss vars SCIP_DIDNOTFIND.

End ConsVA.

(* ------------------------------------------------------------------ *)
(** ** pricer_vrp.c                                                    *)
(* ------------------------------------------------------------------ *)

Module Pricer.

(** [CONSTYPE] of the arc-flow decisions (cons_arcflow.h). *)
Inductive CONSTYPE := PROHIBIT | ENFORCE.

(** An arc-flow decision as the pricer reads it: [SCIPgetTailArcflow],
    [SCIPgetHeadArcflow], [SCIPgetTypeArcflow] and [SCIPconsIsActive]. *)
Record ArcCons := mkArcCons {
  tail : Z;
  head : Z;
  atype : CONSTYPE;
  arcActive : bool
}.

(** A vehicle-assignment decision as the pricer reads it:
    [SCIPgetCustomerVehicleAss], [SCIPgetDayVehicleAss],
    [SCIPgetTypeVehicleAss] and [SCIPconsIsActive]. *)
Record VACons := mkVACons {
  vaCustomer : Z;
  vaDay : Z;
  vaType : ConsVA.CONSTYPEVA;
  vaActive : bool
}.

(** The part of [model_data] the graph builder reads.  The depot is customer
    [nC - 1].  [timeWindows c] lists the [day] fields of the windows of
    customer [c] in link order, [mneighbors c d] the [id] fields of the base
    neighbours of [c] on day [d]. *)
Record model_data := mkModel {
  nC : Z;
  nDays : Z;
  timeWindows : Z -> list Z;
  mneighbors : Z -> Z -> list Z
}.

(** The part of [SCIP_PRICERDATA] the graph builder writes. *)
Record SCIP_PRICERDATA := mkPricer {
  isForbidden : Z -> Z -> bool;
  toDepot : Z -> bool;
  timetable : Z -> Z -> bool;
  eC : Z -> Z;
  nEC : Z -> Z;
  neighbors : Z -> Z -> list Z;
  lastnodeid : Z
}.

(** *** setArcMatrix *)

(** The arrays [setArcMatrix] works on: the two pricer arrays and the two
    local ones. *)
Record ArcState := mkArcState {
  aForbidden : Z -> Z -> bool;
  aToDepot : Z -> bool;
  successor : Z -> Z;
  predecessor : Z -> Z
}.

(** The initialisation loops: every arc allowed, no enforced neighbour,
    every customer may return to the depot. *)
Definition arcInit (md : model_data) (forb : Z -> Z -> bool)
    (toDep : Z -> bool) (succ0 pred0 : Z -> Z) : ArcState :=
  let '(forb1, succ1, pred1) :=
    for_range (nC md)
      (fun i '(f, s, p) =>
         (for_range (nC md) (fun j f' => upd2 f' i j false) f,
          upd s i (-1), upd p i (-1)))
      (forb, succ0, pred0) in
  let toDep1 := for_range (nC md - 1) (fun i t => upd t i true) toDep in
  mkArcState forb1 toDep1 succ1 pred1.

(** The three loops that induce forbidden arcs from an enforced one. *)
Definition forbidBoth (md : model_data) (tl hd : Z) (f : Z -> Z -> bool)
  : Z -> Z -> bool :=
  for_range (nC md)
    (fun j f' =>
       let f1 := if negb (j =? hd) then upd2 f' tl j true else f' in
       if negb (j =? tl) then upd2 f1 j hd true else f1)
    f.

Definition forbidOut (md : model_data) (tl : Z) (f : Z -> Z -> bool)
  : Z -> Z -> bool :=
  for_range (nC md - 1) (fun j f' => upd2 f' tl j true) f.

Definition forbidIn (md : model_data) (hd : Z) (f : Z -> Z -> bool)
  : Z -> Z -> bool :=
  for_range (nC md - 1) (fun j f' => upd2 f' j hd true) f.

(** The body of the loop over the arc-flow decisions. *)
Definition arcStep (md : model_data) (st : ArcState) (dec : ArcCons)
  : option ArcState :=
  if negb (arcActive dec) then Some st
  else
    let tl := tail dec in
    let hd := head dec in
    let depot := nC md - 1 in
    match atype dec with
    | PROHIBIT =>
        do _ <- assert (negb (aForbidden st tl hd));
        let forb := upd2 (aForbidden st) tl hd true in
        let toDep :=
          if hd =? depot then upd (aToDepot st) tl false else aToDepot st in
        Some (mkArcState forb toDep (successor st) (predecessor st))
    | ENFORCE =>
        do _ <- assert ((tl =? depot) || (successor st tl =? -1));
        do _ <- assert ((hd =? depot) || (predecessor st hd =? -1));
        let succ' := upd (successor st) tl hd in
        let pred' := upd (predecessor st) hd tl in
        if negb (hd =? depot) && negb (tl =? depot) then
          Some (mkArcState (forbidBoth md tl hd (aForbidden st))
                           (upd (aToDepot st) tl false) succ' pred')
        else if hd =? depot then
          Some (mkArcState (forbidOut md tl (aForbidden st))
                           (aToDepot st) succ' pred')
        else
          do _ <- assert (tl =? depot);
          Some (mkArcState (forbidIn md hd (aForbidden st))
                           (aToDepot st) succ' pred')
    end.

Fixpoint arcLoop (md : model_data) (conss : list ArcCons) (st : ArcState)
  : option ArcState :=
  match conss with
  | [] => Some st
  | dec :: rest =>
      do st' <- arcStep md st dec;
      arcLoop md rest st'
  end.

(** The state of [setArcMatrix] when its loop over the decisions is done;
    the local arrays hold arbitrary values on allocation. *)
Definition arcMatrixState (md : model_data) (conss : list ArcCons)
    (pd : SCIP_PRICERDATA) (succ0 pred0 : Z -> Z) : option ArcState :=
  arcLoop md conss (arcInit md (isForbidden pd) (toDepot pd) succ0 pred0).

(** [setArcMatrix]: the local arrays are freed, the pricer keeps the matrix
    and the depot flags. *)
Definition setArcMatrix (md : model_data) (conss : list ArcCons)
    (pd : SCIP_PRICERDATA) : option SCIP_PRICERDATA :=
  do st <- arcMatrixState md conss pd (fun _ => 0) (fun _ => 0);
  Some (mkPricer (aForbidden st) (aToDepot st) (timetable pd) (eC pd)
                 (nEC pd) (neighbors pd) (lastnodeid pd)).

(** *** setTimeTable *)

(** [while(window != NULL) { timetable[customer][window->day] = v; ... }]. *)
Definition setWindowDays (windows : list Z) (c : Z) (v : bool)
    (tab : Z -> Z -> bool) : Z -> Z -> bool :=
  fold_left (fun t d => upd2 t c d v) windows tab.

(** The reset loop. *)
Definition resetTimeTable (md : model_data) (tab : Z -> Z -> bool)
  : Z -> Z -> bool :=
  for_range (nC md)
    (fun c t =>
       let t1 := for_range (nDays md) (fun d t' => upd2 t' c d false) t in
       setWindowDays (timeWindows md c) c true t1)
    tab.

(** The body of the loop over the vehicle-assignment decisions. *)
Definition timeTableStep (md : model_data) (tab : Z -> Z -> bool)
    (dec : VACons) : option (Z -> Z -> bool) :=
  if negb (vaActive dec) then Some tab
  else
    let c := vaCustomer dec in
    let d := vaDay dec in
    do _ <- assert ((0 <=? c) && (c <? nC md - 1));
    do _ <- assert (0 <=? d);
    match vaType dec with
    | ConsVA.VA_PROHIBIT =>
        do _ <- assert (tab c d);
        Some (upd2 tab c d false)
    | ConsVA.VA_ENFORCE =>
        do _ <- assert (tab c d);
        Some (upd2 (setWindowDays (timeWindows md c) c false tab) c d true)
    end.

Fixpoint timeTableLoop (md : model_data) (conss : list VACons)
    (tab : Z -> Z -> bool) : option (Z -> Z -> bool) :=
  match conss with
  | [] => Some tab
  | dec :: rest =>
      do tab' <- timeTableStep md tab dec;
      timeTableLoop md rest tab'
  end.

(** [setTimeTable], on the timetable array. *)
Definition timeTableOf (md : model_data) (conss : list VACons)
    (tab : Z -> Z -> bool) : option (Z -> Z -> bool) :=
  timeTableLoop md conss (resetTimeTable md tab).

Definition setTimeTable (md : model_data) (conss : list VACons)
    (pd : SCIP_PRICERDATA) : option SCIP_PRICERDATA :=
  do tab <- timeTableOf md conss (timetable pd);
  Some (mkPricer (isForbidden pd) (toDepot pd) tab (eC pd) (nEC pd)
                 (neighbors pd) (lastnodeid pd)).

(** *** setEnforcedCustomers *)

(** The walk over one customer's windows: [(countAvailable, dayAvailable)]. *)
Definition countWindows (tab : Z -> Z -> bool) (c : Z) (windows : list Z)
  : Z * Z :=
  fold_left
    (fun '(countAvailable, dayAvailable) d =>
       if tab c d then (countAvailable + 1, d)
       else (countAvailable, dayAvailable))
    windows (0, -1).

Definition enforcedStep (md : model_data) (tab : Z -> Z -> bool) (c : Z)
    (st : (Z -> Z) * (Z -> Z)) : (Z -> Z) * (Z -> Z) :=
  let '(ec, nec) := st in
  let '(countAvailable, dayAvailable) := countWindows tab c (timeWindows md c) in
  if countAvailable =? 1
  then (upd ec c dayAvailable, upd nec dayAvailable (nec dayAvailable + 1))
  else (upd ec c (-1), nec).

(** [setEnforcedCustomers], on the two arrays [(eC, nEC)]. *)
Definition enforcedOf (md : model_data) (tab : Z -> Z -> bool)
    (ec nec : Z -> Z) : (Z -> Z) * (Z -> Z) :=
  let nec0 := for_range (nDays md) (fun d n => upd n d 0) nec in
  for_range (nC md - 1) (enforcedStep md tab) (ec, nec0).

Definition setEnforcedCustomers (md : model_data) (pd : SCIP_PRICERDATA)
  : SCIP_PRICERDATA :=
  let '(ec, nec) := enforcedOf md (timetable pd) (eC pd) (nEC pd) in
  mkPricer (isForbidden pd) (toDepot pd) (timetable pd) ec nec
           (neighbors pd) (lastnodeid pd).

(** *** clearNeighbors and setCurrentNeighborhood *)

(** Both branches of [clearNeighbors] leave every list of the allocated
    block empty: one frees the cells one by one, the other overwrites the
    heads ([pricerdata->nC] and [pricerdata->nDays] are copies of the
    model's). *)
Definition clearNeighbors (md : model_data) (pd : SCIP_PRICERDATA)
  : SCIP_PRICERDATA :=
  let clear :=
    for_range (nC md)
      (fun i nbs => for_range (nDays md) (fun j n => upd2 n i j []) nbs) in
  let nbs :=
    if negb (lastnodeid pd =? 1) then clear (neighbors pd)
    else clear (neighbors pd) in
  mkPricer (isForbidden pd) (toDepot pd) (timetable pd) (eC pd) (nEC pd)
           nbs (lastnodeid pd).

(** The [while(nb != NULL)] loop that copies a base list, skipping the
    neighbours that are unavailable on day [j] or reached by a forbidden
    arc; copies are appended at the tail. *)
Fixpoint copyNeighbors (pd : SCIP_PRICERDATA) (i j : Z) (nb : list Z)
  : list Z :=
  match nb with
  | [] => []
  | id :: next =>
      if negb (timetable pd id j) then copyNeighbors pd i j next
      else if isForbidden pd i id then copyNeighbors pd i j next
      else id :: copyNeighbors pd i j next
  end.

(** One pass of the customer loop: the list must be empty, a day on which
    the customer is unavailable is skipped. *)
Definition customerCell (md : model_data) (pd : SCIP_PRICERDATA) (i j : Z)
    (nbs : Z -> Z -> list Z) : option (Z -> Z -> list Z) :=
  do _ <- assert (match nbs i j with [] => true | _ => false end);
  if negb (timetable pd i j) then Some nbs
  else Some (upd2 nbs i j (copyNeighbors pd i j (mneighbors md i j))).

(** One pass of the depot loop. *)
Definition depotCell (md : model_data) (pd : SCIP_PRICERDATA) (i j : Z)
    (nbs : Z -> Z -> list Z) : option (Z -> Z -> list Z) :=
  do _ <- assert (match nbs i j with [] => true | _ => false end);
  Some (upd2 nbs i j (copyNeighbors pd i j (mneighbors md i j))).

Definition neighborhoodOf (md : model_data) (pd : SCIP_PRICERDATA)
  : option (Z -> Z -> list Z) :=
  let customers :=
    for_range (nC md - 1)
      (fun i acc =>
         for_range (nDays md)
           (fun j acc' => do nbs <- acc'; customerCell md pd i j nbs) acc)
      (Some (neighbors pd)) in
  for_range (nDays md)
    (fun j acc => do nbs <- acc; depotCell md pd (nC md - 1) j nbs)
    customers.

Definition setCurrentNeighborhood (md : model_data) (pd : SCIP_PRICERDATA)
  : option SCIP_PRICERDATA :=
  do nbs <- neighborhoodOf md pd;
  Some (mkPricer (isForbidden pd) (toDepot pd) (timetable pd) (eC pd)
                 (nEC pd) nbs (lastnodeid pd)).

(** *** set_current_graph and the node check of the pricing callbacks *)

Definition set_current_graph (md : model_data) (arcs : list ArcCons)
    (vas : list VACons) (pd : SCIP_PRICERDATA) : option SCIP_PRICERDATA :=
  do pd1 <- setArcMatrix md arcs pd;
  do pd2 <- setTimeTable md vas pd1;
  let pd3 := setEnforcedCustomers md pd2 in
  let pd4 := clearNeighbors md pd3 in
  setCurrentNeighborhood md pd4.

(** [SCIPincludePricerVrp] creates the pricer data with [lastnodeid = 1];
    the arrays are allocated later, by [SCIPpricerVrpActivate]. *)
Definition SCIPincludePricerVrp (pd : SCIP_PRICERDATA) : SCIP_PRICERDATA :=
  mkPricer (isForbidden pd) (toDepot pd) (timetable pd) (eC pd) (nEC pd)
           (neighbors pd) 1.

(** The engine numbers the nodes of the search tree from one: the root is
    node 1. *)
Definition rootNodeNumber : Z := 1.

(** What a pricing callback finds when it runs: the number of the current
    node and the decisions of both handlers. *)
Record PricingCall := mkCall {
  currentNode : Z;
  arcConss : list ArcCons;
  vaConss : list VACons
}.

(** The node check of [pricerRedcostVrp] and [pricerFarkasVrp]:
    [if(lastnodeid != SCIPnodeGetNumber(SCIPgetCurrentNode(scip)))].  The
    flag tells whether [set_current_graph] was run. *)
Definition nodeCheck (md : model_data) (call : PricingCall)
    (pd : SCIP_PRICERDATA) : option (SCIP_PRICERDATA * bool) :=
  if negb (lastnodeid pd =? currentNode call) then
    do pd' <- set_current_graph md (arcConss call) (vaConss call) pd;
    Some (mkPricer (isForbidden pd') (toDepot pd') (timetable pd') (eC pd')
                   (nEC pd') (neighbors pd') (currentNode call), true)
  else Some (pd, false).

(** A sequence of pricing calls, with the flags of the calls in order. *)
Fixpoint pricingCalls (md : model_data) (calls : list PricingCall)
    (pd : SCIP_PRICERDATA) : option (SCIP_PRICERDATA * list bool) :=
  match calls with
  | [] => Some (pd, [])
  | call :: rest =>
      do r <- nodeCheck md call pd;
      do r' <- pricingCalls md rest (fst r);
      Some (fst r', snd r :: snd r')
  end.

End Pricer.

(* ------------------------------------------------------------------ *)
(** ** vehicleass_branching.c                                          *)
(* ------------------------------------------------------------------ *)

Module Branching.

Section Rule.
Context {R : Type} {num : SCIP_Real R}.

(** A column as the branching rule reads it: [SCIPvarGetLPSol] and the tour
    data. *)
Record LPVar := mkLPVar {
  lpsol : R;
  tour : list Z;
  tday : Z
}.

(** The two arrays filled by the first loop. *)
Record Assignment := mkAssignment {
  VeAssVals : Z -> Z -> R;
  numOfDays : Z -> Z
}.

Definition zeroAssignment : Assignment :=
  mkAssignment (fun _ _ => real_zero) (fun _ => 0).

(** The body of the inner loop: one customer [c] of the tour of a column
    with LP value [lpval] that runs on day [d]. *)
Definition addVisit (lpval : R) (d : Z) (acc : Assignment) (c : Z)
  : Assignment :=
  let num :=
    if SCIPisZero (VeAssVals acc c d)
    then upd (numOfDays acc) c (numOfDays acc c + 1)
    else numOfDays acc in
  mkAssignment
    (upd2 (VeAssVals acc) c d (real_add (VeAssVals acc c d) lpval)) num.

(** The inner loop over the tour of one fractional column. *)
Definition addTour (lpval : R) (d : Z) (tr : list Z) (a : Assignment)
  : Assignment :=
  fold_left (addVisit lpval d) tr a.

(** The body of the loop "calculate arc flow values" for one column. *)
Definition aggregateStep (acc : Assignment) (var : LPVar) : Assignment :=
  let lpval := lpsol var in
  if SCIPisSumPositive lpval
     && SCIPisSumPositive (real_sub (real_of_int 1) lpval) then
    match tour var with
    | [] => acc
    | _ => addTour lpval (tday var) (tour var) acc
    end
  else acc.

(** The loop "calculate arc flow values". *)
Definition aggregate (vars : list LPVar) : Assignment :=
  fold_left aggregateStep vars zeroAssignment.

(** The running best of the search loop. *)
Record Best := mkBest {
  best_cust : Z;
  best_day : Z;
  bestnum : Z;
  bestval : R
}.

Definition initBest : Best := mkBest (-1) (-1) 0 real_half.

Definition cur_val (a : Assignment) (i j : Z) : R :=
  real_fabs (real_sub real_half (VeAssVals a i j)).

(** The body of the search loop for the pair [(i, j)]. *)
Definition selectStep (a : Assignment) (i j : Z) (b : Best) : Best :=
  let cv := cur_val a i j in
  if SCIPisEQ cv real_half then b
  else if SCIPisGT cv (bestval b) then b
  else if SCIPisEQ cv (bestval b) && (numOfDays a i <=? bestnum b) then b
  else mkBest i j (numOfDays a i) cv.

(** The loop "search for most fractional vehicle assignment variable". *)
Definition selectLoop (nC nDays : Z) (a : Assignment) : Best :=
  for_range nC
    (fun i b => for_range nDays (fun j b' => selectStep a i j b') b)
    initBest.

(** The selection of [branchExeclpVehicleAss], on the two arrays: the pair
    that passes the two assertions. *)
Definition selectPair (nC nDays : Z) (a : Assignment) : option (Z * Z) :=
  let b := selectLoop nC nDays a in
  do _ <- assert ((0 <=? best_cust b) && (best_cust b <? nC - 1));
  do _ <- assert ((0 <=? best_day b) && (best_day b <=? nDays - 1));
  Some (best_cust b, best_day b).

(** [branchExeclpVehicleAss]: the decision records attached to the two
    children, the prohibiting one first. *)
Definition branchExeclpVehicleAss (nC nDays : Z) (vars : list LPVar)
  : option (ConsVA.SCIP_CONSDATA * ConsVA.SCIP_CONSDATA) :=
  do p <- selectPair nC nDays (aggregate vars);
  do consprohibit <- ConsVA.consdataCreate (fst p) (snd p) ConsVA.VA_PROHIBIT;
  do consenforce <- ConsVA.consdataCreate (fst p) (snd p) ConsVA.VA_ENFORCE;
  Some (consprohibit, consenforce).

End Rule.

Arguments LPVar R : clear implicits.
Arguments Assignment R : clear implicits.
Arguments Best R : clear implicits.

End Branching.

(* ------------------------------------------------------------------ *)
(** ** cons_vehicleass.c: the callbacks around the propagation         *)
(* ------------------------------------------------------------------ *)

Module Callbacks.
Import ConsVA.

(** [consTransVehicleAss]: the data of the transformed constraint. *)
Definition consTransVehicleAss (sourcedata : SCIP_CONSDATA)
  : option SCIP_CONSDATA :=
  consdataCreate (customer sourcedata) (day sourcedata) (type sourcedata).

(** [consActiveVehicleAss], with [nvars = probdata->nvars]: the record after
    the call, and whether [SCIPrepropagateNode] was called. *)
Definition consActiveVehicleAss (nvars : Z) (consdata : SCIP_CONSDATA)
  : option (SCIP_CONSDATA * bool) :=
  do _ <- assert (npropagatedvars consdata <=? nvars);
  if negb (npropagatedvars consdata =? nvars) then
    Some (mkConsData (customer consdata) (day consdata) (type consdata)
            (npropagatedvars consdata) (npropagations consdata) false,
          true)
  else Some (consdata, false).

(** [consDeactiveVehicleAss], with [nvars = probdata->nvars] and
    [nchildren = SCIPgetNChildren(scip)]. *)
Definition consDeactiveVehicleAss (nvars nchildren : Z)
    (consdata : SCIP_CONSDATA) : option SCIP_CONSDATA :=
  do _ <- assert (propagated consdata || (nchildren =? 0));
  Some (mkConsData (customer consdata) (day consdata) (type consdata)
          nvars (npropagations consdata) (propagated consdata)).

End Callbacks.

(* ------------------------------------------------------------------ *)
(** ** pricer_vrp.c: activation, the former neighbourhood builder and
       the bound on the collectable dual values                        *)
(* ------------------------------------------------------------------ *)

Module PricerMore.
Import Pricer.

(** *** SCIPpricerVrpActivate *)



(** *** getCurrentNeighborhood *)

(** The initialisation loop of [getCurrentNeighborhood]: as in
    [setArcMatrix], but the depot flags are not reset. *)
Definition arcInitKeepDepot (md : model_data) (forb : Z -> Z -> bool)
    (toDep : Z -> bool) (succ0 pred0 : Z -> Z) : ArcState :=
  let '(forb1, succ1, pred1) :=
    for_range (nC md)
      (fun i '(f, s, p) =>
         (for_range (nC md) (fun j f' => upd2 f' i j false) f,
          upd s i (-1), upd p i (-1)))
      (forb, succ0, pred0) in
  mkArcState forb1 toDep succ1 pred1.

(** The copy loop for a customer without enforced successor: a neighbour
    is skipped when the arc is forbidden or the neighbour has an enforced
    predecessor, which is asserted not to be the customer itself. *)
Fixpoint copyUnclaimed (st : ArcState) (i : Z) (nb : list Z)
  : option (list Z) :=
  match nb with
  | [] => Some []
  | id :: next =>
      if aForbidden st i id || negb (predecessor st id =? -1) then
        do _ <- assert (negb (predecessor st id =? i));
        copyUnclaimed st i next
      else
        do rest <- copyUnclaimed st i next;
        Some (id :: rest)
  end.

(** The copy loop of the depot row. *)
Fixpoint copyDepot (st : ArcState) (i : Z) (nb : list Z) : list Z :=
  match nb with
  | [] => []
  | id :: next =>
      if aForbidden st i id
         || (negb (predecessor st id =? i) && negb (predecessor st id =? -1))
      then copyDepot st i next
      else id :: copyDepot st i next
  end.

(** One pass of the customer loop of [getCurrentNeighborhood]. *)
Definition formerCustomerCell (md : model_data) (st : ArcState) (i j : Z)
    (nbs : Z -> Z -> list Z) : option (Z -> Z -> list Z) :=
  do _ <- assert (match nbs i j with [] => true | _ => false end);
  if negb (successor st i =? -1) then Some (upd2 nbs i j [successor st i])
  else
    do l <- copyUnclaimed st i (mneighbors md i j);
    Some (upd2 nbs i j l).

(** One pass of its depot loop. *)
Definition formerDepotCell (md : model_data) (st : ArcState) (i j : Z)
    (nbs : Z -> Z -> list Z) : option (Z -> Z -> list Z) :=
  do _ <- assert (match nbs i j with [] => true | _ => false end);
  Some (upd2 nbs i j (copyDepot st i (mneighbors md i j))).

(** [getCurrentNeighborhood]; [conss] are the decisions of the arc-flow
    handler, [succ0] and [pred0] the local arrays as allocated. *)
Definition getCurrentNeighborhood (md : model_data) (conss : list ArcCons)
    (pd : SCIP_PRICERDATA) (succ0 pred0 : Z -> Z) : option SCIP_PRICERDATA :=
  let cleared :=
    if negb (lastnodeid pd =? 1) then neighbors (clearNeighbors md pd)
    else
      for_range (nC md)
        (fun i n => for_range (nDays md) (fun j n' => upd2 n' i j []) n)
        (neighbors pd) in
  do st <- arcLoop md conss
             (arcInitKeepDepot md (isForbidden pd) (toDepot pd) succ0 pred0);
  let customers :=
    for_range (nC md - 1)
      (fun i acc =>
         for_range (nDays md)
           (fun j acc' => do nbs <- acc'; formerCustomerCell md st i j nbs)
           acc)
      (Some cleared) in
  do nbs <- for_range (nDays md)
              (fun j acc =>
                 do nbs <- acc; formerDepotCell md st (nC md - 1) j nbs)
              customers;
  Some (mkPricer (aForbidden st) (aToDepot st) (timetable pd) (eC pd)
                 (nEC pd) nbs (lastnodeid pd)).

(** *** sumOfPossibleDualvalues *)

Section DualValues.
Context {R : Type} {num : SCIP_Real R}.

(** [dualvalues[i] + hardCustomerBonus]; [bonus i] is the integer bonus the
    function computes for customer [i] (zero unless the customer is
    optional). *)
Definition dualTerm (dualvalues : Z -> R) (bonus : Z -> Z) (i : Z) : R :=
  real_add (dualvalues i) (real_of_int (bonus i)).

(** The walk over the depot's neighbours of the day. *)
Definition sumOverNeighbors (dualvalues : Z -> R) (bonus : Z -> Z)
    (nodes : list Z) : R :=
  fold_left
    (fun possibleDualValue i =>
       if negb (SCIPisSumPositive (dualTerm dualvalues bonus i))
       then possibleDualValue
       else real_add possibleDualValue (dualTerm dualvalues bonus i))
    nodes real_zero.

(** The walk over the windows of one customer, left at the first window of
    the day. *)
Fixpoint addIfWindow (windows : list Z) (day : Z) (term acc : R) : R :=
  match windows with
  | [] => acc
  | wday :: next =>
      if wday =? day then real_add acc term
      else addIfWindow next day term acc
  end.

(** The loop over the customers when the instance is not preprocessed. *)
Definition sumOverCustomers (md : model_data) (dualvalues : Z -> R)
    (bonus : Z -> Z) (day : Z) : R :=
  for_range (nC md - 1)
    (fun i possibleDualValue =>
       if negb (SCIPisSumPositive (dualTerm dualvalues bonus i))
       then possibleDualValue
       else addIfWindow (timeWindows md i) day (dualTerm dualvalues bonus i)
              possibleDualValue)
    real_zero.

(** [sumOfPossibleDualvalues]; [preprocessed] tells whether
    [modeldata->neighbors] is set. *)
Definition sumOfPossibleDualvalues (md : model_data) (preprocessed : bool)
    (dualvalues : Z -> R) (bonus : Z -> Z) (day : Z) : option R :=
  do _ <- assert ((0 <=? day) && (day <? nDays md));
  let possibleDualValue :=
    if preprocessed
    then sumOverNeighbors dualvalues bonus (mneighbors md (nC md - 1) day)
    else sumOverCustomers md dualvalues bonus day in
  do _ <- assert (real_geb possibleDualValue real_zero);
  Some possibleDualValue.

End DualValues.

End PricerMore.

(* ------------------------------------------------------------------ *)
(** ** Vocabulary of the statements                                    *)
(* ------------------------------------------------------------------ *)

(** The column with its upper bound at zero. *)
Definition zeroFixed (var : ConsVA.SCIP_VAR) : ConsVA.SCIP_VAR :=
  ConsVA.mkVar (ConsVA.customertour var) (ConsVA.vday var)
            (ConsVA.lbLocal var) 0%Q.

(** Every customer of the tour is a non-negative index: the tour passes the
    assertion of the classifier wherever the scan stops. *)
Definition validTour (var : ConsVA.SCIP_VAR) : Prop :=
  Forall (fun u => 0 <= u) (ConsVA.customertour var).

(** A column is hit by a record when the record's verdict calls for its
    fixing: a prohibiting record on answer 2, an enforcing one on answer 1. *)
Definition hitBy (consdata : ConsVA.SCIP_CONSDATA) (var : ConsVA.SCIP_VAR) : Prop :=
  let hit := ConsVA.customerAndDayInVar var (ConsVA.customer consdata)
      (ConsVA.day consdata) in
  (ConsVA.type consdata = ConsVA.VA_PROHIBIT /\ hit = Some 2)
  \/ (ConsVA.type consdata = ConsVA.VA_ENFORCE /\ hit = Some 1).

Definition hitByb (consdata : ConsVA.SCIP_CONSDATA) (var : ConsVA.SCIP_VAR) : bool :=
  match ConsVA.customerAndDayInVar var (ConsVA.customer consdata)
          (ConsVA.day consdata) with
  | Some arcStatus => ConsVA.verdictHit (ConsVA.type consdata) arcStatus
  | None => false
  end.

(** The classifier as the specification words it: 1 when the column visits the
    customer, 2 when it also runs on the day, 0 otherwise. *)
Definition claimedHit (var : ConsVA.SCIP_VAR) (customer day : Z) : Z :=
  if existsb (Z.eqb customer) (ConsVA.customertour var)
  then (if ConsVA.vday var =? day then 2 else 1)
  else 0.

(** A column is still feasible when its upper bound is at least 0.5. *)
Definition feasibleb (var : ConsVA.SCIP_VAR) : bool :=
  negb (Qltb (ConsVA.ubLocal var) half).

(** The classifier trips its assertion on a column that is still feasible:
    a scan that reaches the column aborts there. *)
Definition abortsb (consdata : ConsVA.SCIP_CONSDATA)
    (var : ConsVA.SCIP_VAR) : bool :=
  feasibleb var
  && match ConsVA.customerAndDayInVar var (ConsVA.customer consdata)
             (ConsVA.day consdata) with
     | None => true
     | Some _ => false
     end.

(** A fixing of the column for the record meets a lower bound that already
    forces the column to one. *)
Definition contradicts (consdata : ConsVA.SCIP_CONSDATA)
    (var : ConsVA.SCIP_VAR) : Prop :=
  (half <= ConsVA.ubLocal var)%Q /\ hitBy consdata var
  /\ (half < ConsVA.lbLocal var)%Q.

Definition contradictsb (consdata : ConsVA.SCIP_CONSDATA)
    (var : ConsVA.SCIP_VAR) : bool :=
  feasibleb var && hitByb consdata var && Qltb half (ConsVA.lbLocal var).

(** The column is feasible, hit by the record, and can be fixed to zero. *)
Definition fixable (consdata : ConsVA.SCIP_CONSDATA)
    (var : ConsVA.SCIP_VAR) : Prop :=
  (half <= ConsVA.ubLocal var)%Q /\ hitBy consdata var
  /\ (ConsVA.lbLocal var <= half)%Q.

Definition fixableb (consdata : ConsVA.SCIP_CONSDATA)
    (var : ConsVA.SCIP_VAR) : bool :=
  feasibleb var && hitByb consdata var
  && negb (Qltb half (ConsVA.lbLocal var)).

Definition fixOne (consdata : ConsVA.SCIP_CONSDATA) (var : ConsVA.SCIP_VAR)
  : ConsVA.SCIP_VAR :=
  if fixableb consdata var then zeroFixed var else var.

(** The index at which the scan of a record starts. *)
Definition scanStart (consdata : ConsVA.SCIP_CONSDATA) : nat :=
  Z.to_nat (ConsVA.npropagatedvars consdata).

(** Column [k] is scanned for the record: the record is not yet propagated
    and [k] is at or after its last-checked index. *)
Definition scans (consdata : ConsVA.SCIP_CONSDATA) (k : nat) : Prop :=
  ConsVA.propagated consdata = false /\ (scanStart consdata <= k)%nat.

Definition scansb (consdata : ConsVA.SCIP_CONSDATA) (k : nat) : bool :=
  negb (ConsVA.propagated consdata) && (scanStart consdata <=? k)%nat.

(** A record after a propagation that did not cut off: an unpropagated
    record has run once more, is marked propagated and has its last-checked
    index at the column count; a propagated record is as it was. *)
Definition advanced (nvars : nat) (consdata : ConsVA.SCIP_CONSDATA)
  : ConsVA.SCIP_CONSDATA :=
  if ConsVA.propagated consdata then consdata
  else ConsVA.markPropagated (ConsVA.bumpPropagations consdata)
         (Z.of_nat nvars).

(** The columns after a scan for one record that met no contradiction:
    the columns before the start index as they were, the others fixed where
    the record hits them. *)
Definition fixFrom (consdata : ConsVA.SCIP_CONSDATA)
    (vars : list ConsVA.SCIP_VAR) : list ConsVA.SCIP_VAR :=
  firstn (scanStart consdata) vars
  ++ map (fixOne consdata) (skipn (scanStart consdata) vars).

(** Some record of the list scans column [k] and can fix it. *)
Definition fixedBySome (conss : list ConsVA.SCIP_CONSDATA) (k : nat)
    (var : ConsVA.SCIP_VAR) : Prop :=
  exists consdata, In consdata conss /\ scans consdata k
                   /\ fixable consdata var.

Definition fixedBySomeb (conss : list ConsVA.SCIP_CONSDATA) (k : nat)
    (var : ConsVA.SCIP_VAR) : bool :=
  existsb (fun consdata => scansb consdata k && fixableb consdata var) conss.

(** Some record of the list scans a column that contradicts it. *)
Definition cutBySome (conss : list ConsVA.SCIP_CONSDATA)
    (vars : list ConsVA.SCIP_VAR) : Prop :=
  exists consdata k var,
    In consdata conss /\ scans consdata k
    /\ nth_error vars k = Some var /\ contradicts consdata var.

(** Some record of the list scans a column it can fix. *)
Definition reducedBySome (conss : list ConsVA.SCIP_CONSDATA)
    (vars : list ConsVA.SCIP_VAR) : Prop :=
  exists k var, nth_error vars k = Some var /\ fixedBySome conss k var.

(** The column after a propagation that did not cut off. *)
Definition fixAll (conss : list ConsVA.SCIP_CONSDATA) (k : nat)
    (var : ConsVA.SCIP_VAR) : ConsVA.SCIP_VAR :=
  if fixedBySomeb conss k var then zeroFixed var else var.

(** Column [k] after the scan for one unpropagated record that met no
    contradiction. *)
Definition fixAt (consdata : ConsVA.SCIP_CONSDATA) (k : nat)
    (var : ConsVA.SCIP_VAR) : ConsVA.SCIP_VAR :=
  if (scanStart consdata <=? k)%nat then fixOne consdata var else var.

(* ------------------------------------------------------------------ *)
(** ** Sample inputs                                                   *)
(* ------------------------------------------------------------------ *)

Module Sample.
Import ConsVA.

(** A column serving customer 4 on day 2, free between 0 and 1. *)
Definition dayOnlyVar : SCIP_VAR := mkVar [4] 2 0%Q 1%Q.

(** A column serving customers 7 and 3 on day 1, free between 0 and 1. *)
Definition otherDayVar : SCIP_VAR := mkVar [7; 3] 1 0%Q 1%Q.

(** The same tour, already forced to one. *)
Definition forcedVar : SCIP_VAR := mkVar [7; 3] 1 1%Q 1%Q.

(** A column serving customer 3 on day 1, and one that shares nothing with
    the record (3, 1). *)
Definition sameDayVar : SCIP_VAR := mkVar [3] 1 0%Q 1%Q.
Definition unrelatedVar : SCIP_VAR := mkVar [4] 0 0%Q 1%Q.

(** Fresh records. *)
Definition enforce32 : SCIP_CONSDATA := mkConsData 3 2 VA_ENFORCE 0 0 false.
Definition prohibit52 : SCIP_CONSDATA := mkConsData 5 2 VA_PROHIBIT 0 0 false.

(** A record that was propagated once over two columns and is to be
    propagated again. *)
Definition prohibit31 : SCIP_CONSDATA := mkConsData 3 1 VA_PROHIBIT 2 1 false.

(** Ten customers and the depot (customer 10), three days; customer 3 has
    windows on days 0 and 2, every other customer on day 1; every customer
    neighbours every customer on every day. *)
Definition model11 : Pricer.model_data :=
  Pricer.mkModel 11 3 (fun c => if c =? 3 then [0; 2] else [1])
    (fun _ _ => range 11).

(** Two customers and the depot (customer 2), two days. *)
Definition model3 : Pricer.model_data :=
  Pricer.mkModel 3 2 (fun _ => [0; 1]) (fun _ _ => [0; 1; 2]).

(** Pricer data before any graph was built. *)
Definition pricer0 : Pricer.SCIP_PRICERDATA :=
  Pricer.mkPricer (fun _ _ => false) (fun _ => true) (fun _ _ => false)
    (fun _ => -1) (fun _ => 0) (fun _ _ => []) 1.

Definition enforceDay32 : Pricer.VACons :=
  Pricer.mkVACons 3 2 VA_ENFORCE true.

Definition prohibitDay10 : Pricer.VACons :=
  Pricer.mkVACons 1 0 VA_PROHIBIT true.

(** Four fractional columns of a relaxation over two days: customer 0 is
    served on day 0 at 0.25 and on day 1 at 0.75, customer 1 on either day
    at one half.  The values are binary64 numbers. *)
Definition lpVars : list (Branching.LPVar float) :=
  [Branching.mkLPVar 0.25%float [0] 0; Branching.mkLPVar 0.75%float [0] 1;
   Branching.mkLPVar 0.5%float [1] 0; Branching.mkLPVar 0.5%float [1] 1].

(** The same columns over the rationals. *)
Definition lpVarsQ : list (Branching.LPVar Q) :=
  [Branching.mkLPVar (1 # 4)%Q [0] 0; Branching.mkLPVar (3 # 4)%Q [0] 1;
   Branching.mkLPVar (1 # 2)%Q [1] 0; Branching.mkLPVar (1 # 2)%Q [1] 1].

(** Pricing calls without decisions at the root and at nodes 2 and 3. *)
Definition callAt (n : Z) : Pricer.PricingCall := Pricer.mkCall n [] [].

Definition enforceArc59 : Pricer.ArcCons :=
  Pricer.mkArcCons 5 9 Pricer.ENFORCE true.
Definition prohibitArc0Depot : Pricer.ArcCons :=
  Pricer.mkArcCons 0 2 Pricer.PROHIBIT true.
Definition enforceArc01 : Pricer.ArcCons :=
  Pricer.mkArcCons 0 1 Pricer.ENFORCE true.

End Sample.

(** A customer whose arc to the depot is forbidden may not return to the
    depot. *)
Definition depotClosed (md : Pricer.model_data) (st : Pricer.ArcState)
  : Prop :=
  forall c, 0 <= c < Pricer.nC md - 1 ->
    Pricer.aForbidden st c (Pricer.nC md - 1) = true ->
    Pricer.aToDepot st c = false.

(** Day [d] agrees with a customer/day decision: it is not the prohibited
    day, or it is the enforced one. *)
Definition agrees (dec : Pricer.VACons) (d : Z) : Prop :=
  match Pricer.vaType dec with
  | ConsVA.VA_PROHIBIT => Pricer.vaDay dec <> d
  | ConsVA.VA_ENFORCE => Pricer.vaDay dec = d
  end.

(** Day [d] is a window day of customer [c] and agrees with every active
    decision on [c]. *)
Definition available (md : Pricer.model_data) (conss : list Pricer.VACons)
    (c d : Z) : Prop :=
  In d (Pricer.timeWindows md c)
  /\ forall dec, In dec conss -> Pricer.vaActive dec = true ->
       Pricer.vaCustomer dec = c -> agrees dec d.

(** The timetable agrees with the decisions processed so far. *)
Definition tableOf (md : Pricer.model_data) (done : list Pricer.VACons)
    (tab : Z -> Z -> bool) : Prop :=
  forall c d, 0 <= c < Pricer.nC md -> 0 <= d < Pricer.nDays md ->
    (tab c d = true <-> available md done c d).

(** The window days of customer [c] that the timetable still offers, in the
    order of the window list. *)
Definition availableDays (md : Pricer.model_data) (tab : Z -> Z -> bool)
    (c : Z) : list Z :=
  filter (tab c) (Pricer.timeWindows md c).

(** The enforced day of a customer: the single available window day, or -1. *)
Definition enforcedDayOf (md : Pricer.model_data) (tab : Z -> Z -> bool)
    (c : Z) : Z :=
  match availableDays md tab c with
  | [d] => d
  | _ => -1
  end.

(** The number of non-depot customers that [ec] assigns to day [d]. *)
Definition enforcedCount (md : Pricer.model_data) (ec : Z -> Z) (d : Z) : Z :=
  Z.of_nat (length (filter (fun c => ec c =? d) (range (Pricer.nC md - 1)))).

(** The walk over the windows of customer [c] counted one available day;
    the day it found. *)
Definition isEnforced (md : Pricer.model_data) (tab : Z -> Z -> bool)
    (c : Z) : bool :=
  fst (Pricer.countWindows tab c (Pricer.timeWindows md c)) =? 1.

Definition dayFound (md : Pricer.model_data) (tab : Z -> Z -> bool)
    (c : Z) : Z :=
  snd (Pricer.countWindows tab c (Pricer.timeWindows md c)).

(** Neighbour [id] survives the copy of the list of customer [i] on day
    [j]: it is available that day and the arc from [i] is not forbidden. *)
Definition survives (pd : Pricer.SCIP_PRICERDATA) (i j id : Z) : bool :=
  Pricer.timetable pd id j && negb (Pricer.isForbidden pd i id).

(** The list the rebuild leaves for customer [i] on day [j]. *)
Definition cellValue (md : Pricer.model_data) (pd : Pricer.SCIP_PRICERDATA)
    (i j : Z) : list Z :=
  if (i =? Pricer.nC md - 1) || Pricer.timetable pd i j
  then filter (survives pd i j) (Pricer.mneighbors md i j)
  else [].

(** A pass over one cell that finds it empty writes the cell's value. *)
Definition writesCell (val : Z -> Z -> list Z)
    (step : Z -> Z -> (Z -> Z -> list Z) -> option (Z -> Z -> list Z))
  : Prop :=
  forall i j nbs, nbs i j = [] ->
    exists nbs', step i j nbs = Some nbs'
      /\ forall k m, nbs' k m
                     = if (k =? i) && (m =? j) then val i j else nbs k m.

(** The calls of a sequence at which the node differs from the node of the
    call before it, the first call being compared with [last]. *)
Fixpoint nodeChanges (last : Z) (nodes : list Z) : list bool :=
  match nodes with
  | [] => []
  | n :: rest => negb (last =? n) :: nodeChanges n rest
  end.

(** The pairs [(customer, day)] in the order the search loop visits them. *)
Definition pairs (nC nDays : Z) : list (Z * Z) :=
  flat_map (fun i => map (pair i) (range nDays)) (range nC).

Section Numeric.
Context {R : Type} {num : SCIP_Real R}.

(** The sum [((x + y1) + y2) + ...] as the loops compute it, one rounded
    addition after the other. *)
Definition sumFrom (x : R) (l : list R) : R := fold_left real_add l x.

(** The column has a fractional LP value for the branching rule: the value
    and its complement to one pass the engine's test. *)
Definition fractional (var : Branching.LPVar R) : bool :=
  SCIPisSumPositive (Branching.lpsol var)
  && SCIPisSumPositive (real_sub (real_of_int 1) (Branching.lpsol var)).

(** The visits that the first loop of the rule processes, in its order:
    for every fractional column, every entry of its tour, with the day and
    the LP value of the column. *)
Definition visits (vars : list (Branching.LPVar R)) : list (Z * Z * R) :=
  flat_map
    (fun var =>
       if fractional var
       then map (fun c => (c, Branching.tday var, Branching.lpsol var))
              (Branching.tour var)
       else [])
    vars.

(** The visit is one of customer [c] on day [d]. *)
Definition visitOf (c d : Z) (e : Z * Z * R) : bool :=
  (fst (fst e) =? c) && (snd (fst e) =? d).

(** The LP values that the first loop adds to [VeAssVals[c][d]], in the
    order of the additions. *)
Definition contributions (vars : list (Branching.LPVar R)) (c d : Z)
  : list R :=
  map snd (filter (visitOf c d) (visits vars)).

(** The number of days of the model on which some fractional column visits
    customer [c]. *)
Definition visitedDays (nDays : Z) (vars : list (Branching.LPVar R)) (c : Z)
  : Z :=
  Z.of_nat
    (length (filter (fun d => existsb (visitOf c d) (visits vars))
               (range nDays))).

(** The zero test of the engine tells an empty sum from a sum of values that
    pass [SCIPisSumPositive]: zero tests zero, and such a sum does not. *)
Definition accumulates : Prop :=
  SCIPisZero real_zero = true
  /\ forall l, l <> [] ->
       Forall (fun x => SCIPisSumPositive x = true) l ->
       SCIPisZero (sumFrom real_zero l) = false.

(** A sum of values that pass [SCIPisSumPositive] is not negative. *)
Definition sumsNonnegative : Prop :=
  forall l, Forall (fun x => SCIPisSumPositive x = true) l ->
    real_geb (sumFrom real_zero l) real_zero = true.

(** The weight of the pair is integral for the search loop: its distance to
    one half tests equal to one half. *)
Definition integral (a : Branching.Assignment R) (q : Z * Z) : bool :=
  SCIPisEQ (Branching.cur_val a (fst q) (snd q)) real_half.

(** The search loop passes over the pair [q] when its best has distance
    [bestval] and day count [bestnum]: the weight of [q] is integral, or
    its distance tests greater than [bestval], or equal to it with a day
    count that is not larger than [bestnum]. *)
Definition passedOver (a : Branching.Assignment R) (bestval : R)
    (bestnum : Z) (q : Z * Z) : bool :=
  let cv := Branching.cur_val a (fst q) (snd q) in
  SCIPisEQ cv real_half
  || SCIPisGT cv bestval
  || (SCIPisEQ cv bestval && (Branching.numOfDays a (fst q) <=? bestnum)).

(** The pair [q] does not replace the pair [p] as the best. *)
Definition keeps (a : Branching.Assignment R) (p q : Z * Z) : bool :=
  passedOver a (Branching.cur_val a (fst p) (snd p))
    (Branching.numOfDays a (fst p)) q.

(** The running best after the pairs [seen]: either nothing was taken, and
    the loop passed over every pair seen with its initial best; or the best
    is a pair seen whose weight is not integral, and the loop passed over
    every pair seen after it. *)
Definition lastTaken (a : Branching.Assignment R) (seen : list (Z * Z))
    (b : Branching.Best R) : Prop :=
  (b = Branching.initBest
   /\ forall q, In q seen -> passedOver a real_half 0 q = true)
  \/ (exists s1 s2,
        seen = s1 ++ (Branching.best_cust b, Branching.best_day b) :: s2
        /\ Branching.bestval b
           = Branching.cur_val a (Branching.best_cust b) (Branching.best_day b)
        /\ Branching.bestnum b
           = Branching.numOfDays a (Branching.best_cust b)
        /\ integral a (Branching.best_cust b, Branching.best_day b) = false
        /\ forall q, In q s2 ->
             keeps a (Branching.best_cust b, Branching.best_day b) q = true).

(** The values the search loop compares: one half and the distances of the
    pairs of the model. *)
Definition distanceOf (a : Branching.Assignment R) (nC nDays : Z) (x : R)
  : Prop :=
  x = real_half
  \/ exists p, In p (pairs nC nDays)
               /\ x = Branching.cur_val a (fst p) (snd p).

(** The comparisons of the engine are decisive on the distances of the
    model: read through [value], two distances test equal only when they are
    equal and one tests greater only when it is greater.  For doubles read
    as the rationals they stand for, this is the case when no two distinct
    distances lie within the tolerance of one another. *)
Definition decisive (a : Branching.Assignment R) (nC nDays : Z)
    (value : R -> Q) : Prop :=
  forall x y, distanceOf a nC nDays x -> distanceOf a nC nDays y ->
    (SCIPisEQ x y = true <-> (value x == value y)%Q)
    /\ (SCIPisGT x y = true <-> (value y < value x)%Q).

(** Pair [p] beats pair [q]: it is strictly closer to one half, or as close
    with at least as many days counted for its customer. *)
Definition beats (value : R -> Q) (a : Branching.Assignment R)
    (p q : Z * Z) : Prop :=
  (value (Branching.cur_val a (fst p) (snd p))
   < value (Branching.cur_val a (fst q) (snd q)))%Q
  \/ ((value (Branching.cur_val a (fst p) (snd p))
       == value (Branching.cur_val a (fst q) (snd q)))%Q
      /\ Branching.numOfDays a (fst q) <= Branching.numOfDays a (fst p)).

(** Pair [p] strictly beats pair [q]: it is strictly closer to one half, or
    as close with strictly more days counted for its customer. *)
Definition strictlyBeats (value : R -> Q) (a : Branching.Assignment R)
    (p q : Z * Z) : Prop :=
  (value (Branching.cur_val a (fst p) (snd p))
   < value (Branching.cur_val a (fst q) (snd q)))%Q
  \/ ((value (Branching.cur_val a (fst p) (snd p))
       == value (Branching.cur_val a (fst q) (snd q)))%Q
      /\ Branching.numOfDays a (fst q) < Branching.numOfDays a (fst p)).

(** The running best after the pairs [seen], when the comparisons are
    decisive: either nothing was taken yet and no pair seen is closer to one
    half than one half, or the best is a pair seen, closer to one half than
    one half, that beats every pair seen whose weight is not integral and
    strictly beats those seen before it. *)
Definition bestOf (value : R -> Q) (a : Branching.Assignment R)
    (seen : list (Z * Z)) (b : Branching.Best R) : Prop :=
  (b = Branching.initBest
   /\ forall q, In q seen ->
        ~ (value (Branching.cur_val a (fst q) (snd q)) < value real_half)%Q)
  \/ (exists s1 s2,
        seen = s1 ++ (Branching.best_cust b, Branching.best_day b) :: s2
        /\ Branching.bestval b
           = Branching.cur_val a (Branching.best_cust b) (Branching.best_day b)
        /\ (value (Branching.bestval b) < value real_half)%Q
        /\ Branching.bestnum b
           = Branching.numOfDays a (Branching.best_cust b)
        /\ (forall q, In q seen -> integral a q = false ->
              beats value a (Branching.best_cust b, Branching.best_day b) q)
        /\ (forall q, In q s1 -> integral a q = false ->
              strictlyBeats value a
                (Branching.best_cust b, Branching.best_day b) q)).

(** The values that [sumOfPossibleDualvalues] adds up over the customers
    [l], in their order: the terms that pass [SCIPisSumPositive]. *)
Definition collected (dualvalues : Z -> R) (bonus : Z -> Z) (l : list Z)
  : list R :=
  map (PricerMore.dualTerm dualvalues bonus)
    (filter (fun i => SCIPisSumPositive (PricerMore.dualTerm dualvalues bonus i))
       l).

End Numeric.

(** The columns [consdataCheck] looks at: the first [npropagatedvars]
    ones before a propagation, all of them after it. *)
Definition checkedVars (vars : list ConsVA.SCIP_VAR)
    (consdata : ConsVA.SCIP_CONSDATA) (beforeprop : bool)
  : list ConsVA.SCIP_VAR :=
  firstn
    (Z.to_nat (if beforeprop then ConsVA.npropagatedvars consdata
               else Z.of_nat (length vars)))
    vars.

(** A feasible column that the record's verdict rules out. *)
Definition violates (consdata : ConsVA.SCIP_CONSDATA)
    (var : ConsVA.SCIP_VAR) : Prop :=
  (half <= ConsVA.ubLocal var)%Q /\ hitBy consdata var.

(** The decision closes the return of customer [c] to the depot: it is
    active, leaves [c], and either prohibits the arc to the depot or
    enforces an arc to another customer. *)
Definition closesReturn (md : Pricer.model_data) (dec : Pricer.ArcCons)
    (c : Z) : Prop :=
  Pricer.arcActive dec = true /\ Pricer.tail dec = c
  /\ match Pricer.atype dec with
     | Pricer.PROHIBIT => Pricer.head dec = Pricer.nC md - 1
     | Pricer.ENFORCE => Pricer.head dec <> Pricer.nC md - 1
     end.

(** The decision forbids the arc [(k, m)]: it is active and prohibits that
    arc, or it enforces an arc between two customers and [(k, m)] is another
    arc out of its tail or into its head, or it enforces an arc into the
    depot and [(k, m)] leaves its tail for a customer, or it enforces an arc
    out of the depot and [(k, m)] enters its head from a customer. *)
Definition forbidsArc (md : Pricer.model_data) (dec : Pricer.ArcCons)
    (k m : Z) : Prop :=
  let tl := Pricer.tail dec in
  let hd := Pricer.head dec in
  let depot := Pricer.nC md - 1 in
  Pricer.arcActive dec = true
  /\ match Pricer.atype dec with
     | Pricer.PROHIBIT => k = tl /\ m = hd
     | Pricer.ENFORCE =>
         (tl <> depot /\ hd <> depot
          /\ ((k = tl /\ m <> hd) \/ (m = hd /\ k <> tl)))
         \/ (hd = depot /\ k = tl /\ m <> depot)
         \/ (tl = depot /\ hd <> depot /\ m = hd /\ k <> depot)
     end.

(** The non-depot customers with a window on the day, in index order. *)
Definition customersOfDay (md : Pricer.model_data) (day : Z) : list Z :=
  filter (fun i => existsb (Z.eqb day) (Pricer.timeWindows md i))
    (range (Pricer.nC md - 1)).




(** Two decision records are in conflict: they name the same customer and
    either both enforce a day or name the same day. *)
Definition conflicting (c1 c2 : ConsVA.SCIP_CONSDATA) : Prop :=
  ConsVA.customer c1 = ConsVA.customer c2
  /\ ((ConsVA.type c1 = ConsVA.VA_ENFORCE
       /\ ConsVA.type c2 = ConsVA.VA_ENFORCE)
      \/ ConsVA.day c1 = ConsVA.day c2).

(** The order in which the search loop visits the pairs: by customer, then
    by day. *)
Definition scannedBefore (p q : Z * Z) : Prop :=
  fst p < fst q \/ (fst p = fst q /\ snd p < snd q).

(** Some active ENFORCE decision of the list leaves customer [t]. *)
Definition enforcedFrom (done : list Pricer.ArcCons) (t : Z) : Prop :=
  exists e, In e done /\ Pricer.arcActive e = true
            /\ Pricer.atype e = Pricer.ENFORCE /\ Pricer.tail e = t.

(** Some active ENFORCE decision of the list enters customer [h]. *)
Definition enforcedInto (done : list Pricer.ArcCons) (h : Z) : Prop :=
  exists e, In e done /\ Pricer.arcActive e = true
            /\ Pricer.atype e = Pricer.ENFORCE /\ Pricer.head e = h.

(** The decision passes the assertions of [setArcMatrix] after the
    decisions [done]: a prohibited arc is not forbidden yet; an enforced arc
    leaves the depot or a customer without enforced successor, and enters
    the depot or a customer without enforced predecessor. *)
Definition admissibleArc (md : Pricer.model_data)
    (done : list Pricer.ArcCons) (dec : Pricer.ArcCons) : Prop :=
  let tl := Pricer.tail dec in
  let hd := Pricer.head dec in
  let depot := Pricer.nC md - 1 in
  match Pricer.atype dec with
  | Pricer.PROHIBIT => ~ exists e, In e done /\ forbidsArc md e tl hd
  | Pricer.ENFORCE =>
      (tl = depot \/ ~ enforcedFrom done tl)
      /\ (hd = depot \/ ~ enforcedInto done hd)
  end.

(** The arrays of [setArcMatrix] agree with the decisions processed so far. *)
Definition matrixOf (md : Pricer.model_data) (done : list Pricer.ArcCons)
    (st : Pricer.ArcState) : Prop :=
  (forall k m, 0 <= k < Pricer.nC md -> 0 <= m < Pricer.nC md ->
     (Pricer.aForbidden st k m = true
      <-> exists e, In e done /\ forbidsArc md e k m))
  /\ (forall t, 0 <= t < Pricer.nC md ->
        (Pricer.successor st t <> -1 <-> enforcedFrom done t))
  /\ (forall h, 0 <= h < Pricer.nC md ->
        (Pricer.predecessor st h <> -1 <-> enforcedInto done h)).

(* ================================================================== *)
(** * Part II. Properties                                              *)
(* ================================================================== *)

(** ** Shared lemmas *)

Lemma Qltb_true (a b : Q) : Qltb a b = true <-> (a < b)%Q.
Proof.
  unfold Qltb. rewrite negb_true_iff. split; intro H.
  - apply Qnot_le_lt. intro L. apply Qle_bool_iff in L. congruence.
  - destruct (Qle_bool b a) eqn:E; [|reflexivity].
    apply Qle_bool_iff in E. exfalso. exact (Qlt_not_le _ _ H E).
Qed.

Lemma Qltb_false (a b : Q) : Qltb a b = false <-> (b <= a)%Q.
Proof.
  unfold Qltb. rewrite negb_false_iff. apply Qle_bool_iff.
Qed.

Lemma assert_Some (b : bool) (u : unit) : assert b = Some u -> b = true.
Proof. destruct b; simpl; congruence. Qed.

Lemma last_nonempty {A} (x : A) (l : list A) (d d' : A) :
  last (x :: l) d = last (x :: l) d'.
Proof.
  revert x. induction l as [|y l IH]; intros x; [reflexivity|].
  change (last (y :: l) d = last (y :: l) d'). apply IH.
Qed.

Lemma in_range (n k : Z) : In k (range n) <-> 0 <= k < n.
Proof.
  unfold range. rewrite in_map_iff. split.
  - intros (x & <- & Hx). apply in_seq in Hx. lia.
  - intros H. exists (Z.to_nat k). split; [lia|]. apply in_seq. lia.
Qed.

Lemma range_NoDup (n : Z) : NoDup (range n).
Proof.
  unfold range. apply Finite.Injective_map_NoDup.
  - intros x y H. lia.
  - apply seq_NoDup.
Qed.

(* ------------------------------------------------------------------ *)
(** ** The classifier and [checkVariable]                              *)
(* ------------------------------------------------------------------ *)

Section Classifier.
Import ConsVA.

Lemma tourScan_visits tour vd c d r :
  tourScan tour vd c d = Some r -> In c tour ->
  r = if vd =? d then 2 else 1.
Proof.
  induction tour as [|u rest IH]; simpl; [tauto|].
  destruct (assert (0 <=? u)); [|discriminate].
  destruct (Z.eqb_spec u c) as [->|Hne].
  - intros H _. inversion H. reflexivity.
  - intros H [E|Hin]; [contradiction|]. exact (IH H Hin).
Qed.

Lemma tourScan_misses tour vd c d r :
  tourScan tour vd c d = Some r -> ~ In c tour ->
  r = if vd =? d then 1 else 0.
Proof.
  induction tour as [|u rest IH]; simpl.
  - intros H _. inversion H. reflexivity.
  - destruct (assert (0 <=? u)); [|discriminate].
    intros H Hout. destruct (Z.eqb_spec u c) as [->|_]; [tauto|].
    apply (IH H). tauto.
Qed.

(** A tour of non-negative entries passes the assertion of the scan. *)
Lemma tourScan_valid tour vd c d :
  Forall (fun u => 0 <= u) tour -> exists r, tourScan tour vd c d = Some r.
Proof.
  induction 1 as [|u rest Hu _ IH]; simpl; [eauto|].
  apply Z.leb_le in Hu. rewrite Hu. simpl.
  destruct (u =? c); [eauto|exact IH].
Qed.

(** The scan trips its assertion exactly on a negative entry that it
    reaches before the customer. *)
Lemma tourScan_None tour vd c d :
  tourScan tour vd c d = None
  <-> exists pre u post, tour = pre ++ u :: post /\ u < 0 /\ ~ In c pre.
Proof.
  induction tour as [|u rest IH]; simpl.
  - split; [discriminate|]. intros (pre & v & post & E & _).
    destruct pre; discriminate.
  - destruct (Z.leb_spec 0 u) as [Hu|Hu]; simpl.
    + destruct (Z.eqb_spec u c) as [->|Hne].
      * split; [discriminate|]. intros (pre & v & post & E & Hv & Hout).
        destruct pre as [|x pre]; inversion E; subst; [lia|].
        exfalso. apply Hout. left. reflexivity.
      * rewrite IH. split.
        -- intros (pre & v & post & -> & Hv & Hout).
           exists (u :: pre), v, post. split; [reflexivity|].
           split; [exact Hv|]. intros [E|Hin]; [contradiction|tauto].
        -- intros (pre & v & post & E & Hv & Hout).
           destruct pre as [|x pre]; inversion E; subst; [lia|].
           exists pre, v, post. split; [reflexivity|]. split; [exact Hv|].
           intros Hin. apply Hout. right. exact Hin.
    + split; [|reflexivity]. intros _. exists [], u, rest.
      split; [reflexivity|]. split; [exact Hu|]. intros [].
Qed.

Lemma In_Z_dec (c : Z) (l : list Z) : {In c l} + {~ In c l}.
Proof. apply in_dec, Z.eq_dec. Qed.

(** The three answers of the classifier, by what the column does. *)
Lemma customerAndDayInVar_cases var c d hit :
  customerAndDayInVar var c d = Some hit ->
  (hit = 2 <-> In c (customertour var) /\ vday var = d) /\
  (hit = 1 <-> (In c (customertour var) /\ vday var <> d)
               \/ (~ In c (customertour var) /\ vday var = d)) /\
  (hit = 0 <-> ~ In c (customertour var) /\ vday var <> d).
Proof.
  unfold customerAndDayInVar. intros H.
  destruct (In_Z_dec c (customertour var)) as [Hin|Hout].
  - rewrite (tourScan_visits _ _ _ _ _ H Hin).
    destruct (Z.eqb_spec (vday var) d); intuition (try lia; try congruence).
  - rewrite (tourScan_misses _ _ _ _ _ H Hout).
    destruct (Z.eqb_spec (vday var) d); intuition (try lia; try congruence).
Qed.

Lemma customerAndDayInVar_valid var c d :
  validTour var -> exists hit, customerAndDayInVar var c d = Some hit.
Proof. apply tourScan_valid. Qed.

Lemma hitByb_true consdata var : hitByb consdata var = true <-> hitBy consdata var.
Proof.
  unfold hitByb, hitBy, verdictHit.
  destruct (customerAndDayInVar var (customer consdata) (day consdata))
    as [s|].
  - destruct (type consdata); simpl;
      rewrite ?orb_false_r, ?Z.eqb_eq; intuition congruence.
  - intuition congruence.
Qed.

Lemma hitByb_false consdata var :
  hitByb consdata var = false <-> ~ hitBy consdata var.
Proof.
  rewrite <- hitByb_true. destruct (hitByb consdata var); intuition congruence.
Qed.

(** [checkVariable] as a case on the column: a column below 0.5 is passed
    over; on any other column the classifier runs, and its answer decides. *)
Lemma checkVariable_eq consdata var nfixedvars cutoff :
  checkVariable consdata var nfixedvars cutoff =
  if Qltb (ubLocal var) half then Some (var, nfixedvars, cutoff)
  else
    match customerAndDayInVar var (customer consdata) (day consdata) with
    | None => None
    | Some _ =>
        Some (if hitByb consdata var then
                if Qltb half (lbLocal var) then (var, nfixedvars, true)
                else (zeroFixed var, nfixedvars + 1, cutoff)
              else (var, nfixedvars, cutoff))
    end.
Proof.
  unfold checkVariable, hitByb, SCIPfixVar_zero, zeroFixed.
  destruct (Qltb (ubLocal var) half); [reflexivity|].
  destruct (customerAndDayInVar var (customer consdata) (day consdata))
    as [s|]; [|reflexivity].
  destruct (Z.eqb_spec s 0) as [->|_].
  - unfold verdictHit. simpl. rewrite !andb_false_r. reflexivity.
  - destruct (verdictHit _ _); [|reflexivity].
    destruct (Qltb half (lbLocal var)) eqn:E; [|reflexivity].
    simpl. rewrite E. reflexivity.
Qed.

End Classifier.

(** C1, as stated, fails: a column that runs on the record's day without
    visiting its customer is answered 1 by [customerAndDayInVar], not 0. *)
Lemma C1_counterexample :
  ~ In 3 (ConsVA.customertour Sample.dayOnlyVar)
  /\ ConsVA.customerAndDayInVar Sample.dayOnlyVar 3 2 = Some 1
  /\ ConsVA.customerAndDayInVar Sample.dayOnlyVar 3 2
     <> Some (claimedHit Sample.dayOnlyVar 3 2).
Proof.
  simpl. repeat split.
  - intros [H|[]]. discriminate.
  - discriminate.
Qed.

(** C1 (amended).  For a record [(customer, day)] and a column, the
    classifier asserts that every tour entry it reads is non-negative: it
    aborts exactly when a negative entry precedes the first occurrence of
    the customer, and returns an answer for every tour of non-negative
    entries.  Its answer is 2 when the column visits the customer and runs
    on the day, 1 when exactly one of the two holds (it visits the customer
    on another day, or runs on the day without the customer), and 0 when
    neither holds.  [checkVariable] tries to fix exactly the columns with
    upper bound at least 0.5 that a prohibiting record answers 2 or an
    enforcing record answers 1: such a column gets upper bound zero and is
    counted, unless its lower bound exceeds 0.5, in which case it is left
    alone and the cutoff flag is raised.  Every other column (answer 0, the
    other non-zero answer, or upper bound below 0.5) is left untouched,
    together with the counter and the flag; a column with upper bound below
    0.5 is not classified at all, and on a column with upper bound at least
    0.5 an abort of the classifier aborts [checkVariable]. *)
Theorem C1_checkVariable_spec
    (consdata : ConsVA.SCIP_CONSDATA) (var : ConsVA.SCIP_VAR)
    (nfixedvars : Z) (cutoff : bool) :
  let status := ConsVA.customerAndDayInVar var
                  (ConsVA.customer consdata) (ConsVA.day consdata) in
  let visits := In (ConsVA.customer consdata) (ConsVA.customertour var) in
  let onDay := ConsVA.vday var = ConsVA.day consdata in
  let tried := (half <= ConsVA.ubLocal var)%Q /\ hitBy consdata var in
  (validTour var -> exists hit, status = Some hit) /\
  (status = None <->
     exists pre u post,
       ConsVA.customertour var = pre ++ u :: post /\ u < 0
       /\ ~ In (ConsVA.customer consdata) pre) /\
  (forall hit, status = Some hit ->
     (hit = 2 <-> visits /\ onDay) /\
     (hit = 1 <-> (visits /\ ~ onDay) \/ (~ visits /\ onDay)) /\
     (hit = 0 <-> ~ visits /\ ~ onDay)) /\
  (tried -> (ConsVA.lbLocal var <= half)%Q ->
     ConsVA.checkVariable consdata var nfixedvars cutoff
     = Some (zeroFixed var, nfixedvars + 1, cutoff)) /\
  (tried -> (half < ConsVA.lbLocal var)%Q ->
     ConsVA.checkVariable consdata var nfixedvars cutoff
     = Some (var, nfixedvars, true)) /\
  (~ tried -> (ConsVA.ubLocal var < half)%Q \/ status <> None ->
     ConsVA.checkVariable consdata var nfixedvars cutoff
     = Some (var, nfixedvars, cutoff)) /\
  ((half <= ConsVA.ubLocal var)%Q -> status = None ->
     ConsVA.checkVariable consdata var nfixedvars cutoff = None).
Proof.
  intros status visits onDay tried.
  split; [apply customerAndDayInVar_valid|].
  split; [apply tourScan_None|].
  split; [intros hit Hs; exact (customerAndDayInVar_cases _ _ _ _ Hs)|].
  rewrite checkVariable_eq. fold status.
  assert (Hhit : hitBy consdata var -> exists hit, status = Some hit).
  { intros [[_ H]|[_ H]]; eauto. }
  repeat split.
  - intros [Hub Hh] Hlb. destruct (Hhit Hh) as [hit Es].
    apply Qltb_false in Hub. apply Qltb_false in Hlb.
    apply hitByb_true in Hh. rewrite Hub, Es, Hh, Hlb. reflexivity.
  - intros [Hub Hh] Hlb. destruct (Hhit Hh) as [hit Es].
    apply Qltb_false in Hub. apply Qltb_true in Hlb.
    apply hitByb_true in Hh. rewrite Hub, Es, Hh, Hlb. reflexivity.
  - intros Hn Hs.
    destruct (Qltb (ConsVA.ubLocal var) half) eqn:Hub; [reflexivity|].
    destruct status as [hit|] eqn:Es.
    + destruct (hitByb consdata var) eqn:Hh; [|reflexivity].
      exfalso. apply Hn. split.
      * apply Qltb_false. exact Hub.
      * apply hitByb_true. exact Hh.
    + destruct Hs as [Hs|Hs]; [|congruence].
      apply Qltb_true in Hs. congruence.
  - intros Hub Es. apply Qltb_false in Hub. rewrite Hub, Es. reflexivity.
Qed.

(** Scenario 3 of the specification as an instance: a column visiting
    customer 3 on day 1 under the record ENFORCE(3, 2) is fixed to zero. *)
Lemma C1_checkVariable_witness :
  ConsVA.checkVariable Sample.enforce32 Sample.otherDayVar 0 false
  = Some (zeroFixed Sample.otherDayVar, 1, false).
Proof.
  refine (proj1 (proj2 (proj2 (proj2
            (C1_checkVariable_spec Sample.enforce32 Sample.otherDayVar
               0 false)))) _ _).
  - split.
    + unfold half. simpl. discriminate.
    + right. split; reflexivity.
  - unfold half. simpl. discriminate.
Defined.

(* ------------------------------------------------------------------ *)
(** ** Propagation of the customer/day records                         *)
(* ------------------------------------------------------------------ *)

Section Propagation.
Import ConsVA.

Lemma contradictsb_true consdata var :
  contradictsb consdata var = true <-> contradicts consdata var.
Proof.
  unfold contradictsb, contradicts, feasibleb.
  rewrite !andb_true_iff, negb_true_iff, Qltb_false, Qltb_true, hitByb_true.
  tauto.
Qed.

Lemma fixableb_true consdata var :
  fixableb consdata var = true <-> fixable consdata var.
Proof.
  unfold fixableb, fixable, feasibleb.
  rewrite !andb_true_iff, !negb_true_iff, !Qltb_false, hitByb_true.
  tauto.
Qed.

Lemma scansb_true consdata k : scansb consdata k = true <-> scans consdata k.
Proof.
  unfold scansb, scans.
  rewrite andb_true_iff, negb_true_iff, Nat.leb_le. tauto.
Qed.

Lemma fixable_not_contradicts consdata consdata' var :
  fixableb consdata var = true -> contradictsb consdata' var = false.
Proof.
  unfold fixableb, contradictsb. intros H.
  apply andb_true_iff in H as [_ H]. apply negb_true_iff in H.
  rewrite H. apply andb_false_r.
Qed.

Lemma zeroFixed_infeasible var : feasibleb (zeroFixed var) = false.
Proof. reflexivity. Qed.

Lemma fixableb_zeroFixed consdata var : fixableb consdata (zeroFixed var) = false.
Proof. reflexivity. Qed.

Lemma contradictsb_zeroFixed consdata var :
  contradictsb consdata (zeroFixed var) = false.
Proof. reflexivity. Qed.

Lemma checkVariable_cases consdata var nf :
  checkVariable consdata var nf false =
  if abortsb consdata var then None
  else Some (if contradictsb consdata var then (var, nf, true)
             else if fixableb consdata var then (zeroFixed var, nf + 1, false)
             else (var, nf, false)).
Proof.
  rewrite checkVariable_eq.
  unfold abortsb, contradictsb, fixableb, feasibleb, hitByb.
  destruct (Qltb (ubLocal var) half); simpl; [reflexivity|].
  destruct (customerAndDayInVar var (customer consdata) (day consdata));
    [|reflexivity].
  destruct (verdictHit _ _); simpl; [|reflexivity].
  destruct (Qltb half (lbLocal var)); reflexivity.
Qed.

(** A column of non-negative entries does not make the scan abort. *)
Lemma abortsb_valid consdata var : validTour var -> abortsb consdata var = false.
Proof.
  intros H. unfold abortsb.
  destruct (customerAndDayInVar_valid var (customer consdata) (day consdata) H)
    as [hit ->].
  apply andb_false_r.
Qed.

Lemma existsb_abortsb_valid consdata vars :
  Forall validTour vars -> existsb (abortsb consdata) vars = false.
Proof.
  induction 1 as [|var rest Hv _ IH]; simpl; [reflexivity|].
  rewrite (abortsb_valid _ _ Hv). exact IH.
Qed.

Lemma contradicts_not_aborts consdata var :
  contradictsb consdata var = true -> abortsb consdata var = false.
Proof.
  unfold contradictsb, abortsb, hitByb. intros H.
  apply andb_true_iff in H as [H _]. apply andb_true_iff in H as [_ H].
  destruct (customerAndDayInVar var (customer consdata) (day consdata));
    [apply andb_false_r|discriminate].
Qed.

Lemma scanVars_stopped consdata vars nf :
  scanVars consdata vars nf true = Some (vars, nf, true).
Proof. destruct vars; reflexivity. Qed.

(** A scan that meets no contradiction aborts at the first column on which
    the classifier aborts, and otherwise fixes what the record can fix. *)
Lemma scanVars_nocut_eq consdata vars : forall nf,
  existsb (contradictsb consdata) vars = false ->
  scanVars consdata vars nf false
  = if existsb (abortsb consdata) vars then None
    else Some (map (fixOne consdata) vars,
               nf + Z.of_nat (length (filter (fixableb consdata) vars)),
               false).
Proof.
  induction vars as [|var rest IH]; intros nf H; simpl.
  - rewrite Z.add_0_r. reflexivity.
  - simpl in H. apply orb_false_iff in H as [Hc Hrest].
    rewrite checkVariable_cases, Hc.
    destruct (abortsb consdata var); simpl; [reflexivity|]. unfold fixOne.
    destruct (fixableb consdata var); rewrite (IH _ Hrest);
      destruct (existsb (abortsb consdata) rest); simpl length;
      try reflexivity.
    do 3 f_equal. lia.
Qed.

Lemma scanVars_nocut consdata vars nf out :
  scanVars consdata vars nf false = Some out ->
  existsb (contradictsb consdata) vars = false ->
  out = (map (fixOne consdata) vars,
         nf + Z.of_nat (length (filter (fixableb consdata) vars)), false).
Proof.
  intros E H. rewrite (scanVars_nocut_eq _ _ _ H) in E.
  destruct (existsb (abortsb consdata) vars); [discriminate|].
  inversion E. reflexivity.
Qed.

Lemma scanVars_cut consdata vars : forall nf out,
  scanVars consdata vars nf false = Some out ->
  existsb (contradictsb consdata) vars = true ->
  exists vars' nf',
    out = (vars', nf', true)
    /\ length vars' = length vars
    /\ forall k var, nth_error vars k = Some var ->
         nth_error vars' k = Some var
         \/ (fixableb consdata var = true
             /\ nth_error vars' k = Some (zeroFixed var)).
Proof.
  induction vars as [|var rest IH]; intros nf out E H; simpl in H;
    [discriminate|].
  simpl in E. rewrite checkVariable_cases in E.
  destruct (abortsb consdata var); [discriminate|].
  destruct (contradictsb consdata var) eqn:Hc.
  - rewrite scanVars_stopped in E. inversion E; subst.
    exists (var :: rest), nf.
    repeat split. intros k v Hk. left. exact Hk.
  - simpl in H. destruct (fixableb consdata var) eqn:Hf.
    + destruct (scanVars consdata rest (nf + 1) false) as [[[r' n'] c']|]
        eqn:Er; [|discriminate].
      destruct (IH _ _ Er H) as (vars' & nf' & E' & L & P).
      inversion E'; subst. inversion E; subst.
      exists (zeroFixed var :: vars'), nf'.
      split; [reflexivity|]. split; [simpl; congruence|].
      intros [|k] v Hk; simpl in *.
      * inversion Hk; subst. right. split; [exact Hf|reflexivity].
      * apply P, Hk.
    + destruct (scanVars consdata rest nf false) as [[[r' n'] c']|]
        eqn:Er; [|discriminate].
      destruct (IH _ _ Er H) as (vars' & nf' & E' & L & P).
      inversion E'; subst. inversion E; subst.
      exists (var :: vars'), nf'.
      split; [reflexivity|]. split; [simpl; congruence|].
      intros [|k] v Hk; simpl in *.
      * left. exact Hk.
      * apply P, Hk.
Qed.

Lemma filter_length_pos {A} (f : A -> bool) (l : list A) :
  (0 <? Z.of_nat (length (filter f l))) = existsb f l.
Proof.
  induction l as [|a l IH]; simpl; [reflexivity|].
  destruct (f a); simpl; [|exact IH].
  apply Z.ltb_lt. lia.
Qed.

Lemma consdataFixVariables_nocut_eq consdata vars r0 :
  existsb (contradictsb consdata) (skipn (scanStart consdata) vars) = false ->
  consdataFixVariables consdata vars r0
  = if existsb (abortsb consdata) (skipn (scanStart consdata) vars)
    then None
    else Some (fixFrom consdata vars,
               if existsb (fixableb consdata)
                    (skipn (scanStart consdata) vars)
               then SCIP_REDUCEDDOM else r0).
Proof.
  intros H. unfold consdataFixVariables, fixFrom. fold (scanStart consdata).
  rewrite (scanVars_nocut_eq _ _ 0 H).
  destruct (existsb (abortsb consdata) _); [reflexivity|]. simpl Z.add.
  rewrite filter_length_pos. reflexivity.
Qed.

Lemma consdataFixVariables_nocut consdata vars r0 out :
  consdataFixVariables consdata vars r0 = Some out ->
  existsb (contradictsb consdata) (skipn (scanStart consdata) vars) = false ->
  out = (fixFrom consdata vars,
         if existsb (fixableb consdata) (skipn (scanStart consdata) vars)
         then SCIP_REDUCEDDOM else r0).
Proof.
  intros E H. rewrite (consdataFixVariables_nocut_eq _ _ _ H) in E.
  destruct (existsb (abortsb consdata) _); [discriminate|].
  inversion E. reflexivity.
Qed.

Lemma consdataFixVariables_cut consdata vars r0 out :
  consdataFixVariables consdata vars r0 = Some out ->
  existsb (contradictsb consdata) (skipn (scanStart consdata) vars) = true ->
  exists vars',
    out = (vars', SCIP_CUTOFF)
    /\ length vars' = length vars
    /\ forall k var, nth_error vars k = Some var ->
         nth_error vars' k = Some var
         \/ (scanStart consdata <= k)%nat
            /\ fixableb consdata var = true
            /\ nth_error vars' k = Some (zeroFixed var).
Proof.
  intros E0 H. unfold consdataFixVariables in E0.
  fold (scanStart consdata) in E0.
  destruct (scanVars consdata (skipn (scanStart consdata) vars) 0 false)
    as [scan|] eqn:Es; [|discriminate].
  destruct (scanVars_cut _ _ _ _ Es H) as (vars' & nf' & E & L & P).
  subst scan. inversion E0; subst out. clear E0.
  eexists. split; [reflexivity|]. split.
  - rewrite length_app, L, <- length_app, firstn_skipn. reflexivity.
  - intros k var Hk.
    destruct (Nat.ltb_spec k (scanStart consdata)) as [Hlt|Hge].
    + left. rewrite nth_error_app1.
      * rewrite nth_error_firstn.
        destruct (Nat.ltb_spec k (scanStart consdata)); [exact Hk|lia].
      * rewrite length_firstn.
        assert (k < length vars)%nat
          by (apply nth_error_Some; congruence). lia.
    + assert (Hlen : length (firstn (scanStart consdata) vars)
                     = scanStart consdata).
      { rewrite length_firstn.
        assert (k < length vars)%nat
          by (apply nth_error_Some; congruence). lia. }
      rewrite nth_error_app2; rewrite Hlen; [|exact Hge].
      specialize (P (k - scanStart consdata)%nat var).
      rewrite nth_error_skipn in P.
      replace (scanStart consdata + (k - scanStart consdata))%nat with k
        in P by lia.
      destruct (P Hk) as [Q|[Q1 Q2]]; [left; exact Q|right; auto].
Qed.

Lemma existsb_skipn_iff {A} (f : A -> bool) n (l : list A) :
  existsb f (skipn n l) = true
  <-> exists k a, (n <= k)%nat /\ nth_error l k = Some a /\ f a = true.
Proof.
  rewrite existsb_exists. split.
  - intros (a & Hin & Hf). apply In_nth_error in Hin as [i Hi].
    rewrite nth_error_skipn in Hi. exists (n + i)%nat, a.
    repeat split; [lia|exact Hi|exact Hf].
  - intros (k & a & Hk & Hn & Hf). exists a. split; [|exact Hf].
    apply (nth_error_In _ (k - n)). rewrite nth_error_skipn.
    replace (n + (k - n))%nat with k by lia. exact Hn.
Qed.

Lemma length_fixFrom consdata vars :
  length (fixFrom consdata vars) = length vars.
Proof.
  unfold fixFrom. rewrite length_app, length_map, <- length_app, firstn_skipn.
  reflexivity.
Qed.

Lemma nth_error_fixFrom consdata vars k :
  nth_error (fixFrom consdata vars) k
  = option_map (fixAt consdata k) (nth_error vars k).
Proof.
  unfold fixFrom, fixAt. rewrite nth_error_app, length_firstn.
  destruct (Nat.leb_spec (scanStart consdata) k) as [Hge|Hlt].
  - destruct (Nat.ltb_spec k (Nat.min (scanStart consdata) (length vars)))
      as [H|H].
    + (* the list is shorter than the start index *)
      assert (Hk : (length vars <= k)%nat) by lia.
      rewrite nth_error_firstn.
      destruct (Nat.ltb_spec k (scanStart consdata)); [lia|].
      apply nth_error_None in Hk. rewrite Hk. reflexivity.
    + rewrite nth_error_map, nth_error_skipn.
      destruct (Nat.le_gt_cases (scanStart consdata) (length vars)) as [L|L].
      * rewrite Nat.min_l by exact L.
        replace (scanStart consdata + (k - scanStart consdata))%nat
          with k by lia.
        reflexivity.
      * assert (Hk : (length vars <= k)%nat) by lia.
        apply nth_error_None in Hk. rewrite Hk.
        assert (Hk' : (length vars
                       <= scanStart consdata
                          + (k - Nat.min (scanStart consdata) (length vars)))%nat)
          by lia.
        apply nth_error_None in Hk'. rewrite Hk'. reflexivity.
  - destruct (Nat.ltb_spec k (Nat.min (scanStart consdata) (length vars)))
      as [H|H].
    + rewrite nth_error_firstn.
      destruct (Nat.ltb_spec k (scanStart consdata)); [|lia].
      destruct (nth_error vars k); reflexivity.
    + assert (Hk : (length vars <= k)%nat) by lia.
      rewrite nth_error_map, nth_error_skipn.
      apply nth_error_None in Hk. rewrite Hk.
      assert (Hk' : (length vars
                     <= scanStart consdata
                        + (k - Nat.min (scanStart consdata) (length vars)))%nat)
        by lia.
      apply nth_error_None in Hk'. rewrite Hk'. reflexivity.
Qed.

Lemma fixedBySomeb_true conss k var :
  fixedBySomeb conss k var = true <-> fixedBySome conss k var.
Proof.
  unfold fixedBySomeb, fixedBySome. rewrite existsb_exists.
  split; intros (c & Hin & H); exists c; (split; [exact Hin|]).
  - apply andb_true_iff in H as [H1 H2].
    apply scansb_true in H1. apply fixableb_true in H2. tauto.
  - apply andb_true_iff. rewrite scansb_true, fixableb_true. exact H.
Qed.

(** The record scans a column that contradicts it. *)
Lemma cutoff_scan_iff consdata vars :
  propagated consdata = false ->
  existsb (contradictsb consdata) (skipn (scanStart consdata) vars) = true
  <-> cutBySome [consdata] vars.
Proof.
  intros Hp. rewrite existsb_skipn_iff. unfold cutBySome, scans. split.
  - intros (k & var & Hk & Hn & Hc). exists consdata, k, var.
    apply contradictsb_true in Hc. simpl. auto.
  - intros (c & k & var & [<-|[]] & [_ Hk] & Hn & Hc). exists k, var.
    apply contradictsb_true in Hc. auto.
Qed.

Lemma cutBySome_cons consdata later vars :
  cutBySome (consdata :: later) vars
  <-> cutBySome [consdata] vars \/ cutBySome later vars.
Proof.
  unfold cutBySome. split.
  - intros (c & k & var & [<-|Hin] & H).
    + left. exists consdata, k, var. simpl. tauto.
    + right. exists c, k, var. tauto.
  - intros [(c & k & var & [<-|[]] & H)|(c & k & var & Hin & H)].
    + exists consdata, k, var. simpl. tauto.
    + exists c, k, var. simpl. tauto.
Qed.

Lemma cutBySome_propagated consdata vars :
  propagated consdata = true -> ~ cutBySome [consdata] vars.
Proof.
  intros Hp (c & k & var & [<-|[]] & [Hs _] & _). congruence.
Qed.

Lemma reducedBySome_cons consdata later vars :
  reducedBySome (consdata :: later) vars
  <-> reducedBySome [consdata] vars \/ reducedBySome later vars.
Proof.
  unfold reducedBySome, fixedBySome. split.
  - intros (k & var & Hn & c & [<-|Hin] & H).
    + left. exists k, var. split; [exact Hn|]. exists consdata. simpl. tauto.
    + right. exists k, var. split; [exact Hn|]. exists c. tauto.
  - intros [(k & var & Hn & c & [<-|[]] & H)|(k & var & Hn & c & Hin & H)].
    + exists k, var. split; [exact Hn|]. exists consdata. simpl. tauto.
    + exists k, var. split; [exact Hn|]. exists c. simpl. tauto.
Qed.

Lemma reducedBySome_propagated consdata vars :
  propagated consdata = true -> ~ reducedBySome [consdata] vars.
Proof.
  intros Hp (k & var & _ & c & [<-|[]] & [Hs _] & _). congruence.
Qed.

Lemma reduced_scan_iff consdata vars :
  propagated consdata = false ->
  existsb (fixableb consdata) (skipn (scanStart consdata) vars) = true
  <-> reducedBySome [consdata] vars.
Proof.
  intros Hp. rewrite existsb_skipn_iff.
  unfold reducedBySome, fixedBySome, scans. split.
  - intros (k & var & Hk & Hn & Hc). exists k, var. split; [exact Hn|].
    exists consdata. apply fixableb_true in Hc. simpl. auto.
  - intros (k & var & Hn & c & [<-|[]] & [_ Hk] & Hc). exists k, var.
    apply fixableb_true in Hc. auto.
Qed.

(** What a scan without contradiction leaves of a column, as the later
    records see it. *)
Lemma fixAt_cases consdata k var :
  propagated consdata = false ->
  (scansb consdata k && fixableb consdata var = true
   /\ fixAt consdata k var = zeroFixed var)
  \/ (scansb consdata k && fixableb consdata var = false
      /\ fixAt consdata k var = var).
Proof.
  intros Hp. unfold fixAt, scansb, fixOne. rewrite Hp. simpl.
  destruct (scanStart consdata <=? k)%nat; simpl; [|right; auto].
  destruct (fixableb consdata var); [left|right]; auto.
Qed.

Lemma contradictsb_fixAt consdata consdata2 k var :
  contradictsb consdata2 (fixAt consdata k var) = contradictsb consdata2 var.
Proof.
  unfold fixAt, fixOne.
  destruct (scanStart consdata <=? k)%nat; [|reflexivity].
  destruct (fixableb consdata var) eqn:Hf; [|reflexivity].
  rewrite contradictsb_zeroFixed.
  symmetry. exact (fixable_not_contradicts _ _ _ Hf).
Qed.

Lemma cutBySome_fixFrom consdata later vars :
  cutBySome later (fixFrom consdata vars) <-> cutBySome later vars.
Proof.
  unfold cutBySome. split.
  - intros (c & k & var & Hin & Hs & Hn & Hc).
    rewrite nth_error_fixFrom in Hn.
    destruct (nth_error vars k) as [var0|] eqn:E; [|discriminate].
    simpl in Hn. inversion Hn; subst var.
    exists c, k, var0.
    split; [exact Hin|]. split; [exact Hs|]. split; [exact E|].
    apply contradictsb_true. apply contradictsb_true in Hc.
    rewrite contradictsb_fixAt in Hc. exact Hc.
  - intros (c & k & var & Hin & Hs & Hn & Hc).
    exists c, k, (fixAt consdata k var).
    split; [exact Hin|]. split; [exact Hs|]. split.
    + rewrite nth_error_fixFrom, Hn. reflexivity.
    + apply contradictsb_true. rewrite contradictsb_fixAt.
      apply contradictsb_true. exact Hc.
Qed.

Lemma fixedBySomeb_zeroFixed conss k var :
  fixedBySomeb conss k (zeroFixed var) = false.
Proof.
  unfold fixedBySomeb. induction conss as [|c rest IH]; simpl; [reflexivity|].
  rewrite IH, fixableb_zeroFixed, andb_false_r. reflexivity.
Qed.

Lemma fixAll_fixAt consdata later k var :
  propagated consdata = false ->
  fixAll later k (fixAt consdata k var) = fixAll (consdata :: later) k var.
Proof.
  intros Hp. unfold fixAll at 2. simpl.
  destruct (fixAt_cases consdata k var Hp) as [[H E]|[H E]];
    rewrite E, H; simpl; unfold fixAll.
  - rewrite fixedBySomeb_zeroFixed. reflexivity.
  - reflexivity.
Qed.

Lemma fixedBySome_fixAt consdata later k var :
  propagated consdata = false ->
  fixedBySome later k (fixAt consdata k var) ->
  fixedBySome later k var /\ fixAt consdata k var = var.
Proof.
  intros Hp H.
  destruct (fixAt_cases consdata k var Hp) as [[_ E]|[_ E]]; rewrite E in *.
  - apply fixedBySomeb_true in H. rewrite fixedBySomeb_zeroFixed in H.
    discriminate.
  - auto.
Qed.

Lemma reducedBySome_fixFrom consdata later vars :
  propagated consdata = false ->
  reducedBySome [consdata] vars \/ reducedBySome later (fixFrom consdata vars)
  <-> reducedBySome [consdata] vars \/ reducedBySome later vars.
Proof.
  intros Hp. split.
  - intros [H|(k & var & Hn & Hf)]; [left; exact H|].
    rewrite nth_error_fixFrom in Hn.
    destruct (nth_error vars k) as [var0|] eqn:E; [|discriminate].
    simpl in Hn. inversion Hn; subst var.
    apply (fixedBySome_fixAt _ _ _ _ Hp) in Hf as [Hf _].
    right. exists k, var0. split; [exact E|exact Hf].
  - intros [H|(k & var & Hn & Hf)]; [left; exact H|].
    destruct (fixAt_cases consdata k var Hp) as [[H E]|[H E]].
    + left. exists k, var. split; [exact Hn|]. exists consdata.
      apply andb_true_iff in H as [H1 H2].
      apply scansb_true in H1. apply fixableb_true in H2. simpl. auto.
    + right. exists k, var. split; [|exact Hf].
      rewrite nth_error_fixFrom, Hn. simpl. rewrite E. reflexivity.
Qed.

Lemma cutBySome_nil vars : ~ cutBySome [] vars.
Proof. intros (c & k & var & [] & _). Qed.

Lemma reducedBySome_nil vars : ~ reducedBySome [] vars.
Proof. intros (k & var & _ & c & [] & _). Qed.

Lemma fixedBySome_cons consdata later k var :
  fixedBySome later k var -> fixedBySome (consdata :: later) k var.
Proof. intros (c & Hin & H). exists c. simpl. auto. Qed.

Lemma fixAll_propagated consdata later k var :
  propagated consdata = true ->
  fixAll (consdata :: later) k var = fixAll later k var.
Proof.
  intros Hp. unfold fixAll, fixedBySomeb, scansb. simpl. rewrite Hp.
  reflexivity.
Qed.

Lemma option_map_id_ext {A} (f : A -> A) (x : option A) :
  (forall a, f a = a) -> option_map f x = x.
Proof. intros H. destruct x; simpl; [rewrite H|]; reflexivity. Qed.

(** The whole loop over the records, started with a result that is not a
    cutoff. *)
Lemma propLoop_spec conss : forall vars r0 conss' vars' r,
  propLoop conss vars r0 = Some (conss', vars', r) ->
  is_cutoff r0 = false ->
  length vars' = length vars /\
  (is_cutoff r = true <-> cutBySome conss vars) /\
  (is_cutoff r = false ->
     conss' = map (advanced (length vars)) conss /\
     (forall k, nth_error vars' k
                = option_map (fixAll conss k) (nth_error vars k)) /\
     (r = SCIP_REDUCEDDOM
      <-> r0 = SCIP_REDUCEDDOM \/ reducedBySome conss vars) /\
     (r = r0 \/ r = SCIP_REDUCEDDOM)) /\
  (is_cutoff r = true ->
     exists done consdata later,
       conss = done ++ consdata :: later /\
       propagated consdata = false /\
       conss' = map (advanced (length vars)) done
                ++ bumpPropagations consdata :: later /\
       ~ cutBySome done vars /\
       cutBySome [consdata] vars /\
       forall k var, nth_error vars k = Some var ->
         nth_error vars' k = Some var
         \/ (fixedBySome (done ++ [consdata]) k var
             /\ nth_error vars' k = Some (zeroFixed var))).
Proof.
  induction conss as [|consdata later IH]; intros vars r0 conss' vars' r E Hr0.
  - simpl in E. inversion E; subst. split; [reflexivity|].
    split; [|split].
    + rewrite Hr0. split; [discriminate|]. intros H.
      destruct (cutBySome_nil _ H).
    + intros _. split; [reflexivity|]. split; [|split].
      * intros k. symmetry. apply option_map_id_ext. reflexivity.
      * split; [auto|]. intros [H|H]; [exact H|].
        destruct (reducedBySome_nil _ H).
      * left. reflexivity.
    + congruence.
  - simpl in E.
    destruct (assertCheck vars consdata true); [|discriminate].
    destruct (assert (noEqualConsdata consdata later)); [|discriminate].
    destruct (propagated consdata) eqn:Hp; simpl in E.
    + (* the record is already propagated *)
      destruct (assertCheck vars consdata false); [|discriminate].
      destruct (propLoop later vars r0) as [[[later' vars2] r2]|] eqn:EL;
        [|discriminate].
      inversion E; subst. clear E.
      destruct (IH _ _ _ _ _ EL Hr0) as (HL & HC & HN & HX).
      split; [exact HL|]. split; [|split].
      * rewrite HC, cutBySome_cons. split; [auto|].
        intros [H|H]; [|exact H].
        destruct (cutBySome_propagated _ _ Hp H).
      * intros Hr. destruct (HN Hr) as (N1 & N2 & N3 & N4).
        split; [|split; [|split]].
        -- simpl. unfold advanced at 1. rewrite Hp, N1. reflexivity.
        -- intros k. rewrite N2. destruct (nth_error vars k); simpl;
             [rewrite (fixAll_propagated _ _ _ _ Hp)|]; reflexivity.
        -- rewrite N3, (reducedBySome_cons consdata later). split; [tauto|].
           intros [H|[H|H]]; [auto| |auto].
           destruct (reducedBySome_propagated _ _ Hp H).
        -- exact N4.
      * intros Hr.
        destruct (HX Hr) as (done & c & rest & X1 & X2 & X3 & X4 & X5 & X6).
        exists (consdata :: done), c, rest.
        split; [simpl; congruence|]. split; [exact X2|]. split.
        { simpl. unfold advanced at 1. rewrite Hp, X3. reflexivity. }
        split.
        { rewrite cutBySome_cons. intros [H|H]; [|auto].
          destruct (cutBySome_propagated _ _ Hp H). }
        split; [exact X5|].
        intros k var Hk. destruct (X6 k var Hk) as [H|[H1 H2]]; [auto|].
        right. split; [|exact H2]. simpl. apply fixedBySome_cons, H1.
    + (* the record is propagated now *)
      destruct (consdataFixVariables consdata vars r0) as [fixing|] eqn:Efix;
        [|discriminate].
      destruct (existsb (contradictsb consdata)
                  (skipn (scanStart consdata) vars)) eqn:Hcut.
      * (* a contradiction: the loop is left *)
        destruct (consdataFixVariables_cut _ _ r0 _ Efix Hcut)
          as (vars1 & EF & L1 & P1).
        rewrite EF in E. simpl in E. inversion E; subst. clear E.
        apply (cutoff_scan_iff _ _ Hp) in Hcut.
        split; [exact L1|]. split; [|split].
        -- split; [|reflexivity]. intros _. apply cutBySome_cons. auto.
        -- discriminate.
        -- intros _. exists [], consdata, later.
           split; [reflexivity|]. split; [exact Hp|].
           split; [reflexivity|]. split; [apply cutBySome_nil|].
           split; [exact Hcut|].
           intros k var Hk. destruct (P1 k var Hk) as [H|(H1 & H2 & H3)];
             [auto|].
           right. split; [|exact H3]. exists consdata.
           apply fixableb_true in H2. unfold scans. simpl. auto.
      * (* no contradiction: the record is advanced *)
        rewrite (consdataFixVariables_nocut _ _ r0 _ Efix Hcut) in E.
        set (r1 := if existsb (fixableb consdata)
                        (skipn (scanStart consdata) vars)
                   then SCIP_REDUCEDDOM else r0) in *.
        assert (Hr1 : is_cutoff r1 = false).
        { unfold r1. destruct (existsb _ _); [reflexivity|exact Hr0]. }
        rewrite Hr1 in E. simpl in E.
        destruct (assertCheck _ _ false); [|discriminate].
        destruct (propLoop later (fixFrom consdata vars) r1)
          as [[[later' vars2] r2]|] eqn:EL; [|discriminate].
        inversion E; subst. clear E.
        destruct (IH _ _ _ _ _ EL Hr1) as (HL & HC & HN & HX).
        rewrite length_fixFrom in *.
        assert (Hnc : ~ cutBySome [consdata] vars).
        { intros H. apply (cutoff_scan_iff _ _ Hp) in H. congruence. }
        assert (Hred : r1 = SCIP_REDUCEDDOM
                       <-> r0 = SCIP_REDUCEDDOM
                           \/ reducedBySome [consdata] vars).
        { rewrite <- (reduced_scan_iff _ _ Hp). unfold r1.
          destruct (existsb _ _); split; auto.
          intros [H|H]; [exact H|discriminate]. }
        split; [exact HL|]. split; [|split].
        -- rewrite HC, cutBySome_fixFrom, (cutBySome_cons consdata later). tauto.
        -- intros Hr. destruct (HN Hr) as (N1 & N2 & N3 & N4).
           split; [|split; [|split]].
           ++ simpl. unfold advanced at 1. rewrite Hp, N1. reflexivity.
           ++ intros k. rewrite N2, nth_error_fixFrom.
              destruct (nth_error vars k); simpl;
                [rewrite (fixAll_fixAt _ _ _ _ Hp)|]; reflexivity.
           ++ rewrite N3, Hred, (reducedBySome_cons consdata later).
              pose proof (reducedBySome_fixFrom consdata later vars Hp).
              tauto.
           ++ destruct N4 as [N4|N4]; [|auto].
              unfold r1 in N4. destruct (existsb _ _); auto.
        -- intros Hr.
           destruct (HX Hr) as (done & c & rest & X1 & X2 & X3 & X4 & X5 & X6).
           exists (consdata :: done), c, rest.
           split; [simpl; congruence|]. split; [exact X2|]. split.
           { simpl. unfold advanced at 1. rewrite Hp, X3. reflexivity. }
           split.
           { rewrite (cutBySome_cons consdata done),
               <- (cutBySome_fixFrom consdata done).
             tauto. }
           split; [apply (cutBySome_fixFrom consdata), X5|].
           intros k var Hk.
           specialize (X6 k (fixAt consdata k var)).
           rewrite nth_error_fixFrom, Hk in X6. specialize (X6 eq_refl).
           destruct (fixAt_cases consdata k var Hp) as [[H Ef]|[H Ef]];
             rewrite Ef in X6.
           ++ right. split.
              ** exists consdata. apply andb_true_iff in H as [H1 H2].
                 apply scansb_true in H1. apply fixableb_true in H2.
                 simpl. auto.
              ** destruct X6 as [X6|[_ X6]]; exact X6.
           ++ destruct X6 as [X6|[X6 X7]]; [auto|].
              right. split; [|exact X7]. simpl. apply fixedBySome_cons, X6.
Qed.

End Propagation.

(** C2, as stated, fails: the loop over the records is left at the first
    cutoff.  Here the first record meets a column that is already forced to
    one; the second record, not yet propagated either, is not processed: it
    stays unpropagated at index 0 and the column it could fix keeps its
    upper bound. *)
Lemma C2_counterexample :
  ConsVA.consPropVehicleAss
    [Sample.enforce32; Sample.prohibit52]
    [Sample.forcedVar; ConsVA.mkVar [5] 2 0%Q 1%Q]
  = Some ([ConsVA.bumpPropagations Sample.enforce32; Sample.prohibit52],
          [Sample.forcedVar; ConsVA.mkVar [5] 2 0%Q 1%Q],
          ConsVA.SCIP_CUTOFF)
  /\ ConsVA.propagated Sample.prohibit52 = false
  /\ scans Sample.prohibit52 1
  /\ fixable Sample.prohibit52 (ConsVA.mkVar [5] 2 0%Q 1%Q).
Proof.
  split; [reflexivity|]. split; [reflexivity|]. split.
  - split; [reflexivity|]. unfold scanStart. simpl. lia.
  - apply fixableb_true. reflexivity.
Qed.

(** C2 (amended).  A run of the propagation callback that passes its
    assertions keeps the number of columns and
    - reports CUTOFF exactly when some not-yet-propagated record has, at or
      after its last-checked index, a feasible column it hits whose lower
      bound already forces it to one;
    - otherwise advances every not-yet-propagated record (one more run,
      marked propagated, last-checked index at the column count) and leaves
      the propagated ones as they were; fixes to zero exactly the columns
      that some such record scans and can fix, all other columns being
      untouched; and reports REDUCED_DOMAIN when at least one column was
      fixed, else leaves the result at its initial value;
    - on CUTOFF, has processed the records in order up to the first one with
      such a contradiction: the records before it are advanced, that record
      has one more run but is neither advanced nor marked, the records
      after it are untouched, and a column differs from before only by
      having been fixed by one of the records processed. *)
Theorem C2_propagation_spec
    (conss conss' : list ConsVA.SCIP_CONSDATA)
    (vars vars' : list ConsVA.SCIP_VAR) (result : ConsVA.SCIP_RESULT) :
  ConsVA.consPropVehicleAss conss vars = Some (conss', vars', result) ->
  length vars' = length vars /\
  (result = ConsVA.SCIP_CUTOFF <-> cutBySome conss vars) /\
  (result <> ConsVA.SCIP_CUTOFF ->
     conss' = map (advanced (length vars)) conss /\
     (forall k var, nth_error vars k = Some var ->
        (fixedBySome conss k var ->
           nth_error vars' k = Some (zeroFixed var)) /\
        (~ fixedBySome conss k var -> nth_error vars' k = Some var)) /\
     (result = ConsVA.SCIP_REDUCEDDOM <-> reducedBySome conss vars) /\
     (result = ConsVA.SCIP_DIDNOTFIND <-> ~ reducedBySome conss vars)) /\
  (result = ConsVA.SCIP_CUTOFF ->
     exists done consdata later,
       conss = done ++ consdata :: later /\
       ConsVA.propagated consdata = false /\
       conss' = map (advanced (length vars)) done
                ++ ConsVA.bumpPropagations consdata :: later /\
       ~ cutBySome done vars /\
       cutBySome [consdata] vars /\
       forall k var, nth_error vars k = Some var ->
         nth_error vars' k = Some var
         \/ (fixedBySome (done ++ [consdata]) k var
             /\ nth_error vars' k = Some (zeroFixed var))).
Proof.
  intros E. unfold ConsVA.consPropVehicleAss in E.
  destruct (propLoop_spec _ _ _ _ _ _ E eq_refl) as (HL & HC & HN & HX).
  assert (Hcut : result = ConsVA.SCIP_CUTOFF
                 <-> ConsVA.is_cutoff result = true).
  { destruct result; simpl; split; congruence. }
  split; [exact HL|]. split; [rewrite Hcut; exact HC|]. split.
  - intros Hr.
    assert (Hr' : ConsVA.is_cutoff result = false).
    { destruct result; simpl; congruence. }
    destruct (HN Hr') as (N1 & N2 & N3 & N4).
    split; [exact N1|]. split; [|split].
    + intros k var Hk. rewrite N2, Hk. simpl. unfold fixAll.
      split; intros H.
      * apply fixedBySomeb_true in H. rewrite H. reflexivity.
      * destruct (fixedBySomeb conss k var) eqn:Hb; [|reflexivity].
        apply fixedBySomeb_true in Hb. tauto.
    + rewrite N3. split; [|auto]. intros [H|H]; [discriminate|exact H].
    + split.
      * intros -> H. apply (or_intror (A := ConsVA.SCIP_DIDNOTFIND
                                            = ConsVA.SCIP_REDUCEDDOM)) in H.
        apply N3 in H. discriminate.
      * intros H. destruct N4 as [N4|N4]; [exact N4|].
        apply N3 in N4 as [N4|N4]; [discriminate|tauto].
  - intros Hr. apply Hcut in Hr. exact (HX Hr).
Qed.

(** Scenario 3 of the specification, run through the callback: the record
    ENFORCE(3, 2) meets a column visiting customer 3 on day 1; the column is
    fixed, the result is REDUCED_DOMAIN and the record is advanced. *)
Lemma C2_propagation_witness :
  length [zeroFixed Sample.otherDayVar] = length [Sample.otherDayVar] /\
  reducedBySome [Sample.enforce32] [Sample.otherDayVar].
Proof.
  pose proof (C2_propagation_spec
                [Sample.enforce32]
                [advanced 1 Sample.enforce32]
                [Sample.otherDayVar]
                [zeroFixed Sample.otherDayVar]
                ConsVA.SCIP_REDUCEDDOM eq_refl) as (HL & _ & HN & _).
  split; [exact HL|].
  apply (proj1 (proj1 (proj2 (proj2 (HN ltac:(discriminate)))))).
  reflexivity.
Defined.

(* ------------------------------------------------------------------ *)
(** ** The consistency check                                           *)
(* ------------------------------------------------------------------ *)

(** C8 (defect).  [consdataCheck] leaves its loop at the first feasible
    column that the classifier answers 0, returning [SCIP_OKAY], which is
    true as a [SCIP_Bool]; the columns behind it are not examined.  The
    record PROHIBIT(3, 1), last checked at index 2, is propagated over the
    columns [unrelatedVar; sameDayVar; sameDayVar]: the third column is
    fixed, the propagation ends with REDUCED_DOMAIN and the record is
    advanced, all assertions passing.  The check with [beforeprop = FALSE]
    on the columns left answers true although the second column is still
    feasible and serves customer 3 on day 1. *)
Theorem C8_consdataCheck_stops_early :
  ConsVA.consPropVehicleAss [Sample.prohibit31]
    [Sample.unrelatedVar; Sample.sameDayVar; Sample.sameDayVar]
  = Some ([advanced 3 Sample.prohibit31],
          [Sample.unrelatedVar; Sample.sameDayVar;
           zeroFixed Sample.sameDayVar],
          ConsVA.SCIP_REDUCEDDOM)
  /\ ConsVA.consdataCheck
       [Sample.unrelatedVar; Sample.sameDayVar; zeroFixed Sample.sameDayVar]
       (advanced 3 Sample.prohibit31) false
     = Some ConsVA.SCIP_OKAY
  /\ ConsVA.SCIP_OKAY <> ConsVA.FALSE
  /\ nth_error
       [Sample.unrelatedVar; Sample.sameDayVar; zeroFixed Sample.sameDayVar]
       1 = Some Sample.sameDayVar
  /\ (half <= ConsVA.ubLocal Sample.sameDayVar)%Q
  /\ hitBy (advanced 3 Sample.prohibit31) Sample.sameDayVar.
Proof.
  split; [reflexivity|]. split; [reflexivity|]. split; [discriminate|].
  split; [reflexivity|]. split; [unfold half; simpl; discriminate|].
  left. split; reflexivity.
Qed.

(* ------------------------------------------------------------------ *)
(** ** Loops over arrays                                               *)
(* ------------------------------------------------------------------ *)

Lemma inRangeb_true n k : inRangeb n k = true <-> 0 <= k < n.
Proof. unfold inRangeb. rewrite andb_true_iff, Z.leb_le, Z.ltb_lt. tauto. Qed.

Lemma existsb_range (P : Z -> bool) n :
  existsb P (range n) = true <-> exists j, 0 <= j < n /\ P j = true.
Proof.
  rewrite existsb_exists. split; intros (j & H1 & H2); exists j;
    (split; [apply in_range; exact H1|exact H2]).
Qed.

(** A loop whose body writes the cell [i] only. *)
Lemma fold_upd_cells {A} (g : Z -> A) (l : list Z) : forall (a : Z -> A) k,
  fold_left (fun t i => upd t i (g i)) l a k
  = if existsb (Z.eqb k) l then g k else a k.
Proof.
  induction l as [|i l IH]; intros a k; simpl; [reflexivity|].
  rewrite IH. unfold upd.
  destruct (existsb (Z.eqb k) l); [rewrite orb_true_r; reflexivity|].
  rewrite orb_false_r.
  destruct (Z.eqb_spec k i) as [->|]; reflexivity.
Qed.

Lemma existsb_eqb_range n k : existsb (Z.eqb k) (range n) = inRangeb n k.
Proof.
  destruct (inRangeb n k) eqn:E.
  - apply existsb_range. exists k. rewrite Z.eqb_refl.
    apply inRangeb_true in E. auto.
  - destruct (existsb (Z.eqb k) (range n)) eqn:E'; [|reflexivity].
    apply existsb_range in E' as (j & Hj & Hk). apply Z.eqb_eq in Hk. subst j.
    apply inRangeb_true in Hj. congruence.
Qed.

Lemma for_range_upd {A} (g : Z -> A) n (a : Z -> A) k :
  for_range n (fun i t => upd t i (g i)) a k
  = if inRangeb n k then g k else a k.
Proof.
  unfold for_range. rewrite fold_upd_cells, existsb_eqb_range. reflexivity.
Qed.

(** A loop whose body only switches cells of a matrix on: the cell [(k, m)]
    is on afterwards when it was on before or some pass switched it on. *)
Lemma fold_switch_on (P : Z -> Z -> Z -> bool)
    (body : Z -> (Z -> Z -> bool) -> Z -> Z -> bool) :
  (forall j f k m, body j f k m = f k m || P j k m) ->
  forall l f k m,
    fold_left (fun acc j => body j acc) l f k m
    = f k m || existsb (fun j => P j k m) l.
Proof.
  intros Hb l. induction l as [|j l IH]; intros f k m; simpl.
  - rewrite orb_false_r. reflexivity.
  - rewrite IH, Hb, orb_assoc. reflexivity.
Qed.

(** A loop whose body writes one fixed value [v] into cells of a matrix. *)
Lemma fold_write {A} (v : A) (P : Z -> Z -> Z -> bool)
    (body : Z -> (Z -> Z -> A) -> Z -> Z -> A) :
  (forall j f k m, body j f k m = if P j k m then v else f k m) ->
  forall l f k m,
    fold_left (fun acc j => body j acc) l f k m
    = if existsb (fun j => P j k m) l then v else f k m.
Proof.
  intros Hb l. induction l as [|j l IH]; intros f k m; simpl;
    [reflexivity|].
  rewrite IH, Hb.
  destruct (existsb (fun j0 => P j0 k m) l);
    [rewrite orb_true_r; reflexivity|].
  rewrite orb_false_r. reflexivity.
Qed.

Lemma upd2_on (f : Z -> Z -> bool) i j k m :
  upd2 f i j true k m = f k m || ((k =? i) && (m =? j)).
Proof.
  unfold upd2. destruct ((k =? i) && (m =? j));
    [rewrite orb_true_r|rewrite orb_false_r]; reflexivity.
Qed.

(** A row written over a range of columns. *)
Lemma for_range_row {A} (v : A) n i (f : Z -> Z -> A) k m :
  for_range n (fun j f' => upd2 f' i j v) f k m
  = if (k =? i) && inRangeb n m then v else f k m.
Proof.
  unfold for_range.
  rewrite (fold_write v (fun j k m => (k =? i) && (m =? j)))
    by reflexivity.
  destruct (Z.eqb_spec k i) as [->|]; simpl.
  - rewrite existsb_eqb_range. reflexivity.
  - assert (E : existsb (fun _ : Z => false) (range n) = false)
      by (induction (range n); auto).
    rewrite E. reflexivity.
Qed.

(** A column written over a range of rows. *)
Lemma for_range_col {A} (v : A) n j (f : Z -> Z -> A) k m :
  for_range n (fun i f' => upd2 f' i j v) f k m
  = if inRangeb n k && (m =? j) then v else f k m.
Proof.
  unfold for_range.
  rewrite (fold_write v (fun i k m => (k =? i) && (m =? j)))
    by reflexivity.
  destruct (Z.eqb_spec m j) as [->|]; simpl.
  - rewrite andb_true_r.
    assert (E : existsb (fun i => (k =? i) && true) (range n)
                = existsb (Z.eqb k) (range n)).
    { induction (range n) as [|x l IH]; simpl; [reflexivity|].
      rewrite IH, andb_true_r. reflexivity. }
    rewrite E, existsb_eqb_range. reflexivity.
  - rewrite andb_false_r.
    assert (E : existsb (fun i => (k =? i) && false) (range n) = false).
    { induction (range n) as [|x l IH]; simpl; [reflexivity|].
      rewrite IH, andb_false_r. reflexivity. }
    rewrite E. reflexivity.
Qed.

Ltac bool_to_prop :=
  rewrite ?orb_true_iff, ?andb_true_iff, ?negb_true_iff, ?Z.eqb_eq,
    ?Z.eqb_neq, ?inRangeb_true, ?Z.leb_le, ?Z.ltb_lt.

Lemma fold_triple {A B C} (FA : Z -> A -> A) (FB : Z -> B -> B)
    (FC : Z -> C -> C) (l : list Z) : forall a b c,
  fold_left (fun acc i => let '(x, y, z) := acc in (FA i x, FB i y, FC i z))
    l (a, b, c)
  = (fold_left (fun x i => FA i x) l a,
     fold_left (fun y i => FB i y) l b,
     fold_left (fun z i => FC i z) l c).
Proof.
  induction l as [|i l IH]; intros a b c; simpl; [reflexivity|apply IH].
Qed.

(* ------------------------------------------------------------------ *)
(** ** The arc matrix                                                  *)
(* ------------------------------------------------------------------ *)

Section ArcMatrix.
Import Pricer.

Variable md : model_data.

Let depot := nC md - 1.

Lemma arcInit_eq forb toDep succ0 pred0 :
  arcInit md forb toDep succ0 pred0
  = mkArcState
      (fold_left
         (fun f i => for_range (nC md) (fun j f' => upd2 f' i j false) f)
         (range (nC md)) forb)
      (for_range (nC md - 1) (fun i t => upd t i true) toDep)
      (fold_left (fun s i => upd s i (-1)) (range (nC md)) succ0)
      (fold_left (fun p i => upd p i (-1)) (range (nC md)) pred0).
Proof.
  unfold arcInit, for_range at 1.
  rewrite (fold_triple
             (fun i f => for_range (nC md) (fun j f' => upd2 f' i j false) f)
             (fun i s => upd s i (-1)) (fun i p => upd p i (-1))).
  reflexivity.
Qed.

Lemma arcInit_forbidden forb toDep succ0 pred0 k m :
  aForbidden (arcInit md forb toDep succ0 pred0) k m
  = if inRangeb (nC md) k && inRangeb (nC md) m then false else forb k m.
Proof.
  rewrite arcInit_eq. simpl.
  rewrite (fold_write false (fun i k m => (k =? i) && inRangeb (nC md) m)).
  - destruct (inRangeb (nC md) m); simpl.
    + assert (E : existsb (fun j => (k =? j) && true) (range (nC md))
                  = existsb (Z.eqb k) (range (nC md))).
      { induction (range (nC md)) as [|x l IH]; simpl; [reflexivity|].
        rewrite IH, andb_true_r. reflexivity. }
      rewrite E, existsb_eqb_range, andb_true_r. reflexivity.
    + assert (E : existsb (fun j => (k =? j) && false) (range (nC md))
                  = false).
      { induction (range (nC md)) as [|x l IH]; simpl; [reflexivity|].
        rewrite IH, andb_false_r. reflexivity. }
      rewrite E, andb_false_r. reflexivity.
  - intros j f k0 m0. apply for_range_row.
Qed.

Lemma arcInit_toDepot forb toDep succ0 pred0 c :
  aToDepot (arcInit md forb toDep succ0 pred0) c
  = if inRangeb (nC md - 1) c then true else toDep c.
Proof.
  rewrite arcInit_eq. simpl. apply (for_range_upd (fun _ => true)).
Qed.

Lemma arcInit_successor forb toDep succ0 pred0 i :
  successor (arcInit md forb toDep succ0 pred0) i
  = if inRangeb (nC md) i then -1 else succ0 i.
Proof.
  rewrite arcInit_eq. simpl.
  rewrite (fold_upd_cells (fun _ => -1)), existsb_eqb_range. reflexivity.
Qed.

Lemma arcInit_predecessor forb toDep succ0 pred0 i :
  predecessor (arcInit md forb toDep succ0 pred0) i
  = if inRangeb (nC md) i then -1 else pred0 i.
Proof.
  rewrite arcInit_eq. simpl.
  rewrite (fold_upd_cells (fun _ => -1)), existsb_eqb_range. reflexivity.
Qed.

Lemma forbidBoth_eq tl hd f k m :
  forbidBoth md tl hd f k m
  = f k m
    || ((k =? tl) && negb (m =? hd) && inRangeb (nC md) m)
    || ((m =? hd) && negb (k =? tl) && inRangeb (nC md) k).
Proof.
  unfold forbidBoth, for_range.
  rewrite (fold_switch_on
             (fun j k m => (negb (j =? hd) && (k =? tl) && (m =? j))
                           || (negb (j =? tl) && (k =? j) && (m =? hd)))).
  - rewrite <- orb_assoc. f_equal.
    apply eq_iff_eq_true. rewrite existsb_range. bool_to_prop. split.
    + intros (j & Hj & H). revert H. bool_to_prop. intros H.
      destruct H as [((H1 & H2) & H3)|((H1 & H2) & H3)]; subst; [left|right];
        repeat split; auto; lia.
    + intros [((H1 & H2) & H3)|((H1 & H2) & H3)]; subst.
      * exists m. split; [exact H3|]. bool_to_prop. left. auto.
      * exists k. split; [exact H3|]. bool_to_prop. right. auto.
  - intros j f0 k0 m0.
    destruct (j =? hd), (j =? tl); simpl; rewrite ?upd2_on, ?orb_false_r;
      try reflexivity.
    rewrite orb_assoc. reflexivity.
Qed.

Lemma forbidOut_eq tl f k m :
  forbidOut md tl f k m = f k m || ((k =? tl) && inRangeb (nC md - 1) m).
Proof.
  unfold forbidOut. rewrite for_range_row.
  destruct ((k =? tl) && inRangeb (nC md - 1) m);
    [rewrite orb_true_r|rewrite orb_false_r]; reflexivity.
Qed.

Lemma forbidIn_eq hd f k m :
  forbidIn md hd f k m = f k m || ((m =? hd) && inRangeb (nC md - 1) k).
Proof.
  unfold forbidIn. rewrite for_range_col, (andb_comm (inRangeb _ _)).
  destruct ((m =? hd) && inRangeb (nC md - 1) k);
    [rewrite orb_true_r|rewrite orb_false_r]; reflexivity.
Qed.

(** The five ways a pass of the loop over the arc decisions can go
    through. *)
Lemma arcStep_inv st dec st' :
  arcStep md st dec = Some st' ->
  let tl := tail dec in
  let hd := head dec in
  (arcActive dec = false /\ st' = st)
  \/ (arcActive dec = true /\ atype dec = PROHIBIT
      /\ aForbidden st tl hd = false
      /\ st' = mkArcState (upd2 (aForbidden st) tl hd true)
                 (if hd =? depot then upd (aToDepot st) tl false
                  else aToDepot st)
                 (successor st) (predecessor st))
  \/ (arcActive dec = true /\ atype dec = ENFORCE
      /\ (tl = depot \/ successor st tl = -1)
      /\ (hd = depot \/ predecessor st hd = -1)
      /\ ((hd <> depot /\ tl <> depot
           /\ st' = mkArcState (forbidBoth md tl hd (aForbidden st))
                      (upd (aToDepot st) tl false)
                      (upd (successor st) tl hd)
                      (upd (predecessor st) hd tl))
          \/ (hd = depot
              /\ st' = mkArcState (forbidOut md tl (aForbidden st))
                         (aToDepot st)
                         (upd (successor st) tl hd)
                         (upd (predecessor st) hd tl))
          \/ (hd <> depot /\ tl = depot
              /\ st' = mkArcState (forbidIn md hd (aForbidden st))
                         (aToDepot st)
                         (upd (successor st) tl hd)
                         (upd (predecessor st) hd tl)))).
Proof.
  intros H tl hd. unfold arcStep in H. fold depot in H. fold tl hd in H.
  destruct (arcActive dec); simpl in H.
  2:{ left. inversion H. auto. }
  right. destruct (atype dec).
  - left. destruct (aForbidden st tl hd) eqn:Hf; simpl in H; [discriminate|].
    inversion H. auto.
  - right. split; [reflexivity|]. split; [reflexivity|].
    destruct ((tl =? depot) || (successor st tl =? -1)) eqn:H1; simpl in H;
      [|discriminate].
    destruct ((hd =? depot) || (predecessor st hd =? -1)) eqn:H2; simpl in H;
      [|discriminate].
    revert H1 H2. bool_to_prop. intros H1 H2.
    split; [exact H1|]. split; [exact H2|].
    destruct (Z.eqb_spec hd depot) as [Eh|Eh]; simpl in H.
    + right. left. inversion H. auto.
    + destruct (Z.eqb_spec tl depot) as [Et|Et]; simpl in H.
      * right. right. inversion H. auto.
      * left. inversion H. auto.
Qed.

(** Arcs stay forbidden and closed depot returns stay closed. *)
Lemma arcStep_monotone st dec st' :
  arcStep md st dec = Some st' ->
  (forall k m, aForbidden st k m = true -> aForbidden st' k m = true)
  /\ (forall c, aToDepot st c = false -> aToDepot st' c = false).
Proof.
  intros H. apply arcStep_inv in H. simpl in H.
  destruct H as [[_ ->]|[(_ & _ & _ & ->)|(_ & _ & _ & _ & H)]].
  - auto.
  - simpl. split.
    + intros k m Hk. rewrite upd2_on, Hk. reflexivity.
    + intros c Hc. destruct (head dec =? depot); [|exact Hc].
      unfold upd. destruct (c =? tail dec); auto.
  - destruct H as [(_ & _ & ->)|[(_ & ->)|(_ & _ & ->)]]; simpl; split;
      intros; rewrite ?forbidBoth_eq, ?forbidOut_eq, ?forbidIn_eq;
      try (unfold upd; destruct (_ =? _)); auto;
      match goal with H : _ = true |- _ => rewrite H end; reflexivity.
Qed.

Lemma arcLoop_monotone conss : forall st st',
  arcLoop md conss st = Some st' ->
  (forall k m, aForbidden st k m = true -> aForbidden st' k m = true)
  /\ (forall c, aToDepot st c = false -> aToDepot st' c = false).
Proof.
  induction conss as [|dec rest IH]; intros st st' H; simpl in H.
  - inversion H. auto.
  - destruct (arcStep md st dec) as [st1|] eqn:E; [|discriminate].
    destruct (arcStep_monotone _ _ _ E) as [M1 M2].
    destruct (IH _ _ H) as [N1 N2]. split; auto.
Qed.

Lemma arcStep_depotClosed st dec st' :
  arcStep md st dec = Some st' -> depotClosed md st -> depotClosed md st'.
Proof.
  intros H I c Hc. specialize (I c Hc).
  apply arcStep_inv in H. simpl in H. fold depot in I |- *.
  destruct H as [[_ ->]|[(_ & _ & _ & ->)|(_ & _ & _ & _ & H)]].
  - exact I.
  - simpl. rewrite upd2_on. bool_to_prop. unfold upd.
    intros [Hf|[-> <-]].
    + destruct (head dec =? depot); [|auto].
      destruct (c =? tail dec); auto.
    + rewrite !Z.eqb_refl. reflexivity.
  - destruct H as [(Hh & Ht & ->)|[(Hh & ->)|(Hh & Ht & ->)]]; simpl.
    + rewrite forbidBoth_eq. bool_to_prop. unfold upd.
      intros [[Hf|((-> & _) & _)]|((E & _) & _)].
      * destruct (c =? tail dec); auto.
      * rewrite Z.eqb_refl. reflexivity.
      * congruence.
    + rewrite forbidOut_eq. bool_to_prop.
      intros [Hf|(_ & Hr)]; [auto|]. unfold depot in Hr. lia.
    + rewrite forbidIn_eq. bool_to_prop.
      intros [Hf|(E & _)]; [auto|]. congruence.
Qed.

Lemma arcLoop_depotClosed conss : forall st st',
  arcLoop md conss st = Some st' ->
  depotClosed md st -> depotClosed md st'.
Proof.
  induction conss as [|dec rest IH]; intros st st' H I; simpl in H.
  - inversion H; subst. exact I.
  - destruct (arcStep md st dec) as [st1|] eqn:E; [|discriminate].
    apply (IH _ _ H). exact (arcStep_depotClosed _ _ _ E I).
Qed.

Lemma arcInit_depotClosed forb toDep succ0 pred0 :
  depotClosed md (arcInit md forb toDep succ0 pred0).
Proof.
  intros c Hc. rewrite arcInit_forbidden.
  assert (H1 : inRangeb (nC md) c = true) by (apply inRangeb_true; lia).
  assert (H2 : inRangeb (nC md) (nC md - 1) = true)
    by (apply inRangeb_true; lia).
  rewrite H1, H2. discriminate.
Qed.

End ArcMatrix.

(** C10.  After [setArcMatrix] has rebuilt the matrix from the active arc
    decisions without tripping an assertion, every non-depot customer [c]
    whose arc to the depot sink is forbidden has [toDepot[c]] false. *)
Theorem C10_forbidden_depot_closes
    (md : Pricer.model_data) (conss : list Pricer.ArcCons)
    (pd pd' : Pricer.SCIP_PRICERDATA) (c : Z) :
  Pricer.setArcMatrix md conss pd = Some pd' ->
  0 <= c < Pricer.nC md - 1 ->
  Pricer.isForbidden pd' c (Pricer.nC md - 1) = true ->
  Pricer.toDepot pd' c = false.
Proof.
  unfold Pricer.setArcMatrix, Pricer.arcMatrixState. intros H Hc.
  destruct (Pricer.arcLoop md conss _) as [st|] eqn:E; [|discriminate].
  inversion H; subst. simpl.
  exact (arcLoop_depotClosed md _ _ _ E (arcInit_depotClosed md _ _ _ _) c Hc).
Qed.

(** An instance: with the arc from customer 0 to the depot prohibited,
    customer 0 may not return to the depot. *)
Lemma C10_forbidden_depot_closes_witness :
  match Pricer.setArcMatrix Sample.model3 [Sample.prohibitArc0Depot]
          Sample.pricer0 with
  | Some pd' => Pricer.toDepot pd' 0 = false
  | None => False
  end.
Proof.
  destruct (Pricer.setArcMatrix Sample.model3 [Sample.prohibitArc0Depot]
              Sample.pricer0) as [pd'|] eqn:E.
  - apply (C10_forbidden_depot_closes _ _ _ _ 0 E).
    + simpl. lia.
    + vm_compute in E. inversion E. reflexivity.
  - vm_compute in E. discriminate.
Defined.

Section EnforcedArc.
Import Pricer.

Variable md : model_data.

Lemma arcStep_keeps_successor st dec st' t h :
  arcStep md st dec = Some st' ->
  t <> nC md - 1 -> h <> -1 -> successor st t = h -> successor st' t = h.
Proof.
  intros H Ht Hh Hs. apply arcStep_inv in H. simpl in H.
  destruct H as [[_ ->]|[(_ & _ & _ & ->)|(_ & _ & G & _ & H)]];
    [exact Hs|exact Hs|].
  assert (E : successor st' t = upd (successor st) (tail dec) (head dec) t).
  { destruct H as [(_ & _ & ->)|[(_ & ->)|(_ & _ & ->)]]; reflexivity. }
  rewrite E. unfold upd. destruct (Z.eqb_spec t (tail dec)) as [->|_];
    [|exact Hs].
  destruct G as [G|G]; congruence.
Qed.

Lemma arcStep_keeps_predecessor st dec st' t h :
  arcStep md st dec = Some st' ->
  h <> nC md - 1 -> t <> -1 -> predecessor st h = t -> predecessor st' h = t.
Proof.
  intros H Hh Ht Hs. apply arcStep_inv in H. simpl in H.
  destruct H as [[_ ->]|[(_ & _ & _ & ->)|(_ & _ & _ & G & H)]];
    [exact Hs|exact Hs|].
  assert (E : predecessor st' h = upd (predecessor st) (head dec) (tail dec) h).
  { destruct H as [(_ & _ & ->)|[(_ & ->)|(_ & _ & ->)]]; reflexivity. }
  rewrite E. unfold upd. destruct (Z.eqb_spec h (head dec)) as [->|_];
    [|exact Hs].
  destruct G as [G|G]; congruence.
Qed.

Lemma arcLoop_keeps conss : forall st st' t h,
  arcLoop md conss st = Some st' ->
  (t <> nC md - 1 -> h <> -1 -> successor st t = h -> successor st' t = h)
  /\ (h <> nC md - 1 -> t <> -1 -> predecessor st h = t
      -> predecessor st' h = t).
Proof.
  induction conss as [|dec rest IH]; intros st st' t h H; simpl in H.
  - inversion H. auto.
  - destruct (arcStep md st dec) as [st1|] eqn:E; [|discriminate].
    destruct (IH _ _ t h H) as [K1 K2]. split; intros.
    + apply K1; auto. eapply arcStep_keeps_successor; eauto.
    + apply K2; auto. eapply arcStep_keeps_predecessor; eauto.
Qed.

(** What the pass for an active enforcing decision leaves behind, and what
    the rest of the loop cannot undo. *)
Lemma arcLoop_enforced conss : forall st st' dec,
  arcLoop md conss st = Some st' ->
  In dec conss -> arcActive dec = true -> atype dec = ENFORCE ->
  0 <= tail dec -> 0 <= head dec ->
  (tail dec <> nC md - 1 -> head dec <> nC md - 1 ->
     successor st' (tail dec) = head dec
     /\ predecessor st' (head dec) = tail dec
     /\ (forall j, 0 <= j < nC md -> j <> head dec ->
           aForbidden st' (tail dec) j = true)
     /\ (forall j, 0 <= j < nC md -> j <> tail dec ->
           aForbidden st' j (head dec) = true)
     /\ aToDepot st' (tail dec) = false)
  /\ (head dec = nC md - 1 ->
        forall j, 0 <= j < nC md - 1 -> aForbidden st' (tail dec) j = true)
  /\ (tail dec = nC md - 1 -> head dec <> nC md - 1 ->
        forall j, 0 <= j < nC md - 1 -> aForbidden st' j (head dec) = true).
Proof.
  induction conss as [|d rest IH]; intros st st' dec H Hin Ha Hty Ht Hh;
    [destruct Hin|].
  simpl in H. destruct (arcStep md st d) as [st1|] eqn:E; [|discriminate].
  destruct Hin as [->|Hin]; [|exact (IH _ _ _ H Hin Ha Hty Ht Hh)].
  destruct (arcLoop_monotone md _ _ _ H) as [M1 M2].
  apply arcStep_inv in E. simpl in E.
  destruct E as [[E _]|[(_ & E & _)|(_ & _ & _ & _ & E)]]; [congruence..|].
  split; [|split].
  - intros Ht' Hh'.
    destruct E as [(_ & _ & ->)|[(E & _)|(_ & E & _)]]; [|congruence..].
    destruct (arcLoop_keeps _ _ _ (tail dec) (head dec) H) as [K1 K2].
    split; [|split; [|split; [|split]]].
    + apply K1; [exact Ht'|lia|]. simpl. unfold upd.
      rewrite Z.eqb_refl. reflexivity.
    + apply K2; [exact Hh'|lia|]. simpl. unfold upd.
      rewrite Z.eqb_refl. reflexivity.
    + intros j Hj Hne. apply M1. simpl. rewrite forbidBoth_eq.
      bool_to_prop. left. right. auto.
    + intros j Hj Hne. apply M1. simpl. rewrite forbidBoth_eq.
      bool_to_prop. right. auto.
    + apply M2. simpl. unfold upd. rewrite Z.eqb_refl. reflexivity.
  - intros Hh' j Hj.
    destruct E as [(E & _)|[(_ & ->)|(E & _)]]; [congruence| |congruence].
    apply M1. simpl. rewrite forbidOut_eq. bool_to_prop. right. auto.
  - intros Ht' Hh' j Hj.
    destruct E as [(_ & E & _)|[(E & _)|(_ & _ & ->)]]; [congruence..|].
    apply M1. simpl. rewrite forbidIn_eq. bool_to_prop. right. auto.
Qed.

(** The pass for an enforcing decision with a depot endpoint forbids the
    arcs of one row or one column towards the non-depot customers, and
    nothing else; the depot flags stay. *)
Lemma arcStep_depot_enforce st dec st' :
  arcStep md st dec = Some st' ->
  arcActive dec = true -> atype dec = ENFORCE ->
  (head dec = nC md - 1 ->
     (forall k m, aForbidden st' k m
                  = aForbidden st k m
                    || ((k =? tail dec) && inRangeb (nC md - 1) m))
     /\ (forall c, aToDepot st' c = aToDepot st c))
  /\ (tail dec = nC md - 1 -> head dec <> nC md - 1 ->
        (forall k m, aForbidden st' k m
                     = aForbidden st k m
                       || ((m =? head dec) && inRangeb (nC md - 1) k))
        /\ (forall c, aToDepot st' c = aToDepot st c)).
Proof.
  intros E Ha Hty. apply arcStep_inv in E. simpl in E.
  destruct E as [[E _]|[(_ & E & _)|(_ & _ & _ & _ & E)]]; [congruence..|].
  split.
  - intros Hh.
    destruct E as [(E & _)|[(_ & ->)|(E & _)]]; [congruence| |congruence].
    simpl. split; [intros; apply forbidOut_eq|reflexivity].
  - intros Ht Hh.
    destruct E as [(_ & E & _)|[(E & _)|(_ & _ & ->)]]; [congruence..|].
    simpl. split; [intros; apply forbidIn_eq|reflexivity].
Qed.

End EnforcedArc.

(** What the matrix and the depot flags hold when [setArcMatrix] is done,
    exactly. *)
Section ArcMatrixExact.
Import Pricer.

Variable md : model_data.

Lemma arcStep_forbidden st dec st' :
  arcStep md st dec = Some st' ->
  forall k m, 0 <= k < nC md -> 0 <= m < nC md ->
    (aForbidden st' k m = true
     <-> aForbidden st k m = true \/ forbidsArc md dec k m).
Proof.
  intros H k m Hk Hm. apply arcStep_inv in H. cbv zeta in H.
  unfold forbidsArc. cbv zeta.
  destruct H as [[Ha ->]|[(Ha & Hty & _ & ->)|(Ha & Hty & _ & _ & H)]].
  - rewrite Ha. intuition discriminate.
  - rewrite Hty. cbn [aForbidden]. rewrite upd2_on. bool_to_prop. tauto.
  - rewrite Hty.
    destruct H as [(Hh & Ht & ->)|[(Hh & ->)|(Hh & Ht & ->)]];
      cbn [aForbidden];
      rewrite ?forbidBoth_eq, ?forbidOut_eq, ?forbidIn_eq; bool_to_prop;
      intuition lia.
Qed.

Lemma arcLoop_forbidden conss : forall st st',
  arcLoop md conss st = Some st' ->
  forall k m, 0 <= k < nC md -> 0 <= m < nC md ->
    (aForbidden st' k m = true
     <-> aForbidden st k m = true
         \/ exists dec, In dec conss /\ forbidsArc md dec k m).
Proof.
  induction conss as [|dec rest IH]; intros st st' H k m Hk Hm; simpl in H.
  - inversion H; subst. split; [auto|]. intros [E|(x & [] & _)]. exact E.
  - destruct (arcStep md st dec) as [st1|] eqn:E; [|discriminate].
    rewrite (IH _ _ H k m Hk Hm), (arcStep_forbidden _ _ _ E k m Hk Hm).
    split.
    + intros [[F|F]|(x & Hx & F)]; [auto| |].
      * right. exists dec. split; [left; reflexivity|exact F].
      * right. exists x. split; [right; exact Hx|exact F].
    + intros [F|(x & [<-|Hx] & F)]; [auto|auto|].
      right. exists x. auto.
Qed.

Lemma arcStep_toDepot st dec st' :
  arcStep md st dec = Some st' ->
  forall c, 0 <= c < nC md - 1 ->
    (aToDepot st' c = false
     <-> aToDepot st c = false \/ closesReturn md dec c).
Proof.
  intros H c Hc. apply arcStep_inv in H. cbv zeta in H.
  unfold closesReturn.
  destruct H as [[Ha ->]|[(Ha & Hty & _ & ->)|(Ha & Hty & _ & _ & H)]].
  - rewrite Ha. intuition discriminate.
  - rewrite Hty. cbn [aToDepot].
    destruct (Z.eqb_spec (head dec) (nC md - 1)) as [Eh|Eh].
    + unfold upd. destruct (Z.eqb_spec c (tail dec)) as [->|Ec];
        intuition congruence.
    + intuition congruence.
  - rewrite Hty.
    destruct H as [(Hh & Ht & ->)|[(Hh & ->)|(Hh & Ht & ->)]];
      cbn [aToDepot].
    + unfold upd. destruct (Z.eqb_spec c (tail dec)) as [->|Ec];
        intuition congruence.
    + intuition congruence.
    + intuition lia.
Qed.

Lemma arcLoop_toDepot conss : forall st st',
  arcLoop md conss st = Some st' ->
  forall c, 0 <= c < nC md - 1 ->
    (aToDepot st' c = false
     <-> aToDepot st c = false
         \/ exists dec, In dec conss /\ closesReturn md dec c).
Proof.
  induction conss as [|dec rest IH]; intros st st' H c Hc; simpl in H.
  - inversion H; subst. split; [auto|]. intros [E|(x & [] & _)]. exact E.
  - destruct (arcStep md st dec) as [st1|] eqn:E; [|discriminate].
    rewrite (IH _ _ H c Hc), (arcStep_toDepot _ _ _ E c Hc).
    split.
    + intros [[F|F]|(x & Hx & F)]; [auto| |].
      * right. exists dec. split; [left; reflexivity|exact F].
      * right. exists x. split; [right; exact Hx|exact F].
    + intros [F|(x & [<-|Hx] & F)]; [auto|auto|].
      right. exists x. auto.
Qed.

Lemma setArcMatrix_forbidden conss pd pd' :
  setArcMatrix md conss pd = Some pd' ->
  forall k m, 0 <= k < nC md -> 0 <= m < nC md ->
    (isForbidden pd' k m = true
     <-> exists dec, In dec conss /\ forbidsArc md dec k m).
Proof.
  unfold setArcMatrix, arcMatrixState. intros H k m Hk Hm.
  destruct (arcLoop md conss _) as [st|] eqn:E; [|discriminate].
  inversion H; subst. cbn [isForbidden].
  rewrite (arcLoop_forbidden _ _ _ E k m Hk Hm), arcInit_forbidden.
  apply inRangeb_true in Hk. apply inRangeb_true in Hm. rewrite Hk, Hm.
  cbn. intuition discriminate.
Qed.

Lemma setArcMatrix_toDepot conss pd pd' :
  setArcMatrix md conss pd = Some pd' ->
  forall c, 0 <= c < nC md - 1 ->
    (toDepot pd' c = false
     <-> exists dec, In dec conss /\ closesReturn md dec c).
Proof.
  unfold setArcMatrix, arcMatrixState. intros H c Hc.
  destruct (arcLoop md conss _) as [st|] eqn:E; [|discriminate].
  inversion H; subst. cbn [toDepot].
  rewrite (arcLoop_toDepot _ _ _ E c Hc), arcInit_toDepot.
  apply inRangeb_true in Hc. rewrite Hc. intuition discriminate.
Qed.

Lemma closesReturn_forbids dec c :
  0 <= c < nC md - 1 ->
  (closesReturn md dec c <-> forbidsArc md dec c (nC md - 1)).
Proof.
  intros Hc. unfold closesReturn, forbidsArc. cbv zeta.
  destruct (atype dec); intuition lia.
Qed.

End ArcMatrixExact.

(** C4.  Let an active ENFORCE arc decision [(tail, head)] be among the
    decisions from which [setArcMatrix] rebuilds the matrix without
    tripping an assertion.  The matrix and the depot flags that the call
    leaves in the pricer data are those of its loop, whose local arrays
    hold, if neither endpoint is the depot, [successor[tail] = head] and
    [predecessor[head] = tail] when the loop is done.  In the pricer data,
    if neither endpoint is the depot, [isForbidden[tail][j]] holds for
    every [j <> head], [isForbidden[j][head]] for every [j <> tail], and
    [toDepot[tail]] is false.  If the head is the depot, every arc from the
    tail to a non-depot customer is forbidden; if the tail is the depot (and
    the head is not), every arc from a non-depot customer into the head is.
    Nothing else is forbidden on account of the decision: an arc is
    forbidden exactly when some active decision forbids it, so that, when
    the decision is the only active one and has a depot endpoint, the
    forbidden arcs are exactly those arcs of the one row or the one column,
    and every customer may still return to the depot. *)
Theorem C4_enforced_arc
    (md : Pricer.model_data) (conss : list Pricer.ArcCons)
    (pd pd' : Pricer.SCIP_PRICERDATA) (dec : Pricer.ArcCons) :
  Pricer.setArcMatrix md conss pd = Some pd' ->
  In dec conss ->
  Pricer.arcActive dec = true ->
  Pricer.atype dec = Pricer.ENFORCE ->
  0 <= Pricer.tail dec -> 0 <= Pricer.head dec ->
  let tl := Pricer.tail dec in
  let hd := Pricer.head dec in
  let depot := Pricer.nC md - 1 in
  (exists st,
     Pricer.arcMatrixState md conss pd (fun _ => 0) (fun _ => 0) = Some st
     /\ Pricer.isForbidden pd' = Pricer.aForbidden st
     /\ Pricer.toDepot pd' = Pricer.aToDepot st
     /\ (tl <> depot -> hd <> depot ->
         Pricer.successor st tl = hd /\ Pricer.predecessor st hd = tl))
  /\ (tl <> depot -> hd <> depot ->
      (forall j, 0 <= j < Pricer.nC md -> j <> hd ->
         Pricer.isForbidden pd' tl j = true)
      /\ (forall j, 0 <= j < Pricer.nC md -> j <> tl ->
            Pricer.isForbidden pd' j hd = true)
      /\ Pricer.toDepot pd' tl = false)
  /\ (hd = depot ->
      forall j, 0 <= j < depot -> Pricer.isForbidden pd' tl j = true)
  /\ (tl = depot -> hd <> depot ->
      forall j, 0 <= j < depot -> Pricer.isForbidden pd' j hd = true)
  /\ (forall k m, 0 <= k < Pricer.nC md -> 0 <= m < Pricer.nC md ->
        (Pricer.isForbidden pd' k m = true
         <-> exists e, In e conss /\ forbidsArc md e k m))
  /\ ((forall e, In e conss -> Pricer.arcActive e = true -> e = dec) ->
      (hd = depot ->
         (forall k m, 0 <= k < Pricer.nC md -> 0 <= m < Pricer.nC md ->
            (Pricer.isForbidden pd' k m = true <-> k = tl /\ m <> depot))
         /\ (forall c, 0 <= c < depot -> Pricer.toDepot pd' c = true))
      /\ (tl = depot -> hd <> depot ->
            (forall k m, 0 <= k < Pricer.nC md -> 0 <= m < Pricer.nC md ->
               (Pricer.isForbidden pd' k m = true <-> m = hd /\ k <> depot))
            /\ (forall c, 0 <= c < depot -> Pricer.toDepot pd' c = true))).
Proof.
  intros H Hin Ha Hty Ht Hh tl hd depot.
  pose proof (setArcMatrix_forbidden md _ _ _ H) as Hforb.
  pose proof (setArcMatrix_toDepot md _ _ _ H) as Hdep.
  unfold Pricer.setArcMatrix in H.
  destruct (Pricer.arcMatrixState md conss pd _ _) as [st|] eqn:E;
    [|discriminate].
  inversion H; subst pd'. clear H.
  cbn [Pricer.isForbidden Pricer.toDepot] in *.
  destruct (arcLoop_enforced md _ _ _ _ E Hin Ha Hty Ht Hh) as (P1 & P2 & P3).
  split.
  { exists st. split; [reflexivity|]. split; [reflexivity|].
    split; [reflexivity|]. intros Htl Hhd.
    destruct (P1 Htl Hhd) as (Q1 & Q2 & _). auto. }
  split.
  { intros Htl Hhd. destruct (P1 Htl Hhd) as (_ & _ & Q3 & Q4 & Q5). auto. }
  split; [exact P2|]. split; [exact P3|]. split; [exact Hforb|].
  intros Honly.
  assert (Hdec : forall k m, (exists e, In e conss /\ forbidsArc md e k m)
                             <-> forbidsArc md dec k m).
  { intros k m. split.
    - intros (e & He & F). rewrite <- (Honly e He (proj1 F)). exact F.
    - intros F. exists dec. auto. }
  assert (Hopen : hd = depot \/ tl = depot ->
                  forall c, 0 <= c < depot -> Pricer.aToDepot st c = true).
  { intros Hend c Hc. destruct (Pricer.aToDepot st c) eqn:X; [reflexivity|].
    apply (Hdep c Hc) in X as (e & He & Hcl).
    rewrite (Honly e He (proj1 Hcl)) in Hcl.
    unfold closesReturn in Hcl. rewrite Hty in Hcl.
    fold tl hd depot in Hcl. lia. }
  split.
  - intros Hhd. split; [|apply Hopen; auto].
    intros k m Hk Hm. rewrite (Hforb k m Hk Hm), Hdec.
    unfold forbidsArc. cbv zeta. rewrite Ha, Hty. fold tl hd depot.
    intuition lia.
  - intros Htl Hhd. split; [|apply Hopen; auto].
    intros k m Hk Hm. rewrite (Hforb k m Hk Hm), Hdec.
    unfold forbidsArc. cbv zeta. rewrite Ha, Hty. fold tl hd depot.
    intuition lia.
Qed.

(** Scenario 2 of the specification as an instance: eleven customers, the
    depot being customer 10, and the decision ENFORCE(5, 9). *)
Lemma C4_enforced_arc_witness :
  match Pricer.setArcMatrix Sample.model11 [Sample.enforceArc59]
          Sample.pricer0 with
  | Some pd' =>
      (exists st,
         Pricer.arcMatrixState Sample.model11 [Sample.enforceArc59]
           Sample.pricer0 (fun _ => 0) (fun _ => 0) = Some st
         /\ Pricer.successor st 5 = 9 /\ Pricer.predecessor st 9 = 5)
      /\ (forall j, 0 <= j < 11 -> j <> 9 ->
            Pricer.isForbidden pd' 5 j = true)
      /\ (forall j, 0 <= j < 11 -> j <> 5 ->
            Pricer.isForbidden pd' j 9 = true)
      /\ Pricer.toDepot pd' 5 = false
  | None => False
  end.
Proof.
  destruct (Pricer.setArcMatrix Sample.model11 [Sample.enforceArc59]
              Sample.pricer0) as [pd'|] eqn:E.
  - destruct (C4_enforced_arc _ _ _ _ Sample.enforceArc59 E
                (or_introl eq_refl) eq_refl eq_refl
                ltac:(cbn; lia) ltac:(cbn; lia))
      as ((st & Es & _ & _ & Hs) & Hf & _).
    split.
    + exists st. split; [exact Es|]. apply Hs; cbn; lia.
    + apply Hf; cbn; lia.
  - vm_compute in E. discriminate.
Defined.

(* ------------------------------------------------------------------ *)
(** ** The timetable                                                   *)
(* ------------------------------------------------------------------ *)

Section TimeTable.
Import Pricer.

Variable md : model_data.

Lemma existsb_eqb_In m (l : list Z) : existsb (Z.eqb m) l = true <-> In m l.
Proof.
  rewrite existsb_exists. split.
  - intros (x & Hx & E). apply Z.eqb_eq in E. subst. exact Hx.
  - intros H. exists m. rewrite Z.eqb_refl. auto.
Qed.

Lemma setWindowDays_eq windows c v tab k m :
  setWindowDays windows c v tab k m
  = if (k =? c) && existsb (Z.eqb m) windows then v else tab k m.
Proof.
  unfold setWindowDays.
  rewrite (fold_write v (fun d k m => (k =? c) && (m =? d))) by reflexivity.
  destruct (k =? c); simpl; [reflexivity|].
  assert (E : existsb (fun _ : Z => false) windows = false)
    by (induction windows; auto).
  rewrite E. reflexivity.
Qed.

(** A loop over distinct rows, each pass rewriting its own row cell by
    cell. *)
Lemma fold_rows {A} (H : Z -> Z -> A -> A)
    (body : Z -> (Z -> Z -> A) -> Z -> Z -> A) :
  (forall i t k m, body i t k m = if k =? i then H k m (t k m) else t k m) ->
  forall l, NoDup l -> forall f k m,
    fold_left (fun t i => body i t) l f k m
    = if existsb (Z.eqb k) l then H k m (f k m) else f k m.
Proof.
  intros Hb l. induction l as [|i l IH]; intros ND f k m; simpl;
    [reflexivity|].
  inversion ND as [|x y Hni ND']; subst.
  rewrite (IH ND'), Hb.
  destruct (Z.eqb_spec k i) as [->|Hne]; simpl; [|reflexivity].
  destruct (existsb (Z.eqb i) l) eqn:E; [|reflexivity].
  apply existsb_eqb_In in E. contradiction.
Qed.

Lemma resetTimeTable_eq tab k m :
  resetTimeTable md tab k m
  = if inRangeb (nC md) k
    then (if existsb (Z.eqb m) (timeWindows md k) then true
          else if inRangeb (nDays md) m then false else tab k m)
    else tab k m.
Proof.
  unfold resetTimeTable, for_range at 1.
  rewrite (fold_rows
             (fun k m old => if existsb (Z.eqb m) (timeWindows md k) then true
                             else if inRangeb (nDays md) m then false
                             else old)).
  - rewrite existsb_eqb_range. reflexivity.
  - intros i t k0 m0. rewrite setWindowDays_eq, for_range_row.
    destruct (Z.eqb_spec k0 i) as [->|]; reflexivity.
  - apply range_NoDup.
Qed.

(** The effect of the pass for an active decision. *)
Lemma timeTableStep_active tab dec tab' :
  timeTableStep md tab dec = Some tab' ->
  vaActive dec = true ->
  let c := vaCustomer dec in
  let d := vaDay dec in
  0 <= c < nC md - 1 /\ 0 <= d /\ tab c d = true
  /\ match vaType dec with
     | ConsVA.VA_PROHIBIT =>
         forall k m, tab' k m
                     = if (k =? c) && (m =? d) then false else tab k m
     | ConsVA.VA_ENFORCE =>
         forall k m, tab' k m
                     = if k =? c
                       then (if m =? d then true
                             else if existsb (Z.eqb m) (timeWindows md c)
                                  then false else tab k m)
                       else tab k m
     end.
Proof.
  intros H Ha c d. unfold timeTableStep in H. rewrite Ha in H. simpl in H.
  fold c d in H.
  destruct ((0 <=? c) && (c <? nC md - 1)) eqn:H1; simpl in H; [|discriminate].
  destruct (0 <=? d) eqn:H2; simpl in H; [|discriminate].
  revert H1 H2. bool_to_prop. intros H1 H2.
  split; [exact H1|]. split; [exact H2|].
  destruct (vaType dec); destruct (tab c d) eqn:H3; simpl in H;
    try discriminate; inversion H; subst; (split; [reflexivity|]).
  - reflexivity.
  - intros k m. unfold upd2. rewrite setWindowDays_eq.
    destruct (k =? c); simpl; [|reflexivity].
    destruct (m =? d); reflexivity.
Qed.

Lemma timeTableStep_inactive tab dec tab' :
  timeTableStep md tab dec = Some tab' -> vaActive dec = false -> tab' = tab.
Proof.
  unfold timeTableStep. intros H Ha. rewrite Ha in H. inversion H.
  reflexivity.
Qed.

Lemma available_snoc done dec c d :
  available md (done ++ [dec]) c d
  <-> available md done c d
      /\ (vaActive dec = true -> vaCustomer dec = c -> agrees dec d).
Proof.
  unfold available. split.
  - intros [H1 H2]. split; [split; [exact H1|]|].
    + intros x Hx. apply H2, in_or_app. auto.
    + apply H2, in_or_app. simpl. auto.
  - intros [[H1 H2] H3]. split; [exact H1|].
    intros x Hx. apply in_app_or in Hx as [Hx|[<-|[]]]; auto.
Qed.

Lemma tableOf_step done tab dec tab' :
  timeTableStep md tab dec = Some tab' ->
  tableOf md done tab -> tableOf md (done ++ [dec]) tab'.
Proof.
  intros H I c d Hc Hd. rewrite available_snoc.
  destruct (vaActive dec) eqn:Ha.
  2:{ rewrite (timeTableStep_inactive _ _ _ H Ha), (I c d Hc Hd).
      intuition discriminate. }
  destruct (timeTableStep_active _ _ _ H Ha) as (Rc & Rd & Hcell & Heff).
  unfold agrees. destruct (vaType dec); rewrite Heff.
  - (* prohibit *)
    destruct (Z.eqb_spec c (vaCustomer dec)) as [Ec|Ec]; simpl.
    + destruct (Z.eqb_spec d (vaDay dec)) as [Ed|Ed].
      * split; [discriminate|]. intros [_ H2]. exfalso. symmetry in Ec, Ed.
        exact (H2 eq_refl Ec Ed).
      * rewrite (I c d Hc Hd). intuition congruence.
    + rewrite (I c d Hc Hd). intuition congruence.
  - (* enforce *)
    destruct (Z.eqb_spec c (vaCustomer dec)) as [Ec|Ec].
    + destruct (Z.eqb_spec d (vaDay dec)) as [Ed|Ed].
      * subst c d. split; [|reflexivity]. intros _.
        split; [|auto]. apply (I _ _ Hc Hd). exact Hcell.
      * destruct (existsb (Z.eqb d) (timeWindows md (vaCustomer dec))) eqn:Ew.
        -- split; [discriminate|]. intros [_ H2]. symmetry in Ec.
           specialize (H2 eq_refl Ec). congruence.
        -- rewrite (I c d Hc Hd). split.
           ++ intros [Hw _]. subst c. apply existsb_eqb_In in Hw. congruence.
           ++ intros [_ H2]. symmetry in Ec.
              specialize (H2 eq_refl Ec). congruence.
    + rewrite (I c d Hc Hd). intuition congruence.
Qed.

Lemma tableOf_loop conss : forall done tab tab',
  timeTableLoop md conss tab = Some tab' ->
  tableOf md done tab -> tableOf md (done ++ conss) tab'.
Proof.
  induction conss as [|dec rest IH]; intros done tab tab' H I; simpl in H.
  - inversion H; subst. rewrite app_nil_r. exact I.
  - destruct (timeTableStep md tab dec) as [tab1|] eqn:E; [|discriminate].
    replace (done ++ dec :: rest) with ((done ++ [dec]) ++ rest)
      by (rewrite <- app_assoc; reflexivity).
    apply (IH _ _ _ H). exact (tableOf_step _ _ _ _ E I).
Qed.

Lemma tableOf_reset tab : tableOf md [] (resetTimeTable md tab).
Proof.
  intros c d Hc Hd. rewrite resetTimeTable_eq.
  apply inRangeb_true in Hc. apply inRangeb_true in Hd. rewrite Hc, Hd.
  unfold available.
  destruct (existsb (Z.eqb d) (timeWindows md c)) eqn:E.
  - apply existsb_eqb_In in E. split; [|reflexivity]. intros _.
    split; [exact E|]. intros x [].
  - split; [discriminate|]. intros [Hw _]. apply existsb_eqb_In in Hw.
    congruence.
Qed.

(** The customer of an active decision that was processed passed the range
    assertion. *)
Lemma timeTableLoop_customer conss : forall tab tab' dec,
  timeTableLoop md conss tab = Some tab' ->
  In dec conss -> vaActive dec = true -> 0 <= vaCustomer dec < nC md - 1.
Proof.
  induction conss as [|x rest IH]; intros tab tab' dec H Hin Ha;
    [destruct Hin|].
  simpl in H. destruct (timeTableStep md tab x) as [tab1|] eqn:E;
    [|discriminate].
  destruct Hin as [->|Hin]; [|exact (IH _ _ _ H Hin Ha)].
  apply (timeTableStep_active _ _ _ E Ha).
Qed.

Lemma timeTableLoop_app l1 : forall l2 tab,
  timeTableLoop md (l1 ++ l2) tab
  = match timeTableLoop md l1 tab with
    | Some tab1 => timeTableLoop md l2 tab1
    | None => None
    end.
Proof.
  induction l1 as [|dec l1 IH]; intros l2 tab; cbn [app timeTableLoop];
    [reflexivity|].
  destruct (timeTableStep md tab dec); [apply IH|reflexivity].
Qed.

(** [setTimeTable] changes the timetable and nothing else. *)
Lemma setTimeTable_eq conss pd :
  setTimeTable md conss pd
  = match timeTableLoop md conss (resetTimeTable md (timetable pd)) with
    | Some tab =>
        Some (mkPricer (isForbidden pd) (toDepot pd) tab (eC pd) (nEC pd)
                (neighbors pd) (lastnodeid pd))
    | None => None
    end.
Proof. reflexivity. Qed.

End TimeTable.

(** C5.  A call of [setTimeTable] that trips no assertion changes the
    timetable of the pricer data and nothing else.  It first resets the
    table to the base windows: without decisions, a day is available to a
    customer exactly when it is one of the customer's window days.  It then
    processes the decisions in order, and can be followed decision by
    decision: the call on the decisions up to and including [dec] differs
    from the call on the decisions before [dec] by the pass for [dec].  The
    pass for an inactive decision changes nothing; the pass for an active
    PROHIBIT decision finds its day available (asserted) and clears that
    cell and no other; the pass for an active ENFORCE decision finds its day
    available (asserted), clears the customer's window days and sets the
    enforced day again, and touches no other row.  In the table the call
    leaves, a day is available to a customer exactly when it is a window day
    that agrees with every active decision on the customer.  In particular,
    for a customer with windows on days 0 and 2 and an active ENFORCE on day
    2, the row is false on day 0, true on no day but day 2, and true on day
    2 when that decision is the only active one on the customer. *)
Theorem C5_timetable
    (md : Pricer.model_data) (conss : list Pricer.VACons)
    (pd pd' : Pricer.SCIP_PRICERDATA) :
  Pricer.setTimeTable md conss pd = Some pd' ->
  (Pricer.isForbidden pd' = Pricer.isForbidden pd
   /\ Pricer.toDepot pd' = Pricer.toDepot pd
   /\ Pricer.eC pd' = Pricer.eC pd /\ Pricer.nEC pd' = Pricer.nEC pd
   /\ Pricer.neighbors pd' = Pricer.neighbors pd
   /\ Pricer.lastnodeid pd' = Pricer.lastnodeid pd)
  /\ (exists pd0,
        Pricer.setTimeTable md [] pd = Some pd0
        /\ forall c d, 0 <= c < Pricer.nC md -> 0 <= d < Pricer.nDays md ->
             (Pricer.timetable pd0 c d = true
              <-> In d (Pricer.timeWindows md c)))
  /\ (forall done dec rest, conss = done ++ dec :: rest ->
        exists pd1 pd2,
          Pricer.setTimeTable md done pd = Some pd1
          /\ Pricer.setTimeTable md (done ++ [dec]) pd = Some pd2
          /\ (Pricer.vaActive dec = false ->
              Pricer.timetable pd2 = Pricer.timetable pd1)
          /\ (Pricer.vaActive dec = true ->
              let c := Pricer.vaCustomer dec in
              let d := Pricer.vaDay dec in
              Pricer.timetable pd1 c d = true
              /\ match Pricer.vaType dec with
                 | ConsVA.VA_PROHIBIT =>
                     forall k m,
                       Pricer.timetable pd2 k m
                       = if (k =? c) && (m =? d) then false
                         else Pricer.timetable pd1 k m
                 | ConsVA.VA_ENFORCE =>
                     forall k m,
                       Pricer.timetable pd2 k m
                       = if k =? c
                         then (if m =? d then true
                               else if existsb (Z.eqb m)
                                         (Pricer.timeWindows md c)
                                    then false
                                    else Pricer.timetable pd1 k m)
                         else Pricer.timetable pd1 k m
                 end))
  /\ (forall c d, 0 <= c < Pricer.nC md -> 0 <= d < Pricer.nDays md ->
        (Pricer.timetable pd' c d = true <-> available md conss c d))
  /\ (forall dec,
        In dec conss -> Pricer.vaActive dec = true ->
        Pricer.vaType dec = ConsVA.VA_ENFORCE -> Pricer.vaDay dec = 2 ->
        (forall d, In d (Pricer.timeWindows md (Pricer.vaCustomer dec))
                   <-> d = 0 \/ d = 2) ->
        2 < Pricer.nDays md ->
        let c := Pricer.vaCustomer dec in
        Pricer.timetable pd' c 0 = false
        /\ (forall d, 0 <= d < Pricer.nDays md ->
              Pricer.timetable pd' c d = true -> d = 2)
        /\ ((forall dec', In dec' conss -> Pricer.vaActive dec' = true ->
                          Pricer.vaCustomer dec' = c -> dec' = dec) ->
            Pricer.timetable pd' c 2 = true)).
Proof.
  intros H0. rewrite setTimeTable_eq in H0.
  destruct (Pricer.timeTableLoop md conss _) as [tab'|] eqn:H; [|discriminate].
  inversion H0; subst pd'. clear H0.
  cbn [Pricer.isForbidden Pricer.toDepot Pricer.timetable Pricer.eC
       Pricer.nEC Pricer.neighbors Pricer.lastnodeid].
  set (tab := Pricer.timetable pd) in *.
  pose proof (tableOf_loop md _ _ _ _ H (tableOf_reset md tab)) as Hfin.
  simpl in Hfin.
  split; [repeat split|]. split; [|split; [|split]].
  - eexists. split; [reflexivity|]. cbn [Pricer.timetable].
    intros c d Hc Hd. fold tab. rewrite (tableOf_reset md tab c d Hc Hd).
    unfold available. split; [tauto|]. intros Hw. split; [exact Hw|].
    intros x [].
  - intros done dec rest ->. rewrite !setTimeTable_eq. fold tab.
    rewrite timeTableLoop_app in H. rewrite timeTableLoop_app.
    destruct (Pricer.timeTableLoop md done (Pricer.resetTimeTable md tab))
      as [t1|]; [|discriminate].
    cbn [Pricer.timeTableLoop] in *.
    destruct (Pricer.timeTableStep md t1 dec) as [t2|] eqn:E;
      [|discriminate].
    eexists. eexists. split; [reflexivity|]. split; [reflexivity|].
    cbn [Pricer.timetable]. split.
    + intros Ha. exact (timeTableStep_inactive md _ _ _ E Ha).
    + intros Ha.
      destruct (timeTableStep_active md _ _ _ E Ha)
        as (_ & _ & Hcell & Heff).
      split; assumption.
  - exact Hfin.
  - intros dec Hin Ha Hty Hday Hw Hn.
    set (c := Pricer.vaCustomer dec) in *.
    assert (Hc : 0 <= c < Pricer.nC md).
    { pose proof (timeTableLoop_customer md _ _ _ _ H Hin Ha). unfold c. lia. }
    assert (Honly : forall d, 0 <= d < Pricer.nDays md ->
                      tab' c d = true -> d = 2).
    { intros d Hd Ht. apply (Hfin c d Hc Hd) in Ht as [_ Ht].
      specialize (Ht dec Hin Ha eq_refl). unfold agrees in Ht.
      rewrite Hty in Ht. congruence. }
    split; [|split; [exact Honly|]].
    + destruct (tab' c 0) eqn:E; [|reflexivity].
      apply Honly in E; [discriminate|lia].
    + intros Huniq. apply (Hfin c 2 Hc); [lia|]. split.
      * apply Hw. auto.
      * intros dec' Hin' Ha' Hc'. rewrite (Huniq dec' Hin' Ha' Hc').
        unfold agrees. rewrite Hty. exact Hday.
Qed.

(** Scenario 1 of the specification as an instance: customer 3 has windows
    on days 0 and 2 and ENFORCE(3, 2) is the only decision; its row becomes
    false, false, true. *)
Lemma C5_timetable_witness :
  match Pricer.setTimeTable Sample.model11 [Sample.enforceDay32]
          Sample.pricer0 with
  | Some pd' =>
      Pricer.timetable pd' 3 0 = false /\ Pricer.timetable pd' 3 1 = false
      /\ Pricer.timetable pd' 3 2 = true
  | None => False
  end.
Proof.
  destruct (Pricer.setTimeTable Sample.model11 [Sample.enforceDay32]
              Sample.pricer0) as [pd'|] eqn:E.
  - destruct (proj2 (proj2 (proj2 (proj2 (C5_timetable _ _ _ _ E))))
                Sample.enforceDay32) as (H0 & H1 & H2);
      try reflexivity; simpl.
    + left. reflexivity.
    + intros d. split.
      * intros [<-|[<-|[]]]; auto.
      * intros [->| ->]; auto.
    + split; [exact H0|]. split.
      * destruct (Pricer.timetable pd' 3 1) eqn:E1; [|reflexivity].
        apply H1 in E1; [discriminate|simpl; lia].
      * apply H2. intros dec' [<-|[]] _ _. reflexivity.
  - vm_compute in E. discriminate.
Defined.

(* ------------------------------------------------------------------ *)
(** ** The enforced customers                                          *)
(* ------------------------------------------------------------------ *)

Section EnforcedCustomers.
Import Pricer.

Variable md : model_data.
Variable tab : Z -> Z -> bool.

Lemma countWindows_fold c windows : forall count dayAvailable,
  fold_left
    (fun '(countAvailable, dayAvailable) d =>
       if tab c d then (countAvailable + 1, d)
       else (countAvailable, dayAvailable))
    windows (count, dayAvailable)
  = (count + Z.of_nat (length (filter (tab c) windows)),
     last (filter (tab c) windows) dayAvailable).
Proof.
  induction windows as [|d rest IH]; intros count day0; simpl.
  - rewrite Z.add_0_r. reflexivity.
  - destruct (tab c d); rewrite IH; [|reflexivity].
    simpl length. f_equal; [lia|].
    destruct (filter (tab c) rest) as [|x l] eqn:E; [reflexivity|].
    exact (last_nonempty x l d day0).
Qed.

Lemma countWindows_eq c :
  countWindows tab c (timeWindows md c)
  = (Z.of_nat (length (availableDays md tab c)),
     last (availableDays md tab c) (-1)).
Proof. unfold countWindows. rewrite countWindows_fold. reflexivity. Qed.

Lemma enforced_value c :
  (if isEnforced md tab c then dayFound md tab c else -1) = enforcedDayOf md tab c.
Proof.
  unfold isEnforced, dayFound, enforcedDayOf. rewrite countWindows_eq.
  cbn [fst snd].
  destruct (availableDays md tab c) as [|d [|d' l]]; try reflexivity.
  destruct (Z.eqb_spec (Z.of_nat (length (d :: d' :: l))) 1) as [E|E];
    [|reflexivity].
  simpl length in E. lia.
Qed.

Lemma enforcedStep_eq c ec nec :
  enforcedStep md tab c (ec, nec)
  = (upd ec c (if isEnforced md tab c then dayFound md tab c else -1),
     if isEnforced md tab c then upd nec (dayFound md tab c) (nec (dayFound md tab c) + 1)
     else nec).
Proof.
  unfold enforcedStep, isEnforced, dayFound.
  destruct (countWindows tab c (timeWindows md c)) as [cnt dy]. simpl.
  destruct (cnt =? 1); reflexivity.
Qed.

Lemma enforced_fold l : forall ec nec,
  fold_left (fun acc c => enforcedStep md tab c acc) l (ec, nec)
  = (fold_left
       (fun e c => upd e c (if isEnforced md tab c then dayFound md tab c else -1)) l ec,
     fold_left
       (fun n c => if isEnforced md tab c
                   then upd n (dayFound md tab c) (n (dayFound md tab c) + 1) else n)
       l nec).
Proof.
  induction l as [|c l IH]; intros ec nec; cbn [fold_left]; [reflexivity|].
  rewrite enforcedStep_eq. apply IH.
Qed.

Lemma count_fold l : forall (nec : Z -> Z) d,
  fold_left
    (fun n c => if isEnforced md tab c
                then upd n (dayFound md tab c) (n (dayFound md tab c) + 1) else n)
    l nec d
  = nec d
    + Z.of_nat (length (filter (fun c => isEnforced md tab c && (dayFound md tab c =? d)) l)).
Proof.
  induction l as [|c l IH]; intros nec d; simpl; [lia|].
  rewrite IH. destruct (isEnforced md tab c); simpl; [|reflexivity].
  unfold upd. rewrite (Z.eqb_sym d).
  destruct (Z.eqb_spec (dayFound md tab c) d) as [->|]; simpl length; lia.
Qed.

Lemma enforcedOf_eC ec nec c :
  0 <= c < nC md - 1 ->
  fst (enforcedOf md tab ec nec) c = enforcedDayOf md tab c.
Proof.
  intros Hc. unfold enforcedOf, for_range at 1. rewrite enforced_fold. simpl.
  rewrite (fold_upd_cells (fun c => if isEnforced md tab c then dayFound md tab c else -1)),
    existsb_eqb_range.
  apply inRangeb_true in Hc. rewrite Hc. apply enforced_value.
Qed.

Lemma enforcedOf_nEC ec nec d :
  0 <= d < nDays md ->
  snd (enforcedOf md tab ec nec) d
  = enforcedCount md (fst (enforcedOf md tab ec nec)) d.
Proof.
  intros Hd. unfold enforcedCount.
  assert (E : forall c, In c (range (nC md - 1)) ->
                (fst (enforcedOf md tab ec nec) c =? d)
                = isEnforced md tab c && (dayFound md tab c =? d)).
  { intros c Hc. apply in_range in Hc. rewrite (enforcedOf_eC _ _ _ Hc).
    rewrite <- enforced_value. destruct (isEnforced md tab c); [reflexivity|].
    cbn [andb]. apply Z.eqb_neq. lia. }
  rewrite (filter_ext_in _ _ _ E).
  unfold enforcedOf, for_range at 1. rewrite enforced_fold. simpl.
  rewrite count_fold, (for_range_upd (fun _ => 0)).
  apply inRangeb_true in Hd. rewrite Hd. reflexivity.
Qed.

End EnforcedCustomers.

Lemma NoDup_singleton {A} (l : list A) (d : A) :
  NoDup l -> (forall x, In x l <-> x = d) -> l = [d].
Proof.
  intros ND H. destruct l as [|x l].
  - destruct (proj2 (H d) eq_refl).
  - assert (x = d) by (apply H; left; reflexivity). subst x.
    inversion ND as [|y z Hni ND']; subst.
    destruct l as [|y l]; [reflexivity|].
    assert (y = d) by (apply H; right; left; reflexivity). subst y.
    destruct Hni. left. reflexivity.
Qed.

(** C9, as stated, fails for a window list that names a day twice: the walk
    counts the entries of the list that the timetable offers, not the days.
    Customer 0 has the window list [1; 1] and day 1 is available: exactly
    one day of the list is available, yet two entries are counted and the
    customer gets no enforced day. *)
Lemma C9_counterexample :
  let md := Pricer.mkModel 2 2 (fun _ => [1; 1]) (fun _ _ => []) in
  let pd :=
    Pricer.mkPricer (fun _ _ => false) (fun _ => true) (fun _ _ => true)
      (fun _ => -1) (fun _ => 0) (fun _ _ => []) 1 in
  0 <= 0 < Pricer.nC md - 1
  /\ (forall d, In d (Pricer.timeWindows md 0)
                /\ Pricer.timetable pd 0 d = true <-> d = 1)
  /\ Pricer.eC (Pricer.setEnforcedCustomers md pd) 0 = -1
  /\ Pricer.eC (Pricer.setEnforcedCustomers md pd) 0 <> 1.
Proof.
  cbn. split; [lia|]. split; [|split; [reflexivity|discriminate]].
  intros d. intuition congruence.
Qed.

(** C9 (amended).  After [setEnforcedCustomers], for every non-depot customer:
    [eC[customer]] is the day of the single entry of the customer's window
    list that the timetable still offers when there is exactly one such
    entry, and -1 otherwise (for a window list without repeated days:
    exactly one entry is offered when exactly one day of the list is
    available); and for every day [d] of the model, [nEC[d]] is the number
    of non-depot customers [c] with [eC[c] = d].  The timetable is left as
    it was. *)
Theorem C9_enforced_customers
    (md : Pricer.model_data) (pd : Pricer.SCIP_PRICERDATA) :
  let pd' := Pricer.setEnforcedCustomers md pd in
  (forall c, 0 <= c < Pricer.nC md - 1 ->
     (forall d, availableDays md (Pricer.timetable pd) c = [d] ->
                Pricer.eC pd' c = d)
     /\ ((forall d, availableDays md (Pricer.timetable pd) c <> [d]) ->
         Pricer.eC pd' c = -1)
     /\ (NoDup (Pricer.timeWindows md c) ->
         forall d,
           availableDays md (Pricer.timetable pd) c = [d]
           <-> (forall d', In d' (Pricer.timeWindows md c)
                           /\ Pricer.timetable pd c d' = true
                           <-> d' = d)))
  /\ (forall d, 0 <= d < Pricer.nDays md ->
        Pricer.nEC pd' d = enforcedCount md (Pricer.eC pd') d)
  /\ Pricer.timetable pd' = Pricer.timetable pd.
Proof.
  intros pd'. unfold pd', Pricer.setEnforcedCustomers.
  pose proof (enforcedOf_eC md (Pricer.timetable pd) (Pricer.eC pd)
                (Pricer.nEC pd)) as HeC.
  pose proof (enforcedOf_nEC md (Pricer.timetable pd) (Pricer.eC pd)
                (Pricer.nEC pd)) as HnEC.
  destruct (Pricer.enforcedOf md (Pricer.timetable pd) (Pricer.eC pd)
              (Pricer.nEC pd)) as [ec nec].
  simpl in *. split; [|split; [exact HnEC|reflexivity]].
  intros c Hc. rewrite (HeC c Hc). unfold enforcedDayOf.
  split; [|split].
  - intros d ->. reflexivity.
  - intros Hn.
    destruct (availableDays md (Pricer.timetable pd) c) as [|d [|d' l]];
      try reflexivity.
    destruct (Hn d eq_refl).
  - intros ND d. unfold availableDays. split.
    + intros E d'. rewrite <- filter_In, E. simpl. intuition congruence.
    + intros H. apply NoDup_singleton; [apply NoDup_filter, ND|].
      intros x. rewrite filter_In. apply H.
Qed.

(** An instance: customer 3 of the sample model with the row false, false,
    true is enforced on day 2. *)
Lemma C9_enforced_customers_witness :
  Pricer.eC
    (Pricer.setEnforcedCustomers Sample.model11
       (Pricer.mkPricer (fun _ _ => false) (fun _ => true)
          (fun c d => (c =? 3) && (d =? 2)) (fun _ => -1) (fun _ => 0)
          (fun _ _ => []) 1)) 3 = 2.
Proof.
  refine (proj1 (proj1 (C9_enforced_customers Sample.model11 _) 3 _) 2 _).
  - simpl. lia.
  - reflexivity.
Defined.

(* ------------------------------------------------------------------ *)
(** ** The neighbourhood                                               *)
(* ------------------------------------------------------------------ *)

Section Neighborhood.
Import Pricer.

Variable md : model_data.

Lemma copyNeighbors_filter pd i j nb :
  copyNeighbors pd i j nb = filter (survives pd i j) nb.
Proof.
  unfold survives. induction nb as [|id next IH]; simpl; [reflexivity|].
  destruct (timetable pd id j); simpl; [|exact IH].
  destruct (isForbidden pd i id); simpl; [exact IH|]. rewrite IH.
  reflexivity.
Qed.

Lemma clearNeighbors_eq pd k m :
  neighbors (clearNeighbors md pd) k m
  = if inRangeb (nC md) k && inRangeb (nDays md) m then []
    else neighbors pd k m.
Proof.
  unfold clearNeighbors. simpl.
  assert (E : forall nbs : Z -> Z -> list Z,
            for_range (nC md)
              (fun i n => for_range (nDays md) (fun j n' => upd2 n' i j []) n)
              nbs k m
            = if inRangeb (nC md) k && inRangeb (nDays md) m then []
              else nbs k m).
  { intros nbs. unfold for_range at 1.
    rewrite (fold_write (@nil Z)
               (fun i k m => (k =? i) && inRangeb (nDays md) m)).
    - destruct (inRangeb (nDays md) m).
      + assert (E : existsb (fun j => (k =? j) && true) (range (nC md))
                    = existsb (Z.eqb k) (range (nC md))).
        { induction (range (nC md)) as [|x l IH]; simpl; [reflexivity|].
          rewrite IH, andb_true_r. reflexivity. }
        rewrite E, existsb_eqb_range, andb_true_r. reflexivity.
      + assert (E : existsb (fun j => (k =? j) && false) (range (nC md))
                    = false).
        { induction (range (nC md)) as [|x l IH]; simpl; [reflexivity|].
          rewrite IH, andb_false_r. reflexivity. }
        rewrite E, andb_false_r. reflexivity.
    - intros j f k0 m0. apply for_range_row. }
  destruct (negb (lastnodeid pd =? 1)); apply E.
Qed.

Lemma row_loop val step (W : writesCell val step) i lj :
  NoDup lj -> forall nbs,
  (forall j, In j lj -> nbs i j = []) ->
  exists nbs',
    fold_left (fun acc j => do n <- acc; step i j n) lj (Some nbs) = Some nbs'
    /\ forall k m, nbs' k m
                   = if (k =? i) && existsb (Z.eqb m) lj then val i m
                     else nbs k m.
Proof.
  induction lj as [|j lj IH]; intros ND nbs He; simpl.
  - exists nbs. split; [reflexivity|]. intros k m.
    rewrite andb_false_r. reflexivity.
  - inversion ND as [|x y Hni ND']; subst.
    destruct (W i j nbs (He j (or_introl eq_refl))) as (nbs1 & E1 & P1).
    rewrite E1.
    destruct (IH ND' nbs1) as (nbs2 & E2 & P2).
    { intros j' Hj'. rewrite P1.
      destruct (Z.eqb_spec j' j) as [->|]; [contradiction|].
      rewrite andb_false_r. apply He. right. exact Hj'. }
    exists nbs2. split; [exact E2|]. intros k m. rewrite P2, P1.
    destruct (Z.eqb_spec k i) as [->|]; simpl; [|reflexivity].
    destruct (existsb (Z.eqb m) lj) eqn:Em;
      [rewrite orb_true_r; reflexivity|].
    rewrite orb_false_r. destruct (Z.eqb_spec m j) as [->|]; reflexivity.
Qed.

Lemma rows_loop val step (W : writesCell val step) lj (NDj : NoDup lj) li :
  NoDup li -> forall nbs,
  (forall i j, In i li -> In j lj -> nbs i j = []) ->
  exists nbs',
    fold_left
      (fun acc i => fold_left (fun acc' j => do n <- acc'; step i j n) lj acc)
      li (Some nbs) = Some nbs'
    /\ forall k m, nbs' k m
                   = if existsb (Z.eqb k) li && existsb (Z.eqb m) lj
                     then val k m else nbs k m.
Proof.
  induction li as [|i li IH]; intros ND nbs He; simpl.
  - exists nbs. split; reflexivity.
  - inversion ND as [|x y Hni ND']; subst.
    destruct (row_loop val step W i lj NDj nbs) as (nbs1 & E1 & P1).
    { intros j Hj. apply He; simpl; auto. }
    rewrite E1.
    destruct (IH ND' nbs1) as (nbs2 & E2 & P2).
    { intros i' j Hi' Hj. rewrite P1.
      destruct (Z.eqb_spec i' i) as [->|]; [contradiction|].
      apply He; simpl; auto. }
    exists nbs2. split; [exact E2|]. intros k m. rewrite P2, P1.
    destruct (existsb (Z.eqb k) li) eqn:Ek; simpl.
    + rewrite orb_true_r. destruct (existsb (Z.eqb m) lj); [reflexivity|].
      rewrite andb_false_r. reflexivity.
    + rewrite orb_false_r.
      destruct (Z.eqb_spec k i) as [->|]; reflexivity.
Qed.

Lemma customerCell_writes pd :
  writesCell (fun i j => if timetable pd i j
                         then filter (survives pd i j) (mneighbors md i j)
                         else [])
    (customerCell md pd).
Proof.
  intros i j nbs He. unfold customerCell. rewrite He. simpl.
  destruct (timetable pd i j); simpl; eexists; (split; [reflexivity|]);
    intros k m.
  - unfold upd2. rewrite copyNeighbors_filter. reflexivity.
  - destruct (Z.eqb_spec k i) as [->|]; [|reflexivity].
    destruct (Z.eqb_spec m j) as [->|]; [|reflexivity]. exact He.
Qed.

Lemma depotCell_writes pd :
  writesCell (fun i j => filter (survives pd i j) (mneighbors md i j))
    (depotCell md pd).
Proof.
  intros i j nbs He. unfold depotCell. rewrite He. simpl.
  eexists. split; [reflexivity|]. intros k m.
  unfold upd2. rewrite copyNeighbors_filter. reflexivity.
Qed.

(** On cleared lists the rebuild of the neighbourhood goes through and
    leaves, in every cell of the block, the filtered base list. *)
Lemma neighborhoodOf_spec pd :
  0 < nC md ->
  (forall i j, 0 <= i < nC md -> 0 <= j < nDays md -> neighbors pd i j = []) ->
  exists nbs,
    neighborhoodOf md pd = Some nbs
    /\ forall i j, 0 <= i < nC md -> 0 <= j < nDays md ->
         nbs i j = cellValue md pd i j.
Proof.
  intros HnC He. unfold neighborhoodOf, for_range.
  destruct (rows_loop _ _ (customerCell_writes pd) (range (nDays md))
              (range_NoDup _) (range (nC md - 1)) (range_NoDup _)
              (neighbors pd)) as (nbs1 & E1 & P1).
  { intros i j Hi Hj. apply in_range in Hi. apply in_range in Hj.
    apply He; lia. }
  rewrite E1.
  destruct (row_loop _ _ (depotCell_writes pd) (nC md - 1)
              (range (nDays md)) (range_NoDup _) nbs1) as (nbs2 & E2 & P2).
  { intros j Hj. apply in_range in Hj. rewrite P1, !existsb_eqb_range.
    assert (R : inRangeb (nC md - 1) (nC md - 1) = false).
    { unfold inRangeb. apply andb_false_iff. right. apply Z.ltb_ge. lia. }
    rewrite R. simpl. apply He; lia. }
  exists nbs2. split; [exact E2|].
  intros i j Hi Hj. rewrite P2, P1, !existsb_eqb_range. unfold cellValue.
  apply inRangeb_true in Hj. rewrite Hj, andb_true_r.
  destruct (Z.eqb_spec i (nC md - 1)) as [->|Hne]; simpl; [reflexivity|].
  assert (R : inRangeb (nC md - 1) i = true) by (apply inRangeb_true; lia).
  rewrite R. reflexivity.
Qed.

End Neighborhood.

Section CurrentGraph.
Import Pricer.

Variable md : model_data.

(** The stages of [set_current_graph]. *)
Lemma set_current_graph_stages arcs vas pd pd' :
  0 < nC md ->
  set_current_graph md arcs vas pd = Some pd' ->
  exists st tab,
    arcMatrixState md arcs pd (fun _ => 0) (fun _ => 0) = Some st
    /\ timeTableOf md vas (timetable pd) = Some tab
    /\ isForbidden pd' = aForbidden st
    /\ toDepot pd' = aToDepot st
    /\ timetable pd' = tab
    /\ lastnodeid pd' = lastnodeid pd
    /\ forall i j, 0 <= i < nC md -> 0 <= j < nDays md ->
         neighbors pd' i j = cellValue md pd' i j.
Proof.
  intros HnC H. unfold set_current_graph, setArcMatrix, setTimeTable in H.
  destruct (arcMatrixState md arcs pd _ _) as [st|] eqn:Ea; [|discriminate].
  cbn [timetable] in H.
  destruct (timeTableOf md vas (timetable pd)) as [tab|] eqn:Et;
    [|discriminate].
  exists st, tab. split; [reflexivity|]. split; [reflexivity|].
  unfold setCurrentNeighborhood in H.
  match type of H with
  | context [neighborhoodOf md ?p] =>
      destruct (neighborhoodOf_spec md p HnC) as (nbs & En & Pn)
  end.
  { intros i j Hi Hj. rewrite clearNeighbors_eq.
    apply inRangeb_true in Hi. apply inRangeb_true in Hj.
    rewrite Hi, Hj. reflexivity. }
  rewrite En in H. inversion H; subst. clear H En.
  unfold setEnforcedCustomers in *. cbn [timetable eC nEC] in *.
  destruct (enforcedOf md tab (eC pd) (nEC pd)) as [ec nec].
  split; [reflexivity|]. split; [reflexivity|]. split; [reflexivity|].
  split; [reflexivity|].
  intros i j Hi Hj. cbn [neighbors]. rewrite (Pn i j Hi Hj). reflexivity.
Qed.

End CurrentGraph.

(** C3, as stated, fails.  Two customers and the depot, the arc from
    customer 0 to customer 1 enforced, customer 1 prohibited on day 0: on
    day 0 customer 0 is available, yet its list is empty, not the single
    enforced successor. *)
Lemma C3_counterexample :
  In Sample.enforceArc01 [Sample.enforceArc01]
  /\ match Pricer.set_current_graph Sample.model3 [Sample.enforceArc01]
             [Sample.prohibitDay10] Sample.pricer0 with
     | Some pd' =>
         Pricer.timetable pd' 0 0 = true
         /\ Pricer.neighbors pd' 0 0 = []
         /\ Pricer.neighbors pd' 0 0 <> [1]
     | None => False
     end.
Proof.
  split; [left; reflexivity|].
  vm_compute. repeat split. discriminate.
Qed.

(** C3 (amended).  After [set_current_graph] has rebuilt the graph without
    tripping an assertion, the forbidden matrix and the timetable are those
    of [setArcMatrix] and [setTimeTable], and
    - for every non-depot customer and day, the list is empty when the
      customer is unavailable that day, and otherwise the base list of that
      pair filtered to the neighbours that are available that day and whose
      arc from the customer is not forbidden, in the base order;
    - for the depot and every day, the list is the base list filtered in
      the same way;
    - the list of a non-depot customer with an active enforced outgoing arc
      holds no customer of the model other than the enforced successor. *)
Theorem C3_neighborhood
    (md : Pricer.model_data) (arcs : list Pricer.ArcCons)
    (vas : list Pricer.VACons) (pd pd' : Pricer.SCIP_PRICERDATA) :
  0 < Pricer.nC md ->
  Pricer.set_current_graph md arcs vas pd = Some pd' ->
  (exists pd1 pd2,
     Pricer.setArcMatrix md arcs pd = Some pd1
     /\ Pricer.setTimeTable md vas pd1 = Some pd2
     /\ Pricer.isForbidden pd' = Pricer.isForbidden pd1
     /\ Pricer.timetable pd' = Pricer.timetable pd2)
  /\ (forall i j, 0 <= i < Pricer.nC md - 1 -> 0 <= j < Pricer.nDays md ->
        Pricer.neighbors pd' i j
        = if Pricer.timetable pd' i j
          then filter (survives pd' i j) (Pricer.mneighbors md i j)
          else [])
  /\ (forall j, 0 <= j < Pricer.nDays md ->
        Pricer.neighbors pd' (Pricer.nC md - 1) j
        = filter (survives pd' (Pricer.nC md - 1) j)
            (Pricer.mneighbors md (Pricer.nC md - 1) j))
  /\ (forall dec j id,
        In dec arcs -> Pricer.arcActive dec = true ->
        Pricer.atype dec = Pricer.ENFORCE ->
        0 <= Pricer.tail dec < Pricer.nC md - 1 -> 0 <= Pricer.head dec ->
        0 <= j < Pricer.nDays md -> 0 <= id < Pricer.nC md ->
        In id (Pricer.neighbors pd' (Pricer.tail dec) j) ->
        id = Pricer.head dec).
Proof.
  intros HnC H.
  destruct (set_current_graph_stages md _ _ _ _ HnC H)
    as (st & tab & Ea & Et & Hf & Hd & Ht & _ & Hn).
  assert (Hcust : forall i j, 0 <= i < Pricer.nC md - 1 ->
            0 <= j < Pricer.nDays md ->
            Pricer.neighbors pd' i j
            = if Pricer.timetable pd' i j
              then filter (survives pd' i j) (Pricer.mneighbors md i j)
              else []).
  { intros i j Hi Hj. rewrite Hn by lia. unfold cellValue.
    destruct (Z.eqb_spec i (Pricer.nC md - 1)); [lia|reflexivity]. }
  split; [|split; [exact Hcust|split]].
  - unfold Pricer.setArcMatrix. rewrite Ea.
    eexists. eexists. split; [reflexivity|].
    unfold Pricer.setTimeTable. cbn [Pricer.timetable]. rewrite Et.
    split; [reflexivity|]. split; [exact Hf|exact Ht].
  - intros j Hj. rewrite Hn by lia. unfold cellValue.
    rewrite Z.eqb_refl. reflexivity.
  - intros dec j id Hin Ha Hty Htl Hhd Hj Hid Hmem.
    rewrite (Hcust _ _ Htl Hj) in Hmem.
    destruct (Pricer.timetable pd' (Pricer.tail dec) j); [|destruct Hmem].
    apply filter_In in Hmem as [_ Hs]. unfold survives in Hs.
    apply andb_true_iff in Hs as [_ Hs]. apply negb_true_iff in Hs.
    rewrite Hf in Hs.
    destruct (arcLoop_enforced md _ _ _ dec Ea Hin Ha Hty (proj1 Htl) Hhd)
      as (P1 & P2 & _).
    destruct (Z.eq_dec id (Pricer.head dec)) as [E|Hne]; [exact E|exfalso].
    destruct (Z.eq_dec (Pricer.head dec) (Pricer.nC md - 1)) as [Ed|Ed].
    + rewrite (P2 Ed id) in Hs; [discriminate|lia].
    + destruct (P1 ltac:(lia) Ed) as (_ & _ & F & _).
      rewrite (F id Hid Hne) in Hs. discriminate.
Qed.

(** An instance: in the sample model with the arc from customer 5 to
    customer 9 enforced, the list of customer 5 on day 1 holds customer 9
    only. *)
Lemma C3_neighborhood_witness :
  match Pricer.set_current_graph Sample.model11 [Sample.enforceArc59] []
          Sample.pricer0 with
  | Some pd' => forall id, 0 <= id < 11 ->
                  In id (Pricer.neighbors pd' 5 1) -> id = 9
  | None => False
  end.
Proof.
  destruct (Pricer.set_current_graph Sample.model11 [Sample.enforceArc59] []
              Sample.pricer0) as [pd'|] eqn:E.
  - intros id Hid Hin.
    refine (proj2 (proj2 (proj2 (C3_neighborhood _ _ _ _ _ _ E)))
              Sample.enforceArc59 1 id _ _ _ _ _ _ Hid Hin);
      simpl; try reflexivity; try lia.
    left. reflexivity.
  - vm_compute in E. discriminate.
Defined.

(* ------------------------------------------------------------------ *)
(** ** The node check of the pricing callbacks                         *)
(* ------------------------------------------------------------------ *)

Section NodeCache.
Import Pricer.

Variable md : model_data.

Lemma nodeCheck_spec call pd pd' flag :
  nodeCheck md call pd = Some (pd', flag) ->
  flag = negb (lastnodeid pd =? currentNode call)
  /\ lastnodeid pd' = currentNode call
  /\ (flag = false -> pd' = pd)
  /\ (flag = true ->
      exists built,
        set_current_graph md (arcConss call) (vaConss call) pd = Some built
        /\ isForbidden pd' = isForbidden built
        /\ toDepot pd' = toDepot built
        /\ timetable pd' = timetable built
        /\ eC pd' = eC built
        /\ nEC pd' = nEC built
        /\ neighbors pd' = neighbors built).
Proof.
  unfold nodeCheck. intros H.
  destruct (Z.eqb_spec (lastnodeid pd) (currentNode call)) as [E|E];
    simpl in H.
  - inversion H; subst. repeat split; auto. discriminate.
  - destruct (set_current_graph md _ _ pd) as [built|]; [|discriminate].
    inversion H; subst. repeat split; try discriminate.
    intros _. exists built. repeat split; reflexivity.
Qed.

Lemma pricingCalls_flags calls : forall pd pd' flags,
  pricingCalls md calls pd = Some (pd', flags) ->
  flags = nodeChanges (lastnodeid pd) (map currentNode calls)
  /\ lastnodeid pd' = last (map currentNode calls) (lastnodeid pd).
Proof.
  induction calls as [|call rest IH]; intros pd pd' flags H; simpl in H.
  - inversion H. auto.
  - destruct (nodeCheck md call pd) as [[pd1 flag]|] eqn:E; [|discriminate].
    simpl in H.
    destruct (pricingCalls md rest pd1) as [[pd2 flags2]|] eqn:E2;
      [|discriminate].
    inversion H; subst. clear H.
    destruct (nodeCheck_spec _ _ _ _ E) as (F & L & _).
    destruct (IH _ _ _ E2) as (F2 & L2). rewrite L in F2, L2.
    split.
    + simpl. rewrite F, F2. reflexivity.
    + rewrite L2. simpl map.
      destruct (map currentNode rest) as [|z l]; [reflexivity|].
      exact (last_nonempty z l (currentNode call) (lastnodeid pd)).
Qed.

(** A sequence of calls can be cut at any call: the call runs on the
    pricer data that the calls before it leave, and its flag comes after
    theirs. *)
Lemma pricingCalls_split before : forall call after pd pd' flags,
  pricingCalls md (before ++ call :: after) pd = Some (pd', flags) ->
  exists pd0 flags0 pd1 flag,
    pricingCalls md before pd = Some (pd0, flags0)
    /\ nodeCheck md call pd0 = Some (pd1, flag)
    /\ length flags0 = length before
    /\ nth_error flags (length before) = Some flag.
Proof.
  induction before as [|x before IH]; intros call after pd pd' flags H.
  - cbn [app pricingCalls] in H.
    destruct (nodeCheck md call pd) as [[pd1 flag]|] eqn:E; [|discriminate].
    cbn [fst snd] in H.
    destruct (pricingCalls md after pd1) as [[pd2 flags2]|]; [|discriminate].
    inversion H; subst. exists pd, [], pd1, flag. auto.
  - cbn [app pricingCalls] in H.
    destruct (nodeCheck md x pd) as [[pdx flagx]|] eqn:E; [|discriminate].
    cbn [fst snd] in H.
    destruct (pricingCalls md (before ++ call :: after) pdx)
      as [[pd2 flags2]|] eqn:E2; [|discriminate].
    inversion H; subst. clear H.
    destruct (IH _ _ _ _ _ E2) as (pd0 & flags0 & pd1 & flag & P1 & P2 & P3 & P4).
    exists pd0, (flagx :: flags0), pd1, flag.
    cbn [pricingCalls]. rewrite E. cbn [fst snd]. rewrite P1.
    cbn [fst snd length nth_error]. auto.
Qed.

(** What a rebuild leaves in the pricer data. *)
Lemma set_current_graph_content arcs vas pd built :
  set_current_graph md arcs vas pd = Some built ->
  (forall k m, 0 <= k < nC md -> 0 <= m < nC md ->
     (isForbidden built k m = true
      <-> exists e, In e arcs /\ forbidsArc md e k m))
  /\ (forall c, 0 <= c < nC md - 1 ->
        (toDepot built c = false
         <-> exists e, In e arcs /\ closesReturn md e c))
  /\ (forall c d, 0 <= c < nC md -> 0 <= d < nDays md ->
        (timetable built c d = true <-> available md vas c d))
  /\ (forall c, 0 <= c < nC md - 1 ->
        eC built c = enforcedDayOf md (timetable built) c)
  /\ (forall d, 0 <= d < nDays md ->
        nEC built d = enforcedCount md (eC built) d)
  /\ (0 < nC md ->
      forall i j, 0 <= i < nC md -> 0 <= j < nDays md ->
        neighbors built i j = cellValue md built i j).
Proof.
  intros H.
  assert (Hn : 0 < nC md ->
               forall i j, 0 <= i < nC md -> 0 <= j < nDays md ->
                 neighbors built i j = cellValue md built i j).
  { intros HnC.
    destruct (set_current_graph_stages md _ _ _ _ HnC H)
      as (_ & _ & _ & _ & _ & _ & _ & _ & P).
    exact P. }
  unfold set_current_graph in H.
  destruct (setArcMatrix md arcs pd) as [pd1|] eqn:Ea; [|discriminate].
  destruct (setTimeTable md vas pd1) as [pd2|] eqn:Et; [|discriminate].
  pose proof (setArcMatrix_forbidden md _ _ _ Ea) as Hf.
  pose proof (setArcMatrix_toDepot md _ _ _ Ea) as Hd.
  rewrite setTimeTable_eq in Et.
  destruct (timeTableLoop md vas _) as [tab|] eqn:El; [|discriminate].
  pose proof (tableOf_loop md _ [] _ _ El (tableOf_reset md _)) as Ht.
  cbn [app] in Ht.
  inversion Et; subst pd2. clear Et.
  unfold setCurrentNeighborhood, setEnforcedCustomers in H.
  cbn [timetable eC nEC isForbidden toDepot] in H.
  pose proof (enforcedOf_eC md tab (eC pd1) (nEC pd1)) as He.
  pose proof (enforcedOf_nEC md tab (eC pd1) (nEC pd1)) as Hc.
  destruct (enforcedOf md tab (eC pd1) (nEC pd1)) as [ec nec].
  destruct (neighborhoodOf md _) as [nbs|]; [|discriminate].
  inversion H; subst built. clear H.
  cbn [isForbidden toDepot timetable eC nEC fst snd] in *.
  repeat split; try (apply Hf; assumption); try (apply Hd; assumption);
    try (apply Ht; assumption); auto.
Qed.

End NodeCache.

(** C7, as stated, fails at the root: the pricer data is created with
    [lastnodeid = 1], the number of the root node, so pricing calls at the
    root find the node unchanged and never run [set_current_graph]. *)
Lemma C7_counterexample :
  Pricer.currentNode (Sample.callAt Pricer.rootNodeNumber)
  = Pricer.rootNodeNumber
  /\ match Pricer.pricingCalls Sample.model3
             [Sample.callAt Pricer.rootNodeNumber;
              Sample.callAt Pricer.rootNodeNumber]
             (Pricer.SCIPincludePricerVrp Sample.pricer0) with
     | Some (_, flags) => flags = [false; false]
     | None => False
     end.
Proof. split; reflexivity. Qed.

(** C7 (amended).  In a sequence of pricing calls that trip no assertion,
    a call rebuilds the restricted graph exactly when the number of its
    node differs from the cached [lastnodeid], that is from the node of the
    call before it, the first call being compared with the [lastnodeid] the
    pricer starts from; after the sequence [lastnodeid] is the node of the
    last call.  Hence a call at the node of the call before it never
    rebuilds, a call at another node always does, and from the initial
    [lastnodeid = 1] a first call at the root (node 1) does not rebuild.
    Every call of the sequence runs on the pricer data that the calls
    before it leave.  A call that does not rebuild leaves the pricer data as
    it finds them.  A call that rebuilds leaves [lastnodeid] at its node and
    the forbidden matrix, the depot flags, the timetable, the
    enforced-customer map with its counts and the neighbour lists that
    [set_current_graph] builds from the decisions of the call: an arc is
    forbidden exactly when an active arc decision forbids it, a day is
    available to a customer exactly when it is a window day that agrees with
    the active customer/day decisions, the enforced day of a customer is the
    single window entry still available or -1, and every neighbour list is
    the filtered base list. *)
Theorem C7_rebuild_on_node_change
    (md : Pricer.model_data) (calls : list Pricer.PricingCall)
    (pd pd' : Pricer.SCIP_PRICERDATA) (flags : list bool) :
  Pricer.pricingCalls md calls pd = Some (pd', flags) ->
  flags = nodeChanges (Pricer.lastnodeid pd) (map Pricer.currentNode calls)
  /\ Pricer.lastnodeid pd'
     = last (map Pricer.currentNode calls) (Pricer.lastnodeid pd)
  /\ (forall k c1 c2,
        nth_error calls k = Some c1 -> nth_error calls (S k) = Some c2 ->
        nth_error flags (S k)
        = Some (negb (Pricer.currentNode c1 =? Pricer.currentNode c2)))
  /\ (forall c, nth_error calls 0 = Some c ->
        nth_error flags 0
        = Some (negb (Pricer.lastnodeid pd =? Pricer.currentNode c)))
  /\ (forall c, nth_error calls 0 = Some c ->
        Pricer.lastnodeid pd = 1 ->
        Pricer.currentNode c = Pricer.rootNodeNumber ->
        nth_error flags 0 = Some false)
  /\ (forall before call after, calls = before ++ call :: after ->
        exists pd0 flags0 pd1 flag,
          Pricer.pricingCalls md before pd = Some (pd0, flags0)
          /\ Pricer.nodeCheck md call pd0 = Some (pd1, flag)
          /\ nth_error flags (length before) = Some flag
          /\ flag = negb (Pricer.lastnodeid pd0 =? Pricer.currentNode call)
          /\ Pricer.lastnodeid pd1 = Pricer.currentNode call
          /\ (flag = false -> pd1 = pd0)
          /\ (flag = true ->
              exists built,
                Pricer.set_current_graph md (Pricer.arcConss call)
                  (Pricer.vaConss call) pd0 = Some built
                /\ Pricer.isForbidden pd1 = Pricer.isForbidden built
                /\ Pricer.toDepot pd1 = Pricer.toDepot built
                /\ Pricer.timetable pd1 = Pricer.timetable built
                /\ Pricer.eC pd1 = Pricer.eC built
                /\ Pricer.nEC pd1 = Pricer.nEC built
                /\ Pricer.neighbors pd1 = Pricer.neighbors built
                /\ (forall k m,
                      0 <= k < Pricer.nC md -> 0 <= m < Pricer.nC md ->
                      (Pricer.isForbidden pd1 k m = true
                       <-> exists e, In e (Pricer.arcConss call)
                                     /\ forbidsArc md e k m))
                /\ (forall c d,
                      0 <= c < Pricer.nC md -> 0 <= d < Pricer.nDays md ->
                      (Pricer.timetable pd1 c d = true
                       <-> available md (Pricer.vaConss call) c d))
                /\ (forall c, 0 <= c < Pricer.nC md - 1 ->
                      Pricer.eC pd1 c
                      = enforcedDayOf md (Pricer.timetable pd1) c)
                /\ (0 < Pricer.nC md ->
                    forall i j,
                      0 <= i < Pricer.nC md -> 0 <= j < Pricer.nDays md ->
                      Pricer.neighbors pd1 i j = cellValue md pd1 i j))).
Proof.
  intros H. destruct (pricingCalls_flags md _ _ _ _ H) as (F & L).
  split; [exact F|]. split; [exact L|].
  assert (Hstep : forall nodes lst k n1 n2,
            nth_error nodes k = Some n1 -> nth_error nodes (S k) = Some n2 ->
            nth_error (nodeChanges lst nodes) (S k) = Some (negb (n1 =? n2))).
  { induction nodes as [|n nodes IH]; intros lst k n1 n2 H1 H2;
      [destruct k; discriminate|].
    destruct k as [|k]; simpl in *.
    - inversion H1; subst. destruct nodes; [discriminate|].
      simpl in *. inversion H2; subst. reflexivity.
    - apply (IH n k n1 n2 H1 H2). }
  split; [|split; [|split]].
  - intros k c1 c2 H1 H2. rewrite F.
    apply Hstep; rewrite nth_error_map; [rewrite H1|rewrite H2]; reflexivity.
  - intros c H0. rewrite F. destruct calls; [discriminate|].
    simpl in *. inversion H0; subst. reflexivity.
  - intros c H0 Hl Hc. rewrite F. destruct calls; [discriminate|].
    simpl in *. inversion H0; subst. rewrite Hl, Hc. reflexivity.
  - intros before call after ->.
    destruct (pricingCalls_split md _ _ _ _ _ _ H)
      as (pd0 & flags0 & pd1 & flag & P1 & P2 & _ & P4).
    exists pd0, flags0, pd1, flag.
    split; [exact P1|]. split; [exact P2|]. split; [exact P4|].
    destruct (nodeCheck_spec md _ _ _ _ P2) as (Fl & Ll & Hkeep & Hbuild).
    split; [exact Fl|]. split; [exact Ll|]. split; [exact Hkeep|].
    intros Hflag.
    destruct (Hbuild Hflag) as (built & Eb & B1 & B2 & B3 & B4 & B5 & B6).
    destruct (set_current_graph_content md _ _ _ _ Eb)
      as (C1 & _ & C3 & C4 & _ & C6).
    exists built. split; [exact Eb|].
    split; [exact B1|]. split; [exact B2|]. split; [exact B3|].
    split; [exact B4|]. split; [exact B5|]. split; [exact B6|].
    rewrite B1, B3, B4. split; [exact C1|]. split; [exact C3|].
    split; [exact C4|].
    intros HnC i j Hi Hj. rewrite B6, (C6 HnC i j Hi Hj).
    unfold cellValue, survives. rewrite B1, B3. reflexivity.
Qed.

(** An instance: two calls at node 2 and one at node 3, from the initial
    pricer data; the graph is rebuilt at the first and at the third call. *)
Lemma C7_rebuild_on_node_change_witness :
  match Pricer.pricingCalls Sample.model3
          [Sample.callAt 2; Sample.callAt 2; Sample.callAt 3]
          (Pricer.SCIPincludePricerVrp Sample.pricer0) with
  | Some (_, flags) => flags = [true; false; true]
  | None => False
  end.
Proof.
  destruct (Pricer.pricingCalls Sample.model3
              [Sample.callAt 2; Sample.callAt 2; Sample.callAt 3]
              (Pricer.SCIPincludePricerVrp Sample.pricer0))
    as [[pd' flags]|] eqn:E.
  - exact (proj1 (C7_rebuild_on_node_change _ _ _ _ _ E)).
  - vm_compute in E. discriminate.
Defined.


(* ------------------------------------------------------------------ *)
(** ** The branching rule                                              *)
(* ------------------------------------------------------------------ *)

Section BranchingRule.
Import Branching.

Lemma fold_left_flat_map {A B C} (f : A -> C -> A) (g : B -> list C)
    (l : list B) : forall a,
  fold_left f (flat_map g l) a
  = fold_left (fun acc i => fold_left f (g i) acc) l a.
Proof.
  induction l as [|i l IH]; intros a; simpl; [reflexivity|].
  rewrite fold_left_app. apply IH.
Qed.

Lemma fold_left_map {A B C} (f : A -> C -> A) (h : B -> C) (l : list B) :
  forall a, fold_left f (map h l) a = fold_left (fun acc x => f acc (h x)) l a.
Proof.
  induction l as [|x l IH]; intros a; simpl; [reflexivity|apply IH].
Qed.

Lemma fold_left_pointwise {A B} (f g : A -> B -> A) (l : list B) :
  (forall acc x, f acc x = g acc x) ->
  forall a, fold_left f l a = fold_left g l a.
Proof.
  intros E. induction l as [|x l IH]; intros a; simpl; [reflexivity|].
  rewrite E. apply IH.
Qed.

Lemma in_pairs nC nDays i j :
  In (i, j) (pairs nC nDays) <-> 0 <= i < nC /\ 0 <= j < nDays.
Proof.
  unfold pairs. rewrite in_flat_map. split.
  - intros (x & Hx & H). apply in_map_iff in H as (y & E & Hy).
    inversion E; subst. apply in_range in Hx. apply in_range in Hy. auto.
  - intros [Hi Hj]. exists i. split; [apply in_range; exact Hi|].
    apply in_map. apply in_range. exact Hj.
Qed.

Context {R : Type} {num : SCIP_Real R}.
Variable a : Assignment R.

(** The two nested loops visit the pairs of the model customer by customer,
    day by day. *)
Lemma selectLoop_pairs nC nDays :
  selectLoop nC nDays a
  = fold_left (fun b p => selectStep a (fst p) (snd p) b) (pairs nC nDays)
      initBest.
Proof.
  unfold selectLoop, pairs, for_range. rewrite fold_left_flat_map.
  apply fold_left_pointwise. intros b i. rewrite fold_left_map. reflexivity.
Qed.

(** One pass of the search loop: the best is kept when the loop passes over
    the pair, and replaced by the pair otherwise. *)
Lemma selectStep_eq i j b :
  selectStep a i j b
  = if passedOver a (bestval b) (bestnum b) (i, j) then b
    else mkBest i j (numOfDays a i) (cur_val a i j).
Proof.
  unfold selectStep, passedOver. cbn [fst snd].
  destruct (SCIPisEQ (cur_val a i j) real_half); [reflexivity|].
  destruct (SCIPisGT (cur_val a i j) (bestval b)); [reflexivity|].
  destruct (SCIPisEQ (cur_val a i j) (bestval b)
            && (numOfDays a i <=? bestnum b)); reflexivity.
Qed.

Lemma lastTaken_step seen b i j :
  lastTaken a seen b -> lastTaken a (seen ++ [(i, j)]) (selectStep a i j b).
Proof.
  intros I. rewrite selectStep_eq.
  destruct (passedOver a (bestval b) (bestnum b) (i, j)) eqn:E.
  - destruct I as [[-> P]|(s1 & s2 & Es & Bv & Bn & Bi & P)].
    + left. split; [reflexivity|]. intros q Hq.
      apply in_app_or in Hq as [Hq|[<-|[]]]; [auto|exact E].
    + right. exists s1, (s2 ++ [(i, j)]).
      split; [rewrite Es, <- app_assoc; reflexivity|].
      split; [exact Bv|]. split; [exact Bn|]. split; [exact Bi|].
      intros q Hq. apply in_app_or in Hq as [Hq|[<-|[]]]; [auto|].
      unfold keeps. cbn [fst snd]. rewrite <- Bv, <- Bn. exact E.
  - right. exists seen, []. cbn [best_cust best_day bestval bestnum].
    split; [reflexivity|]. split; [reflexivity|]. split; [reflexivity|].
    split; [|intros q []].
    unfold passedOver in E. unfold integral. cbn [fst snd] in *.
    destruct (SCIPisEQ (cur_val a i j) real_half); [discriminate|reflexivity].
Qed.

Lemma lastTaken_fold todo : forall seen b,
  lastTaken a seen b ->
  lastTaken a (seen ++ todo)
    (fold_left (fun b p => selectStep a (fst p) (snd p) b) todo b).
Proof.
  induction todo as [|[i j] todo IH]; intros seen b I; simpl.
  - rewrite app_nil_r. exact I.
  - replace (seen ++ (i, j) :: todo) with ((seen ++ [(i, j)]) ++ todo)
      by (rewrite <- app_assoc; reflexivity).
    apply IH, lastTaken_step, I.
Qed.

Lemma lastTaken_selectLoop nC nDays :
  lastTaken a (pairs nC nDays) (selectLoop nC nDays a).
Proof.
  rewrite selectLoop_pairs.
  apply (lastTaken_fold (pairs nC nDays) [] initBest).
  left. split; [reflexivity|]. intros q [].
Qed.

End BranchingRule.

(** The order of the scan. *)
Section ScanOrder.

Lemma seq_sorted k : forall s,
  StronglySorted Z.lt (map Z.of_nat (seq s k)).
Proof.
  induction k as [|k IH]; intros s; cbn [seq map]; constructor.
  - apply IH.
  - apply Forall_forall. intros y Hy. apply in_map_iff in Hy as (n & <- & Hn).
    apply in_seq in Hn. lia.
Qed.

Lemma range_sorted n : StronglySorted Z.lt (range n).
Proof. apply seq_sorted. Qed.

Lemma sorted_app {A} (R : A -> A -> Prop) l1 : forall l2,
  StronglySorted R l1 -> StronglySorted R l2 ->
  (forall x y, In x l1 -> In y l2 -> R x y) ->
  StronglySorted R (l1 ++ l2).
Proof.
  induction l1 as [|x l1 IH]; intros l2 S1 S2 H; cbn [app]; [exact S2|].
  apply StronglySorted_inv in S1 as [S1 F1]. constructor.
  - apply IH; [exact S1|exact S2|]. intros a b Ha Hb. apply H; [right|]; auto.
  - apply Forall_app. split; [exact F1|].
    apply Forall_forall. intros y Hy. apply H; [left; reflexivity|exact Hy].
Qed.

Lemma sorted_split {A} (R : A -> A -> Prop) s1 : forall l x s2,
  StronglySorted R l -> l = s1 ++ x :: s2 ->
  forall y, In y s2 -> R x y.
Proof.
  induction s1 as [|a s1 IH]; intros l x s2 S E y Hy; subst l;
    cbn [app] in S; apply StronglySorted_inv in S as [S F].
  - rewrite Forall_forall in F. apply F, Hy.
  - exact (IH _ x s2 S eq_refl y Hy).
Qed.

Lemma sorted_split_before {A} (R : A -> A -> Prop) s1 : forall l x s2,
  StronglySorted R l -> l = s1 ++ x :: s2 ->
  forall y, In y s1 -> R y x.
Proof.
  induction s1 as [|a s1 IH]; intros l x s2 S E y Hy; [destruct Hy|].
  subst l. cbn [app] in S. apply StronglySorted_inv in S as [S F].
  destruct Hy as [->|Hy].
  - rewrite Forall_forall in F. apply F. apply in_or_app. right. left.
    reflexivity.
  - exact (IH _ x s2 S eq_refl y Hy).
Qed.

Lemma row_sorted i l :
  StronglySorted Z.lt l -> StronglySorted scannedBefore (map (pair i) l).
Proof.
  induction 1 as [|x l S IH F]; cbn [map]; constructor; [exact IH|].
  apply Forall_forall. intros y Hy. apply in_map_iff in Hy as (b & <- & Hb).
  rewrite Forall_forall in F. right. cbn. split; [reflexivity|apply F, Hb].
Qed.

Lemma pairs_sorted nC nDays : StronglySorted scannedBefore (pairs nC nDays).
Proof.
  unfold pairs. pose proof (range_sorted nC) as S.
  induction S as [|i l S IH F]; cbn [flat_map]; [constructor|].
  apply sorted_app; [apply row_sorted, range_sorted|exact IH|].
  intros x y Hx Hy. apply in_map_iff in Hx as (b & <- & _).
  apply in_flat_map in Hy as (i' & Hi' & Hy).
  apply in_map_iff in Hy as (b' & <- & _).
  rewrite Forall_forall in F. left. cbn. apply F, Hi'.
Qed.

Lemma pairs_before nC nDays s1 p s2 q :
  pairs nC nDays = s1 ++ p :: s2 ->
  In q (pairs nC nDays) -> scannedBefore q p -> In q s1.
Proof.
  intros E Hq Hlt. rewrite E in Hq.
  apply in_app_or in Hq as [Hq|[Hq|Hq]]; [exact Hq| |]; exfalso.
  - subst q. unfold scannedBefore in Hlt. lia.
  - pose proof (sorted_split _ _ _ _ _ (pairs_sorted nC nDays) E q Hq) as H.
    unfold scannedBefore in *. lia.
Qed.

Lemma pairs_after nC nDays s1 p s2 q :
  pairs nC nDays = s1 ++ p :: s2 ->
  In q (pairs nC nDays) -> scannedBefore p q -> In q s2.
Proof.
  intros E Hq Hlt. rewrite E in Hq.
  apply in_app_or in Hq as [Hq|[Hq|Hq]]; [| |exact Hq]; exfalso.
  - pose proof (sorted_split_before _ _ _ _ _ (pairs_sorted nC nDays) E q Hq)
      as H.
    unfold scannedBefore in *. lia.
  - subst q. unfold scannedBefore in Hlt. lia.
Qed.

End ScanOrder.

Section Selection.
Import Branching.
Context {R : Type} {num : SCIP_Real R}.
Variable a : Assignment R.
Variables nC nDays : Z.

(** The assertions of the rule pass exactly when the search loop took a
    pair outside the depot row. *)
Lemma selectPair_eq :
  selectPair nC nDays a
  = let b := selectLoop nC nDays a in
    if (0 <=? best_cust b) && (best_cust b <? nC - 1)
    then Some (best_cust b, best_day b) else None.
Proof.
  unfold selectPair. cbv zeta.
  pose proof (lastTaken_selectLoop a nC nDays) as I.
  set (b := selectLoop nC nDays a) in *.
  destruct ((0 <=? best_cust b) && (best_cust b <? nC - 1)) eqn:A1;
    cbn [assert]; [|reflexivity].
  destruct I as [[E _]|(s1 & s2 & Es & _)].
  - rewrite E in A1. discriminate.
  - assert (Hin : In (best_cust b, best_day b) (pairs nC nDays))
      by (rewrite Es; apply in_or_app; right; left; reflexivity).
    apply in_pairs in Hin as [_ Hd].
    assert (A2 : (0 <=? best_day b) && (best_day b <=? nDays - 1) = true)
      by (bool_to_prop; lia).
    rewrite A2. reflexivity.
Qed.

(** The pair selected, whatever the arithmetic: its weight is not integral
    for the loop, and the loop passed over every pair it scanned later. *)
Lemma selectPair_later c d :
  selectPair nC nDays a = Some (c, d) ->
  (0 <= c < nC - 1 /\ 0 <= d < nDays)
  /\ integral a (c, d) = false
  /\ forall i j, 0 <= i < nC -> 0 <= j < nDays ->
       scannedBefore (c, d) (i, j) -> keeps a (c, d) (i, j) = true.
Proof.
  rewrite selectPair_eq. cbv zeta.
  pose proof (lastTaken_selectLoop a nC nDays) as I.
  set (b := selectLoop nC nDays a) in *.
  destruct ((0 <=? best_cust b) && (best_cust b <? nC - 1)) eqn:A1;
    [|discriminate].
  intros H. inversion H; subst c d. clear H.
  revert A1. bool_to_prop. intros A1.
  destruct I as [[E _]|(s1 & s2 & Es & Bv & Bn & Bi & P)].
  { rewrite E in A1. cbn in A1. lia. }
  assert (Hin : In (best_cust b, best_day b) (pairs nC nDays))
    by (rewrite Es; apply in_or_app; right; left; reflexivity).
  apply in_pairs in Hin as [_ Hd].
  split; [lia|]. split; [exact Bi|].
  intros i j Hi Hj Hlt. apply P.
  apply (pairs_after nC nDays s1 _ s2 (i, j) Es); [|exact Hlt].
  apply in_pairs. auto.
Qed.

(** The rule cannot branch when the loop passes over every pair with its
    initial best; and when it cannot branch, either that is the case or the
    last pair the loop took lies in the depot row. *)
Lemma selectPair_none :
  ((forall i j, 0 <= i < nC -> 0 <= j < nDays ->
      passedOver a real_half 0 (i, j) = true) ->
   selectPair nC nDays a = None)
  /\ (selectPair nC nDays a = None ->
      (forall i j, 0 <= i < nC -> 0 <= j < nDays ->
         passedOver a real_half 0 (i, j) = true)
      \/ exists j, 0 <= j < nDays
           /\ integral a (nC - 1, j) = false
           /\ forall i' j', 0 <= i' < nC -> 0 <= j' < nDays ->
                scannedBefore (nC - 1, j) (i', j') ->
                keeps a (nC - 1, j) (i', j') = true).
Proof.
  rewrite selectPair_eq. cbv zeta.
  pose proof (lastTaken_selectLoop a nC nDays) as I.
  rewrite selectLoop_pairs in *.
  set (b := fold_left _ _ _) in *.
  split.
  - intros Hall.
    assert (Hb : b = initBest).
    { unfold b. clear I b.
      assert (G : forall l, (forall q, In q l -> In q (pairs nC nDays)) ->
                fold_left (fun b p => selectStep a (fst p) (snd p) b) l
                  initBest = initBest).
      { induction l as [|[i j] l IH]; intros Hl; cbn [fold_left];
          [reflexivity|].
        rewrite selectStep_eq. cbn [fst snd bestval bestnum initBest].
        assert (Hij : In (i, j) (pairs nC nDays))
          by (apply Hl; left; reflexivity).
        apply in_pairs in Hij as [Hi Hj]. rewrite (Hall i j Hi Hj).
        apply IH. intros q Hq. apply Hl. right. exact Hq. }
      apply G. auto. }
    rewrite Hb. reflexivity.
  - destruct ((0 <=? best_cust b) && (best_cust b <? nC - 1)) eqn:A1;
      [discriminate|]. intros _.
    destruct I as [[E P]|(s1 & s2 & Es & Bv & Bn & Bi & P)].
    + left. intros i j Hi Hj. apply P, in_pairs. auto.
    + right.
      assert (Hin : In (best_cust b, best_day b) (pairs nC nDays))
        by (rewrite Es; apply in_or_app; right; left; reflexivity).
      apply in_pairs in Hin as [Hc Hd].
      assert (Ec : best_cust b = nC - 1).
      { destruct (Z.eq_dec (best_cust b) (nC - 1)) as [E|E]; [exact E|].
        assert (X : (0 <=? best_cust b) && (best_cust b <? nC - 1) = true)
          by (bool_to_prop; lia).
        congruence. }
      exists (best_day b). split; [exact Hd|]. rewrite <- Ec.
      split; [exact Bi|].
      intros i' j' Hi Hj Hlt. apply P.
      apply (pairs_after nC nDays s1 _ s2 (i', j') Es); [|exact Hlt].
      apply in_pairs. auto.
Qed.

End Selection.

Section Decisive.
Import Branching.
Context {R : Type} {num : SCIP_Real R}.
Variable a : Assignment R.
Variables nC nDays : Z.
Variable value : R -> Q.
Hypothesis Hdec : decisive a nC nDays value.

Let dist (p : Z * Z) : R := cur_val a (fst p) (snd p).

Lemma distanceOf_pair p :
  In p (pairs nC nDays) -> distanceOf a nC nDays (dist p).
Proof. intros H. right. exists p. auto. Qed.

Lemma distanceOf_half : distanceOf a nC nDays real_half.
Proof. left. reflexivity. Qed.

Lemma bestOf_step seen b i j :
  In (i, j) (pairs nC nDays) ->
  (forall q, In q seen -> In q (pairs nC nDays)) ->
  bestOf value a seen b ->
  bestOf value a (seen ++ [(i, j)]) (selectStep a i j b).
Proof.
  intros Hij Hseen I. unfold selectStep.
  pose proof (distanceOf_pair _ Hij) as Dcv. unfold dist in Dcv.
  cbn [fst snd] in Dcv.
  set (cv := cur_val a i j) in *.
  assert (Hint : integral a (i, j) = SCIPisEQ cv real_half) by reflexivity.
  destruct (Hdec cv real_half Dcv distanceOf_half) as [E1 G1].
  assert (Db : distanceOf a nC nDays (bestval b)).
  { destruct I as [[-> _]|(s1 & s2 & Es & Bv & _)];
      [apply distanceOf_half|].
    rewrite Bv. apply (distanceOf_pair (best_cust b, best_day b)).
    apply Hseen. rewrite Es. apply in_or_app. right. left. reflexivity. }
  destruct (Hdec cv (bestval b) Dcv Db) as [E2 G2].
  assert (Keep1 : forall q, In q (seen ++ [(i, j)]) ->
            In q seen \/ q = (i, j)).
  { intros q Hq. apply in_app_or in Hq as [Hq|[<-|[]]]; auto. }
  destruct I as [[-> P]|(s1 & s2 & Es & Bv & Bh & Bn & P & S)].
  - (* nothing taken yet *)
    cbn [bestval bestnum initBest] in *.
    destruct (SCIPisEQ cv real_half) eqn:X1.
    { left. split; [reflexivity|]. intros q Hq.
      destruct (Keep1 q Hq) as [Hq'| ->]; [auto|]. cbn [fst snd]. fold cv.
      rewrite (proj1 E1 eq_refl). apply Qlt_irrefl. }
    destruct (SCIPisGT cv real_half) eqn:X2.
    { left. split; [reflexivity|]. intros q Hq.
      destruct (Keep1 q Hq) as [Hq'| ->]; [auto|]. cbn [fst snd]. fold cv.
      apply Qle_not_lt, Qlt_le_weak, (proj1 G1 eq_refl). }
    cbn [andb].
    assert (N1 : ~ (value cv == value real_half)%Q)
      by (intros H; apply E1 in H; congruence).
    assert (N2 : ~ (value real_half < value cv)%Q)
      by (intros H; apply G1 in H; congruence).
    assert (L : (value cv < value real_half)%Q) by lra.
    right. exists seen, []. cbn [best_cust best_day bestval bestnum].
    split; [reflexivity|]. split; [reflexivity|]. split; [exact L|].
    split; [reflexivity|].
    assert (St : forall q, In q seen -> strictlyBeats value a (i, j) q).
    { intros q Hq. left. cbn [fst snd]. fold cv. specialize (P q Hq).
      set (x := value (cur_val a (fst q) (snd q))) in *. lra. }
    split.
    + intros q Hq _. destruct (Keep1 q Hq) as [Hq'| ->].
      * destruct (St q Hq') as [H|[H1 H2]]; [left; exact H|].
        right. split; [exact H1|lia].
      * right. split; [reflexivity|lia].
    + intros q Hq _. exact (St q Hq).
  - (* a best pair is known *)
    assert (KeepIf :
              (integral a (i, j) = false ->
               beats value a (best_cust b, best_day b) (i, j)) ->
              bestOf value a (seen ++ [(i, j)]) b).
    { intros Hnew. right. exists s1, (s2 ++ [(i, j)]).
      split; [rewrite Es, <- app_assoc; reflexivity|].
      split; [exact Bv|]. split; [exact Bh|]. split; [exact Bn|].
      split; [|exact S].
      intros q Hq Hq2. destruct (Keep1 q Hq) as [Hq'| ->]; auto. }
    destruct (SCIPisEQ cv real_half) eqn:X1.
    { apply KeepIf. rewrite Hint. discriminate. }
    destruct (SCIPisGT cv (bestval b)) eqn:X2.
    { apply KeepIf. intros _. left. cbn [fst snd]. fold cv.
      rewrite <- Bv. exact (proj1 G2 eq_refl). }
    destruct (SCIPisEQ cv (bestval b)) eqn:X4;
      [destruct (Z.leb_spec (numOfDays a i) (bestnum b)) as [X5|X5]|];
      cbn [andb].
    { apply KeepIf. intros _. right. cbn [fst snd]. fold cv.
      rewrite <- Bv, <- Bn.
      split; [symmetry; exact (proj1 E2 eq_refl)|exact X5]. }
    all: assert (N2 : ~ (value (bestval b) < value cv)%Q)
      by (intros H; apply G2 in H; congruence).
    all: assert (Hnew : (value cv < value (bestval b))%Q
                        \/ ((value cv == value (bestval b))%Q
                            /\ bestnum b < numOfDays a i));
      [first [right; split; [exact (proj1 E2 eq_refl)|exact X5]
             |left;
              assert (~ (value cv == value (bestval b))%Q)
                by (intros H; apply E2 in H; congruence); lra]|].
    all: right; exists seen, []; cbn [best_cust best_day bestval bestnum].
    all: split; [reflexivity|]; split; [reflexivity|].
    all: split; [destruct Hnew as [H|[H _]]; lra|].
    all: split; [reflexivity|].
    all: assert (St : forall q, In q seen -> integral a q = false ->
                        strictlyBeats value a (i, j) q);
      [intros q Hq Hq2; specialize (P q Hq Hq2);
       unfold beats, strictlyBeats in *; cbn [fst snd] in *; fold cv;
       rewrite <- Bv, <- Bn in P;
       set (x := value (cur_val a (fst q) (snd q))) in *;
       destruct Hnew as [Hn|[Hn1 Hn2]];
       [left; destruct P as [P|[P _]]; lra
       |destruct P as [P|[P1 P2]]; [left; lra|right; split; [lra|lia]]]|].
    all: split; [|exact St].
    all: intros q Hq Hq2; destruct (Keep1 q Hq) as [Hq'| ->];
      [destruct (St q Hq' Hq2) as [H|[H1 H2]];
       [left; exact H|right; split; [exact H1|lia]]
      |right; split; [reflexivity|lia]].
Qed.

Lemma bestOf_fold todo : forall seen b,
  (forall q, In q (seen ++ todo) -> In q (pairs nC nDays)) ->
  bestOf value a seen b ->
  bestOf value a (seen ++ todo)
    (fold_left (fun b p => selectStep a (fst p) (snd p) b) todo b).
Proof.
  induction todo as [|[i j] todo IH]; intros seen b Hin I; simpl.
  - rewrite app_nil_r. exact I.
  - replace (seen ++ (i, j) :: todo) with ((seen ++ [(i, j)]) ++ todo) in *
      by (rewrite <- app_assoc; reflexivity).
    apply IH; [exact Hin|].
    apply bestOf_step; [| |exact I].
    + apply Hin. apply in_or_app. left. apply in_or_app. right. left.
      reflexivity.
    + intros q Hq. apply Hin. apply in_or_app. left. apply in_or_app.
      left. exact Hq.
Qed.

Lemma bestOf_selectLoop :
  bestOf value a (pairs nC nDays) (selectLoop nC nDays a).
Proof.
  rewrite selectLoop_pairs.
  apply (bestOf_fold (pairs nC nDays) [] initBest).
  - intros q Hq. exact Hq.
  - left. split; [reflexivity|]. intros q [].
Qed.

(** The selection when the comparisons are decisive. *)
Lemma selectPair_decisive :
  (forall c d, selectPair nC nDays a = Some (c, d) ->
     (value (cur_val a c d) < value real_half)%Q
     /\ (forall i j, 0 <= i < nC -> 0 <= j < nDays ->
           integral a (i, j) = false ->
           (value (cur_val a c d) <= value (cur_val a i j))%Q
           /\ ((value (cur_val a c d) == value (cur_val a i j))%Q ->
               numOfDays a i <= numOfDays a c))
     /\ (forall i j, 0 <= i < nC -> 0 <= j < nDays ->
           scannedBefore (i, j) (c, d) -> integral a (i, j) = false ->
           strictlyBeats value a (c, d) (i, j)))
  /\ ((exists i j, 0 <= i < nC /\ 0 <= j < nDays
                   /\ (value (cur_val a i j) < value real_half)%Q) ->
      (forall j, 0 <= j < nDays ->
                 ~ (value (cur_val a (nC - 1) j) < value real_half)%Q) ->
      exists c d, selectPair nC nDays a = Some (c, d)).
Proof.
  pose proof bestOf_selectLoop as I.
  rewrite selectPair_eq. cbv zeta.
  set (b := selectLoop nC nDays a) in *.
  split.
  - intros c d H.
    destruct ((0 <=? best_cust b) && (best_cust b <? nC - 1)) eqn:A1;
      [|discriminate].
    inversion H; subst c d. clear H.
    revert A1. bool_to_prop. intros A1.
    destruct I as [[E _]|(s1 & s2 & Es & Bv & Bh & Bn & P & S)].
    { rewrite E in A1. cbn in A1. lia. }
    rewrite <- Bv. split; [exact Bh|]. split.
    + intros i j Hi Hj Hint.
      destruct (P (i, j) (proj2 (in_pairs nC nDays i j) (conj Hi Hj)) Hint)
        as [L|[L1 L2]]; cbn [fst snd] in *; rewrite <- Bv in *.
      * split; [lra|]. intros E. lra.
      * split; [lra|]. intros _. exact L2.
    + intros i j Hi Hj Hlt Hint. apply S; [|exact Hint].
      apply (pairs_before nC nDays s1 _ s2 (i, j) Es); [|exact Hlt].
      apply in_pairs. auto.
  - intros (i & j & Hi & Hj & Hlt) Hdepot.
    destruct I as [[E P]|(s1 & s2 & Es & Bv & Bh & Bn & P & S)].
    { exfalso.
      exact (P (i, j) (proj2 (in_pairs nC nDays i j) (conj Hi Hj)) Hlt). }
    assert (Hin : In (best_cust b, best_day b) (pairs nC nDays))
      by (rewrite Es; apply in_or_app; right; left; reflexivity).
    apply in_pairs in Hin as [C1 C2].
    assert (Hne : best_cust b <> nC - 1).
    { intros E. apply (Hdepot (best_day b) C2). rewrite <- E, <- Bv.
      exact Bh. }
    assert (A1 : (0 <=? best_cust b) && (best_cust b <? nC - 1) = true)
      by (bool_to_prop; lia).
    rewrite A1. eauto.
Qed.

End Decisive.

Section Aggregation.
Import Branching.
Context {R : Type} {num : SCIP_Real R}.

(** One visit of the first loop. *)
Let visitStep (acc : Assignment R) (e : Z * Z * R) : Assignment R :=
  addVisit (snd e) (snd (fst e)) acc (fst (fst e)).

Lemma aggregateStep_eq acc (var : LPVar R) :
  aggregateStep acc var
  = if fractional var
    then addTour (lpsol var) (tday var) (tour var) acc else acc.
Proof.
  unfold aggregateStep, fractional.
  destruct (SCIPisSumPositive (lpsol var)
            && SCIPisSumPositive (real_sub (real_of_int 1) (lpsol var)));
    [|reflexivity].
  destruct (tour var); reflexivity.
Qed.

(** The first loop processes the visits one after the other. *)
Lemma aggregate_visits (vars : list (LPVar R)) : forall acc,
  fold_left aggregateStep vars acc = fold_left visitStep (visits vars) acc.
Proof.
  induction vars as [|var rest IH]; intros acc; [reflexivity|].
  cbn [fold_left visits flat_map]. rewrite fold_left_app, IH. f_equal.
  rewrite aggregateStep_eq. destruct (fractional var); [|reflexivity].
  unfold addTour. rewrite fold_left_map. reflexivity.
Qed.

Lemma filter_snoc {A} (f : A -> bool) l x :
  filter f (l ++ [x]) = filter f l ++ (if f x then [x] else []).
Proof. rewrite filter_app. reflexivity. Qed.

Lemma existsb_snoc {A} (f : A -> bool) l x :
  existsb f (l ++ [x]) = existsb f l || f x.
Proof. rewrite existsb_app. simpl. rewrite orb_false_r. reflexivity. Qed.

Lemma filter_nil_existsb {A} (f : A -> bool) l :
  filter f l = [] <-> existsb f l = false.
Proof.
  induction l as [|x l IH]; simpl; [tauto|].
  destruct (f x); simpl; [split; discriminate|exact IH].
Qed.

(** The weights after the visits [evs], from the zero arrays. *)
Lemma visits_vals (evs : list (Z * Z * R)) : forall acc c d,
  VeAssVals (fold_left visitStep evs acc) c d
  = sumFrom (VeAssVals acc c d) (map snd (filter (visitOf c d) evs)).
Proof.
  induction evs as [|[[u d0] lp] evs IH]; intros acc c d; [reflexivity|].
  cbn [fold_left filter]. rewrite IH.
  unfold visitStep, addVisit, visitOf at 2. cbn [fst snd VeAssVals].
  unfold upd2. rewrite (Z.eqb_sym u c), (Z.eqb_sym d0 d).
  destruct ((c =? u) && (d =? d0)) eqn:E; [|reflexivity].
  apply andb_true_iff in E as [E1 E2].
  apply Z.eqb_eq in E1, E2. subst. reflexivity.
Qed.

Lemma filter_flip {A} (f f' : A -> bool) (d : A) (l : list A) :
  NoDup l -> In d l -> f d = false -> f' d = true ->
  (forall x, x <> d -> f' x = f x) ->
  length (filter f' l) = S (length (filter f l)).
Proof.
  intros ND Hin Hf Hf' Hext.
  induction l as [|x l IH]; [destruct Hin|].
  inversion ND as [|y z Hni ND']; subst. simpl.
  destruct Hin as [->|Hin].
  - rewrite Hf, Hf'. simpl. f_equal. f_equal.
    apply filter_ext_in. intros y Hy. apply Hext. intros ->. contradiction.
  - assert (x <> d) by (intros ->; contradiction).
    rewrite (Hext x H). destruct (f x); simpl; rewrite (IH ND' Hin);
      reflexivity.
Qed.

Section Counting.

Variable nDays : Z.
Hypothesis Hacc : accumulates.

(** The visit adds a value that passes the engine's test, on a day of the
    model. *)
Let valid (e : Z * Z * R) : Prop :=
  SCIPisSumPositive (snd e) = true /\ 0 <= snd (fst e) < nDays.

(** The arrays after the visits [evs]. *)
Let counted (evs : list (Z * Z * R)) (acc : Assignment R) : Prop :=
  (forall c d, VeAssVals acc c d
               = sumFrom real_zero (map snd (filter (visitOf c d) evs)))
  /\ forall c, numOfDays acc c
               = Z.of_nat (length (filter (fun d => existsb (visitOf c d) evs)
                                     (range nDays))).

Lemma counted_step evs acc e :
  Forall valid evs -> valid e -> counted evs acc ->
  counted (evs ++ [e]) (visitStep acc e).
Proof.
  intros Hevs [Hlp Hd] [HV HN]. destruct e as [[u d] lp].
  cbn [fst snd] in *. split.
  - intros c d'. rewrite filter_snoc, map_app. unfold sumFrom.
    rewrite fold_left_app. fold (sumFrom real_zero
      (map snd (filter (visitOf c d') evs))). rewrite <- HV.
    unfold visitStep, addVisit, visitOf at 1. cbn [fst snd VeAssVals].
    unfold upd2. rewrite (Z.eqb_sym u c), (Z.eqb_sym d d').
    destruct ((c =? u) && (d' =? d)) eqn:E; [|reflexivity].
    apply andb_true_iff in E as [E1 E2].
    apply Z.eqb_eq in E1, E2. subst. reflexivity.
  - intros c.
    assert (Hother : forall x, x <> d \/ c <> u ->
              existsb (visitOf c x) (evs ++ [(u, d, lp)])
              = existsb (visitOf c x) evs).
    { intros x Hx. rewrite existsb_snoc. unfold visitOf at 2.
      cbn [fst snd].
      destruct (Z.eqb_spec u c), (Z.eqb_spec d x); cbn [andb];
        try apply orb_false_r.
      exfalso. destruct Hx; congruence. }
    unfold visitStep, addVisit. cbn [fst snd numOfDays].
    destruct (Z.eq_dec c u) as [->|Hc].
    + set (L := map snd (filter (visitOf u d) evs)).
      assert (HL : Forall (fun x => SCIPisSumPositive x = true) L).
      { unfold L. apply Forall_forall. intros x Hx.
        apply in_map_iff in Hx as (e & <- & He).
        apply filter_In in He as [He _].
        rewrite Forall_forall in Hevs. exact (proj1 (Hevs e He)). }
      rewrite (HV u d). fold L.
      destruct (existsb (visitOf u d) evs) eqn:Ex.
      * assert (Hne : L <> []).
        { unfold L. intros E. apply map_eq_nil in E.
          apply filter_nil_existsb in E. congruence. }
        rewrite (proj2 Hacc L Hne HL), HN. do 2 f_equal.
        apply filter_ext. intros x.
        destruct (Z.eq_dec x d) as [->|Hx];
          [|symmetry; apply Hother; auto].
        rewrite existsb_snoc, Ex. reflexivity.
      * assert (He : L = []).
        { unfold L. apply filter_nil_existsb in Ex. rewrite Ex.
          reflexivity. }
        rewrite He. cbn [sumFrom fold_left]. rewrite (proj1 Hacc).
        unfold upd. rewrite Z.eqb_refl, HN.
        rewrite (filter_flip (fun x => existsb (visitOf u x) evs)
                   (fun x => existsb (visitOf u x) (evs ++ [(u, d, lp)])) d);
          [lia|apply range_NoDup|apply in_range; exact Hd|exact Ex| |].
        -- rewrite existsb_snoc. unfold visitOf at 2. cbn [fst snd].
           rewrite !Z.eqb_refl. apply orb_true_r.
        -- intros x Hx. apply Hother. auto.
    + assert (E : (if SCIPisZero (VeAssVals acc u d)
                   then upd (numOfDays acc) u (numOfDays acc u + 1)
                   else numOfDays acc) c = numOfDays acc c).
      { destruct (SCIPisZero _); [|reflexivity]. unfold upd.
        destruct (Z.eqb_spec c u); [contradiction|reflexivity]. }
      rewrite E, HN. do 2 f_equal. apply filter_ext. intros x.
      symmetry. apply Hother. auto.
Qed.

Lemma counted_fold todo : forall evs acc,
  Forall valid (evs ++ todo) -> counted evs acc ->
  counted (evs ++ todo) (fold_left visitStep todo acc).
Proof.
  induction todo as [|e todo IH]; intros evs acc Hv I; cbn [fold_left].
  - rewrite app_nil_r. exact I.
  - replace (evs ++ e :: todo) with ((evs ++ [e]) ++ todo) in *
      by (rewrite <- app_assoc; reflexivity).
    apply IH; [exact Hv|].
    apply Forall_app in Hv as [Hv _]. apply Forall_app in Hv as [Hv He].
    apply counted_step; [exact Hv|inversion He; assumption|exact I].
Qed.

Lemma visits_valid (vars : list (LPVar R)) :
  (forall var, In var vars -> 0 <= tday var < nDays) ->
  Forall valid (visits vars).
Proof.
  intros Hdays. apply Forall_forall. intros e He.
  apply in_flat_map in He as (var & Hvar & He).
  destruct (fractional var) eqn:F; [|destruct He].
  apply in_map_iff in He as (c & <- & _). split; cbn [fst snd].
  - unfold fractional in F. apply andb_true_iff in F as [F _]. exact F.
  - apply Hdays, Hvar.
Qed.

Lemma aggregate_counts (vars : list (LPVar R)) :
  (forall var, In var vars -> 0 <= tday var < nDays) ->
  forall c, numOfDays (aggregate vars) c = visitedDays nDays vars c.
Proof.
  intros Hdays c. unfold aggregate. rewrite aggregate_visits.
  destruct (counted_fold (visits vars) [] zeroAssignment) as [_ HN].
  - apply visits_valid, Hdays.
  - split; [reflexivity|]. intros c'. cbn.
    induction (range nDays) as [|x l IH]; [reflexivity|exact IH].
  - exact (HN c).
Qed.

End Counting.

(** The weights the first loop leaves, whatever the arithmetic. *)
Lemma aggregate_vals (vars : list (LPVar R)) c d :
  VeAssVals (aggregate vars) c d = sumFrom real_zero (contributions vars c d).
Proof.
  unfold aggregate. rewrite aggregate_visits, visits_vals. reflexivity.
Qed.

End Aggregation.

Section Children.
Import Branching.
Context {R : Type} {num : SCIP_Real R}.

(** The records of the two children carry the pair selected. *)
Lemma branch_eq nC nDays (vars : list (LPVar R)) :
  branchExeclpVehicleAss nC nDays vars
  = match selectPair nC nDays (aggregate vars) with
    | Some (c, d) =>
        Some (ConsVA.mkConsData c d ConsVA.VA_PROHIBIT 0 0 false,
              ConsVA.mkConsData c d ConsVA.VA_ENFORCE 0 0 false)
    | None => None
    end.
Proof.
  unfold branchExeclpVehicleAss.
  destruct (selectPair nC nDays (aggregate vars)) as [[c d]|] eqn:E;
    [|reflexivity].
  destruct (selectPair_later _ _ _ _ _ E) as (Hr & _).
  cbn [fst snd]. unfold ConsVA.consdataCreate.
  assert (A1 : (0 <=? c) = true) by (apply Z.leb_le; lia).
  assert (A2 : (0 <=? d) = true) by (apply Z.leb_le; lia).
  rewrite A1, A2. reflexivity.
Qed.

Lemma branch_some nC nDays (vars : list (LPVar R)) cp ce :
  branchExeclpVehicleAss nC nDays vars = Some (cp, ce) ->
  exists c d,
    selectPair nC nDays (aggregate vars) = Some (c, d)
    /\ cp = ConsVA.mkConsData c d ConsVA.VA_PROHIBIT 0 0 false
    /\ ce = ConsVA.mkConsData c d ConsVA.VA_ENFORCE 0 0 false.
Proof.
  rewrite branch_eq.
  destruct (selectPair nC nDays (aggregate vars)) as [[c d]|];
    [|discriminate].
  intros H. inversion H. eauto.
Qed.

End Children.

(** The laws of the rational arithmetic. *)
Section RationalLaws.

Lemma Qsum_above (l : list Q) : forall x,
  (0 <= x)%Q -> l <> [] ->
  Forall (fun y => SCIPisSumPositive y = true) l ->
  (Qsumepsilon < sumFrom x l)%Q.
Proof.
  unfold sumFrom.
  induction l as [|y l IH]; intros x Hx Hne HF; [congruence|].
  inversion HF as [|y' l' Hy HF']; subst. cbn [fold_left real_add Rational].
  cbn in Hy. apply Qltb_true in Hy.
  destruct l as [|z l]; [cbn; lra|].
  apply IH; [|discriminate|exact HF'].
  unfold Qsumepsilon in Hy. lra.
Qed.

Lemma Rational_accumulates : accumulates (R := Q).
Proof.
  split; [reflexivity|]. intros l Hne HF.
  pose proof (Qsum_above l (@real_zero Q Rational) (Qle_refl 0) Hne HF) as H.
  cbn [SCIPisZero Rational]. apply not_true_is_false. intros E.
  apply Qle_bool_iff in E.
  pose proof (Qle_Qabs (sumFrom real_zero l)) as A.
  unfold Qsumepsilon, Qepsilon in *. lra.
Qed.

Lemma Rational_sumsNonnegative : sumsNonnegative (R := Q).
Proof.
  intros l HF. cbn [real_geb Rational]. apply Qle_bool_iff.
  destruct l as [|y l]; [apply Qle_refl|].
  pose proof (Qsum_above (y :: l) (@real_zero Q Rational) (Qle_refl 0)
                ltac:(discriminate) HF) as H.
  apply Qlt_le_weak. refine (Qlt_trans _ _ _ _ H). reflexivity.
Qed.

End RationalLaws.

(** C6, as stated, fails: a pair whose aggregated weight is exactly one
    half is not skipped as integral; it is at distance zero from one half
    and is selected.  In binary64 arithmetic with the engine's default
    tolerances, with customer 0 at weights 0.25 and 0.75 and customer 1 at
    weight 0.5 on both days, the rule branches on (1, 0), not on the
    next-closest pair (0, 0), whose weight is not integral either. *)
Lemma C6_counterexample :
  Branching.VeAssVals (Branching.aggregate Sample.lpVars) 1 0 = 0.5%float
  /\ Branching.VeAssVals (Branching.aggregate Sample.lpVars) 0 0
     = 0.25%float
  /\ integral (Branching.aggregate Sample.lpVars) (0, 0) = false
  /\ Branching.selectPair 3 2 (Branching.aggregate Sample.lpVars)
     = Some (1, 0)
  /\ Branching.branchExeclpVehicleAss 3 2 Sample.lpVars
     = Some (ConsVA.mkConsData 1 0 ConsVA.VA_PROHIBIT 0 0 false,
             ConsVA.mkConsData 1 0 ConsVA.VA_ENFORCE 0 0 false).
Proof. repeat split; vm_compute; reflexivity. Qed.

(** C6 (amended).  The values are doubles and the comparisons are the
    engine's, so the statement is made for any arithmetic and any
    tolerances.  The first loop of the branching rule leaves in
    [VeAssVals[c][d]] the sum, taken in the order of the columns, of the LP
    values of the fractional columns running on day [d], once for every
    visit of [c]; when the zero test of the engine tells an empty sum from a
    sum of such values and the columns run on days of the model,
    [numOfDays[c]] is the number of days on which a fractional column visits
    [c].  When the rule branches, both children carry the same pair,
    PROHIBIT and ENFORCE; the pair is a non-depot customer and a day of the
    model; its weight is not integral for the loop (its distance to one half
    does not test equal to one half), and the loop passed over every pair it
    scanned later: the weight of such a pair is integral, or its distance
    tests greater than that of the selected pair, or equal to it with a
    count of days that is not larger.  When moreover the comparisons are
    decisive on the distances of the model, the selected pair is closer to
    one half than one half and, among all pairs of the model whose weight is
    not integral, it minimises the distance to one half, no pair at the same
    distance having a customer with a larger count of days; and the rule
    branches whenever some pair is closer to one half than one half and no
    such pair lies in the depot row.  A weight of exactly one half is not
    skipped: it is the closest there is. *)
Theorem C6_selection {R : Type} {num : SCIP_Real R}
    (nC nDays : Z) (vars : list (Branching.LPVar R)) :
  let a := Branching.aggregate vars in
  (forall c d,
     Branching.VeAssVals a c d = sumFrom real_zero (contributions vars c d))
  /\ (accumulates ->
      (forall var, In var vars -> 0 <= Branching.tday var < nDays) ->
      forall c, Branching.numOfDays a c = visitedDays nDays vars c)
  /\ (forall cp ce,
        Branching.branchExeclpVehicleAss nC nDays vars = Some (cp, ce) ->
        exists c d,
          cp = ConsVA.mkConsData c d ConsVA.VA_PROHIBIT 0 0 false
          /\ ce = ConsVA.mkConsData c d ConsVA.VA_ENFORCE 0 0 false
          /\ (0 <= c < nC - 1 /\ 0 <= d < nDays)
          /\ integral a (c, d) = false
          /\ (forall i j, 0 <= i < nC -> 0 <= j < nDays ->
                scannedBefore (c, d) (i, j) -> keeps a (c, d) (i, j) = true)
          /\ (forall value, decisive a nC nDays value ->
                (value (Branching.cur_val a c d) < value real_half)%Q
                /\ forall i j, 0 <= i < nC -> 0 <= j < nDays ->
                     integral a (i, j) = false ->
                     (value (Branching.cur_val a c d)
                      <= value (Branching.cur_val a i j))%Q
                     /\ ((value (Branching.cur_val a c d)
                          == value (Branching.cur_val a i j))%Q ->
                         Branching.numOfDays a i
                         <= Branching.numOfDays a c)))
  /\ (forall value, decisive a nC nDays value ->
      (exists i j, 0 <= i < nC /\ 0 <= j < nDays
                   /\ (value (Branching.cur_val a i j) < value real_half)%Q) ->
      (forall j, 0 <= j < nDays ->
         ~ (value (Branching.cur_val a (nC - 1) j) < value real_half)%Q) ->
      exists cp ce,
        Branching.branchExeclpVehicleAss nC nDays vars = Some (cp, ce)).
Proof.
  intros a. split; [intros c d; apply aggregate_vals|].
  split; [intros Hacc Hdays; apply aggregate_counts; assumption|].
  split.
  - intros cp ce H.
    destruct (branch_some _ _ _ _ _ H) as (c & d & E & -> & ->).
    fold a in E.
    destruct (selectPair_later a nC nDays c d E) as (Hr & Hi & Hl).
    exists c, d. split; [reflexivity|]. split; [reflexivity|].
    split; [exact Hr|]. split; [exact Hi|]. split; [exact Hl|].
    intros value Hdec.
    destruct (proj1 (selectPair_decisive a nC nDays value Hdec) c d E)
      as (P1 & P2 & _).
    split; [exact P1|exact P2].
  - intros value Hdec H1 H2.
    destruct (proj2 (selectPair_decisive a nC nDays value Hdec) H1 H2)
      as (c & d & E).
    rewrite branch_eq. fold a. rewrite E. eauto.
Qed.

Section SampleDistances.

(** On the sample columns, read over the rationals, the comparisons of the
    engine are decisive: the distances are 1/4, 0 and 1/2. *)
Lemma sample_decisive :
  decisive (Branching.aggregate Sample.lpVarsQ) 3 2 (fun x => x).
Proof.
  assert (D : forall x,
            distanceOf (Branching.aggregate Sample.lpVarsQ) 3 2 x ->
            x = (1 # 2)%Q
            \/ x = Branching.cur_val (Branching.aggregate Sample.lpVarsQ) 0 0
            \/ x = Branching.cur_val (Branching.aggregate Sample.lpVarsQ) 0 1
            \/ x = Branching.cur_val (Branching.aggregate Sample.lpVarsQ) 1 0
            \/ x = Branching.cur_val (Branching.aggregate Sample.lpVarsQ) 1 1
            \/ x = Branching.cur_val (Branching.aggregate Sample.lpVarsQ) 2 0
            \/ x = Branching.cur_val (Branching.aggregate Sample.lpVarsQ) 2 1).
  { intros x [->|(p & Hp & ->)]; [left; reflexivity|right].
    cbn in Hp.
    repeat (destruct Hp as [<-|Hp]; [cbn [fst snd]; auto 10|]).
    destruct Hp. }
  intros x y Hx Hy.
  destruct (D x Hx) as [->|[->|[->|[->|[->|[->| ->]]]]]];
    destruct (D y Hy) as [->|[->|[->|[->|[->|[->| ->]]]]]];
    vm_compute; (split; split; intros H;
                 first [reflexivity|discriminate H]).
Qed.

End SampleDistances.

(** An instance over the rationals, where the comparisons are decisive on
    the sample columns: the rule branches on customer 1 and day 0, at
    distance zero from one half, and customer 1 is visited on two days. *)
Lemma C6_selection_witness :
  exists c d,
    Branching.branchExeclpVehicleAss 3 2 Sample.lpVarsQ
    = Some (ConsVA.mkConsData c d ConsVA.VA_PROHIBIT 0 0 false,
            ConsVA.mkConsData c d ConsVA.VA_ENFORCE 0 0 false)
    /\ (Branching.cur_val (Branching.aggregate Sample.lpVarsQ) c d
        < 1 # 2)%Q
    /\ Branching.numOfDays (Branching.aggregate Sample.lpVarsQ) c
       = visitedDays 2 Sample.lpVarsQ c.
Proof.
  destruct (C6_selection 3 2 Sample.lpVarsQ) as (_ & Hnum & Hsel & _).
  destruct (Hsel _ _ eq_refl) as (c & d & E1 & E2 & _ & _ & _ & Hdec).
  exists c, d. split; [|split].
  - inversion E1; subst. reflexivity.
  - exact (proj1 (Hdec (fun x => x) sample_decisive)).
  - apply (Hnum Rational_accumulates).
    intros var [<-|[<-|[<-|[<-|[]]]]]; cbn; lia.
Defined.

(* ================================================================== *)
(** * Part III. Further properties of the three files                  *)
(* ================================================================== *)

(* ------------------------------------------------------------------ *)
(** ** What the consistency check does guarantee                       *)
(* ------------------------------------------------------------------ *)

Section CheckGuarantee.
Import ConsVA.

Lemma feasibleb_true var : feasibleb var = true <-> (half <= ubLocal var)%Q.
Proof. unfold feasibleb. rewrite negb_true_iff. apply Qltb_false. Qed.

Lemma checkScan_values consdata vars b :
  checkScan consdata vars = Some b -> b = FALSE \/ b = TRUE.
Proof.
  induction vars as [|var rest IH]; simpl.
  - intros H. inversion H. right. reflexivity.
  - destruct (Qltb (ubLocal var) half); [exact IH|].
    destruct (customerAndDayInVar _ _ _) as [s|]; [|discriminate].
    destruct (s =? 0); [intros H; inversion H; right; reflexivity|].
    destruct (verdictHit _ _); [intros H; inversion H; left; reflexivity|].
    exact IH.
Qed.

Lemma checkScan_false consdata vars :
  checkScan consdata vars = Some FALSE ->
  exists var, In var vars /\ violates consdata var.
Proof.
  induction vars as [|var rest IH]; simpl; [discriminate|].
  destruct (Qltb (ubLocal var) half) eqn:Hub.
  { intros H. destruct (IH H) as (v & Hin & Hv). exists v. auto. }
  destruct (customerAndDayInVar var (customer consdata) (day consdata))
    as [s|] eqn:Es; [|discriminate].
  destruct (s =? 0); [discriminate|].
  destruct (verdictHit _ _) eqn:Hhit.
  - intros _. exists var. split; [left; reflexivity|]. split.
    + apply Qltb_false. exact Hub.
    + apply hitByb_true. unfold hitByb. rewrite Es. exact Hhit.
  - intros H. destruct (IH H) as (v & Hin & Hv). exists v. auto.
Qed.

Lemma checkScan_complete consdata vars b :
  checkScan consdata vars = Some b ->
  (forall var, In var vars -> (half <= ubLocal var)%Q ->
     customerAndDayInVar var (customer consdata) (day consdata) <> Some 0) ->
  (exists var, In var vars /\ violates consdata var) ->
  b = FALSE.
Proof.
  induction vars as [|var rest IH]; intros E Hnz (v & Hin & Hub & Hhit);
    [destruct Hin|].
  simpl in E. destruct (Qltb (ubLocal var) half) eqn:Eub.
  - apply (IH E); [intros x Hx; apply Hnz; right; exact Hx|].
    destruct Hin as [->|Hin]; [|exists v; repeat split; auto].
    apply Qltb_true in Eub. exfalso. exact (Qlt_not_le _ _ Eub Hub).
  - apply Qltb_false in Eub.
    destruct (customerAndDayInVar var (customer consdata) (day consdata))
      as [s|] eqn:Es; [|discriminate].
    destruct (Z.eqb_spec s 0) as [E0|_].
    { subst s. destruct (Hnz var (or_introl eq_refl) Eub Es). }
    destruct (verdictHit _ _) eqn:Ehit; [inversion E; reflexivity|].
    apply (IH E); [intros x Hx; apply Hnz; right; exact Hx|].
    destruct Hin as [->|Hin]; [|exists v; repeat split; auto].
    apply hitByb_true in Hhit. unfold hitByb in Hhit. rewrite Es in Hhit.
    congruence.
Qed.

End CheckGuarantee.

(** X1.  [consdataCheck] answers FALSE or TRUE.  It never raises a false
    alarm: when it answers FALSE, one of the columns it looks at is
    feasible and ruled out by the record.  It is exact when no feasible
    column it looks at is answered 0 by the classifier: then a feasible
    column ruled out by the record makes it answer FALSE. *)
Theorem X1_consdataCheck_no_false_alarm
    (vars : list ConsVA.SCIP_VAR) (consdata : ConsVA.SCIP_CONSDATA)
    (beforeprop : bool) (b : ConsVA.SCIP_Bool) :
  ConsVA.consdataCheck vars consdata beforeprop = Some b ->
  (b = ConsVA.FALSE \/ b = ConsVA.TRUE)
  /\ (b = ConsVA.FALSE ->
      exists var, In var (checkedVars vars consdata beforeprop)
                  /\ violates consdata var)
  /\ ((forall var, In var (checkedVars vars consdata beforeprop) ->
         (half <= ConsVA.ubLocal var)%Q ->
         ConsVA.customerAndDayInVar var (ConsVA.customer consdata)
           (ConsVA.day consdata) <> Some 0) ->
      (exists var, In var (checkedVars vars consdata beforeprop)
                   /\ violates consdata var) ->
      b = ConsVA.FALSE).
Proof.
  unfold ConsVA.consdataCheck, checkedVars. intros H.
  destruct (assert _); [|discriminate].
  split; [exact (checkScan_values _ _ _ H)|]. split.
  - intros ->. exact (checkScan_false _ _ H).
  - exact (checkScan_complete _ _ _ H).
Qed.

(** An instance: the check of ENFORCE(3, 2) over a column serving customer
    3 on day 1 answers FALSE, and that column is the one ruled out. *)
Lemma X1_consdataCheck_no_false_alarm_witness :
  exists var, In var [Sample.otherDayVar]
              /\ violates Sample.enforce32 var.
Proof.
  exact (proj1 (proj2 (X1_consdataCheck_no_false_alarm
                         [Sample.otherDayVar] Sample.enforce32 false
                         ConsVA.FALSE eq_refl)) eq_refl).
Defined.

(* ------------------------------------------------------------------ *)
(** ** Propagating twice                                               *)
(* ------------------------------------------------------------------ *)

Section Idempotence.
Import ConsVA.

Lemma propLoop_propagated conss : forall vars r out,
  Forall (fun c => propagated c = true) conss ->
  propLoop conss vars r = Some out -> out = (conss, vars, r).
Proof.
  induction conss as [|c later IH]; intros vars r out HF H; simpl in H.
  - inversion H. reflexivity.
  - inversion HF as [|x l Hp HF']; subst.
    destruct (assertCheck vars c true); [|discriminate].
    destruct (assert _); [|discriminate].
    rewrite Hp in H. simpl in H.
    destruct (assertCheck vars c false); [|discriminate].
    destruct (propLoop later vars r) as [[[l' v'] r']|] eqn:E;
      [|discriminate].
    apply (IH _ _ _ HF') in E. inversion E; subst. inversion H. reflexivity.
Qed.

Lemma advanced_propagated n c : propagated (advanced n c) = true.
Proof. unfold advanced. destruct (propagated c) eqn:E; [exact E|reflexivity]. Qed.

End Idempotence.

(** X2.  Propagation is idempotent: after a propagation that did not end
    in CUTOFF, a second propagation over the records and columns it left
    either trips an assertion or changes no record, fixes no column and
    reports nothing found. *)
Theorem X2_propagation_idempotent
    (conss conss' : list ConsVA.SCIP_CONSDATA)
    (vars vars' : list ConsVA.SCIP_VAR) (result : ConsVA.SCIP_RESULT) :
  ConsVA.consPropVehicleAss conss vars = Some (conss', vars', result) ->
  result <> ConsVA.SCIP_CUTOFF ->
  forall out,
    ConsVA.consPropVehicleAss conss' vars' = Some out ->
    out = (conss', vars', ConsVA.SCIP_DIDNOTFIND).
Proof.
  intros H Hr out H2. unfold ConsVA.consPropVehicleAss in *.
  destruct (propLoop_spec _ _ _ _ _ _ H eq_refl) as (_ & _ & HN & _).
  assert (Hr' : ConsVA.is_cutoff result = false)
    by (destruct result; simpl; congruence).
  destruct (HN Hr') as (N1 & _).
  apply (propLoop_propagated _ _ _ _) in H2; [exact H2|].
  rewrite N1. apply Forall_forall. intros c Hc.
  apply in_map_iff in Hc as (c0 & <- & _). apply advanced_propagated.
Qed.

(** An instance: the second propagation after scenario 3 of the
    specification goes through and changes nothing. *)
Lemma X2_propagation_idempotent_witness :
  ConsVA.consPropVehicleAss [advanced 1 Sample.enforce32]
    [zeroFixed Sample.otherDayVar]
  = Some ([advanced 1 Sample.enforce32], [zeroFixed Sample.otherDayVar],
          ConsVA.SCIP_DIDNOTFIND).
Proof.
  destruct (ConsVA.consPropVehicleAss [advanced 1 Sample.enforce32]
              [zeroFixed Sample.otherDayVar]) as [out|] eqn:E.
  - rewrite (X2_propagation_idempotent
               [Sample.enforce32] [advanced 1 Sample.enforce32]
               [Sample.otherDayVar] [zeroFixed Sample.otherDayVar]
               ConsVA.SCIP_REDUCEDDOM eq_refl ltac:(discriminate) out E).
    reflexivity.
  - vm_compute in E. discriminate.
Defined.

(* ------------------------------------------------------------------ *)
(** ** Deactivation, re-activation and the next propagation            *)
(* ------------------------------------------------------------------ *)

Section Lifecycle.
Import ConsVA.

Lemma fixableb_same cd cd' var :
  customer cd = customer cd' -> day cd = day cd' -> type cd = type cd' ->
  fixableb cd var = fixableb cd' var.
Proof. unfold fixableb, hitByb. intros -> -> ->. reflexivity. Qed.

Lemma contradictsb_same cd cd' var :
  customer cd = customer cd' -> day cd = day cd' -> type cd = type cd' ->
  contradictsb cd var = contradictsb cd' var.
Proof. unfold contradictsb, hitByb. intros -> -> ->. reflexivity. Qed.

Lemma skipn_length_app {A} (l1 l2 : list A) :
  skipn (length l1) (l1 ++ l2) = l2.
Proof. induction l1; simpl; auto. Qed.

Lemma firstn_length_app {A} (l1 l2 : list A) :
  firstn (length l1) (l1 ++ l2) = l1.
Proof. induction l1; simpl; [reflexivity|f_equal; auto]. Qed.

Lemma consdataFixVariables_prefix cd vars r out :
  consdataFixVariables cd vars r = Some out ->
  (scanStart cd <= length vars)%nat ->
  firstn (scanStart cd) (fst out) = firstn (scanStart cd) vars.
Proof.
  unfold consdataFixVariables. fold (scanStart cd). intros E Hle.
  destruct (scanVars cd _ 0 false) as [[[s n] c]|]; [|discriminate].
  inversion E; subst out. cbn [fst].
  rewrite firstn_app, firstn_firstn, Nat.min_id, length_firstn.
  replace (scanStart cd - Nat.min (scanStart cd) (length vars))%nat
    with 0%nat by lia.
  simpl. apply app_nil_r.
Qed.

(** One record whose last-checked index is the length of [old], run over
    [old ++ new]. *)
Lemma propagate_from_index cd old new conss' vars' r :
  npropagatedvars cd = Z.of_nat (length old) ->
  consPropVehicleAss [cd] (old ++ new) = Some (conss', vars', r) ->
  (propagated cd = true -> vars' = old ++ new /\ r = SCIP_DIDNOTFIND)
  /\ (propagated cd = false ->
      (r = SCIP_CUTOFF <-> existsb (contradictsb cd) new = true)
      /\ (r <> SCIP_CUTOFF -> vars' = old ++ map (fixOne cd) new)
      /\ firstn (length old) vars' = old).
Proof.
  intros Hn H. unfold consPropVehicleAss in H. cbn [propLoop] in H.
  destruct (assertCheck (old ++ new) cd true); [|discriminate].
  cbn [noEqualConsdata forallb assert] in H.
  assert (Hs : scanStart cd = length old)
    by (unfold scanStart; rewrite Hn; apply Nat2Z.id).
  destruct (propagated cd) eqn:Hp; cbn [negb] in H.
  - destruct (assertCheck (old ++ new) cd false); [|discriminate].
    inversion H; subst. split; [auto|discriminate].
  - split; [discriminate|]. intros _.
    destruct (consdataFixVariables cd (old ++ new) SCIP_DIDNOTFIND)
      as [fixing|] eqn:Efix; [|discriminate].
    pose proof (consdataFixVariables_prefix cd (old ++ new) SCIP_DIDNOTFIND
                  fixing Efix) as Hpre.
    rewrite Hs, firstn_length_app in Hpre.
    specialize (Hpre ltac:(rewrite length_app; lia)).
    destruct (existsb (contradictsb cd) (skipn (scanStart cd) (old ++ new)))
      eqn:Hc.
    + destruct (consdataFixVariables_cut cd (old ++ new) SCIP_DIDNOTFIND
                  fixing Efix Hc) as (v' & E & _ & _).
      rewrite E in H, Hpre. cbn in H. inversion H; subst.
      rewrite Hs, skipn_length_app in Hc.
      split; [tauto|]. split; [congruence|exact Hpre].
    + rewrite (consdataFixVariables_nocut _ _ _ _ Efix Hc) in H, Hpre.
      cbn [fst] in Hpre.
      rewrite Hs, skipn_length_app in Hc.
      assert (Hr : forall b : bool,
                is_cutoff (if b then SCIP_REDUCEDDOM else SCIP_DIDNOTFIND)
                = false) by (intros []; reflexivity).
      rewrite Hr in H. cbn [negb] in H.
      destruct (assertCheck _ _ false); [|discriminate].
      cbn in H. inversion H; subst.
      split; [|split; [|exact Hpre]].
      * rewrite Hc. destruct (existsb _ _); split; discriminate.
      * intros _. unfold fixFrom.
        rewrite Hs, firstn_length_app, skipn_length_app. reflexivity.
Qed.

End Lifecycle.

(** X3.  A record deactivated when the problem held the columns [old] and
    re-activated when it holds [old ++ new] asks for a new propagation
    exactly when [new] is not empty, and is then marked unpropagated.  The
    propagation that follows leaves the columns of [old] alone: it reports
    a cutoff exactly when a column of [new] contradicts the record, and
    otherwise fixes those columns of [new] that the record can fix. *)
Theorem X3_reactivation_scans_new_columns
    (cd cd1 cd2 : ConsVA.SCIP_CONSDATA) (old new : list ConsVA.SCIP_VAR)
    (nchildren : Z) (reprop : bool)
    (conss' : list ConsVA.SCIP_CONSDATA) (vars' : list ConsVA.SCIP_VAR)
    (r : ConsVA.SCIP_RESULT) :
  Callbacks.consDeactiveVehicleAss (Z.of_nat (length old)) nchildren cd
  = Some cd1 ->
  Callbacks.consActiveVehicleAss (Z.of_nat (length (old ++ new))) cd1
  = Some (cd2, reprop) ->
  ConsVA.consPropVehicleAss [cd2] (old ++ new) = Some (conss', vars', r) ->
  (reprop = true <-> new <> [])
  /\ (reprop = true -> ConsVA.propagated cd2 = false)
  /\ firstn (length old) vars' = old
  /\ (r = ConsVA.SCIP_CUTOFF <-> exists var, In var new /\ contradicts cd var)
  /\ (r <> ConsVA.SCIP_CUTOFF -> vars' = old ++ map (fixOne cd) new).
Proof.
  intros HD HA HP.
  unfold Callbacks.consDeactiveVehicleAss in HD.
  destruct (assert _) in HD; [|discriminate]. cbn in HD.
  inversion HD; subst cd1; clear HD.
  unfold Callbacks.consActiveVehicleAss in HA.
  cbn [ConsVA.npropagatedvars ConsVA.customer ConsVA.day ConsVA.type
       ConsVA.npropagations ConsVA.propagated] in HA.
  destruct (assert _) in HA; [|discriminate].
  assert (Hnew : (Z.of_nat (length old) =? Z.of_nat (length (old ++ new)))
                 = true <-> new = []).
  { rewrite Z.eqb_eq, length_app. split.
    - intros E. destruct new; [reflexivity|simpl in E; lia].
    - intros ->. simpl. lia. }
  assert (Hsame : ConsVA.customer cd2 = ConsVA.customer cd
                  /\ ConsVA.day cd2 = ConsVA.day cd
                  /\ ConsVA.type cd2 = ConsVA.type cd
                  /\ ConsVA.npropagatedvars cd2 = Z.of_nat (length old)
                  /\ (reprop = true <-> new <> [])
                  /\ (reprop = true -> ConsVA.propagated cd2 = false)).
  { destruct (Z.of_nat (length old) =? Z.of_nat (length (old ++ new)))
      eqn:E; cbn in HA; inversion HA; subst; cbn.
    - pose proof (proj1 Hnew eq_refl) as Hn0. subst new.
      split; [reflexivity|]. split; [reflexivity|]. split; [reflexivity|].
      split; [reflexivity|]. split; [|discriminate].
      split; [discriminate|]. intros Hn. destruct (Hn eq_refl).
    - split; [reflexivity|]. split; [reflexivity|]. split; [reflexivity|].
      split; [reflexivity|]. split; [|reflexivity].
      split; [|reflexivity]. intros _ Hn. apply Hnew in Hn. discriminate. }
  destruct Hsame as (S1 & S2 & S3 & S4 & S5 & S6).
  assert (Hfix : map (fixOne cd2) new = map (fixOne cd) new).
  { apply map_ext. intros var. unfold fixOne.
    rewrite (fixableb_same cd2 cd var S1 S2 S3). reflexivity. }
  assert (Hcut : existsb (contradictsb cd2) new = true
                 <-> exists var, In var new /\ contradicts cd var).
  { rewrite existsb_exists. split; intros (var & Hin & Hv); exists var;
      (split; [exact Hin|]).
    - apply contradictsb_true.
      rewrite <- (contradictsb_same cd2 cd var S1 S2 S3). exact Hv.
    - rewrite (contradictsb_same cd2 cd var S1 S2 S3).
      apply contradictsb_true. exact Hv. }
  destruct (propagate_from_index cd2 old new _ _ _ S4 HP) as [PT PF].
  split; [exact S5|]. split; [exact S6|].
  destruct (ConsVA.propagated cd2) eqn:Hp.
  - destruct (PT eq_refl) as [-> ->].
    assert (Hn : new = []).
    { destruct new as [|x l]; [reflexivity|].
      assert (reprop = true) by (apply S5; discriminate).
      specialize (S6 H). discriminate. }
    subst new. cbn [map]. rewrite !app_nil_r, firstn_all.
    split; [reflexivity|]. split; [|reflexivity].
    split; [discriminate|]. intros (var & [] & _).
  - destruct (PF eq_refl) as (P1 & P2 & P3).
    split; [exact P3|]. split.
    + rewrite P1. exact Hcut.
    + intros Hr. rewrite <- Hfix. apply P2, Hr.
Qed.

(** An instance: ENFORCE(3, 2) is deactivated with one column and
    re-activated after a column serving customer 3 on day 1 was priced in;
    the propagation fixes the new column and keeps the old one. *)
Lemma X3_reactivation_scans_new_columns_witness :
  [Sample.unrelatedVar; zeroFixed Sample.otherDayVar]
  = [Sample.unrelatedVar] ++ map (fixOne Sample.enforce32) [Sample.otherDayVar].
Proof.
  refine (proj2 (proj2 (proj2 (proj2
    (X3_reactivation_scans_new_columns
       Sample.enforce32
       (ConsVA.mkConsData 3 2 ConsVA.VA_ENFORCE 1 0 false)
       (ConsVA.mkConsData 3 2 ConsVA.VA_ENFORCE 1 0 false)
       [Sample.unrelatedVar] [Sample.otherDayVar] 0 true
       [ConsVA.mkConsData 3 2 ConsVA.VA_ENFORCE 2 1 true]
       [Sample.unrelatedVar; zeroFixed Sample.otherDayVar]
       ConsVA.SCIP_REDUCEDDOM eq_refl eq_refl eq_refl)))) _).
  discriminate.
Defined.

(* ------------------------------------------------------------------ *)
(** ** The two children of a branching                                 *)
(* ------------------------------------------------------------------ *)

(** X4.  The records that the branching rule attaches to its two children
    split the columns between them, whatever the arithmetic of the rule:
    among the columns whose tour passes the assertion of the classifier
    (no negative entry), no column is hit by both, and a column is hit by
    one of them exactly when it visits the selected customer or runs on the
    selected day.  The prohibiting child hits the columns that visit the
    customer on the day; the enforcing child hits the columns that visit
    the customer on another day and those that run on the day without the
    customer. *)
Theorem X4_children_split_columns {R : Type} {num : SCIP_Real R}
    (nC nDays : Z) (vars : list (Branching.LPVar R))
    (cp ce : ConsVA.SCIP_CONSDATA) :
  Branching.branchExeclpVehicleAss nC nDays vars = Some (cp, ce) ->
  ConsVA.customer ce = ConsVA.customer cp
  /\ ConsVA.day ce = ConsVA.day cp
  /\ forall var, validTour var ->
       let visits := In (ConsVA.customer cp) (ConsVA.customertour var) in
       let onDay := ConsVA.vday var = ConsVA.day cp in
       (hitBy cp var <-> visits /\ onDay)
       /\ (hitBy ce var <-> (visits /\ ~ onDay) \/ (~ visits /\ onDay))
       /\ ~ (hitBy cp var /\ hitBy ce var)
       /\ (hitBy cp var \/ hitBy ce var <-> visits \/ onDay).
Proof.
  intros H. destruct (branch_some _ _ _ _ _ H) as (c & d & _ & -> & ->).
  cbn.
  split; [reflexivity|]. split; [reflexivity|]. intros var Hvalid.
  destruct (customerAndDayInVar_valid var c d Hvalid) as [hit Es].
  destruct (customerAndDayInVar_cases var c d hit Es) as (H2 & H1 & H0).
  unfold hitBy. cbn. rewrite Es.
  assert (S2 : Some hit = Some 2 <-> hit = 2) by (split; congruence).
  assert (S1 : Some hit = Some 1 <-> hit = 1) by (split; congruence).
  rewrite S2, S1.
  destruct (In_Z_dec c (ConsVA.customertour var)) as [Hin|Hout];
    destruct (Z.eq_dec (ConsVA.vday var) d) as [Hd|Hd];
    intuition (try congruence; try discriminate; try lia).
Qed.

(** An instance: on the sample columns the rule branches on customer 1 and
    day 0; a column serving customer 1 on day 1 is hit by the enforcing
    child only. *)
Lemma X4_children_split_columns_witness :
  hitBy (ConsVA.mkConsData 1 0 ConsVA.VA_ENFORCE 0 0 false)
    (ConsVA.mkVar [1] 1 0%Q 1%Q)
  /\ ~ hitBy (ConsVA.mkConsData 1 0 ConsVA.VA_PROHIBIT 0 0 false)
         (ConsVA.mkVar [1] 1 0%Q 1%Q).
Proof.
  assert (E : Branching.branchExeclpVehicleAss 3 2 Sample.lpVars
              = Some (ConsVA.mkConsData 1 0 ConsVA.VA_PROHIBIT 0 0 false,
                      ConsVA.mkConsData 1 0 ConsVA.VA_ENFORCE 0 0 false))
    by (vm_compute; reflexivity).
  destruct (X4_children_split_columns 3 2 Sample.lpVars _ _ E)
    as (_ & _ & P).
  destruct (P (ConsVA.mkVar [1] 1 0%Q 1%Q)) as (Pp & Pe & _).
  { repeat constructor. lia. }
  split.
  - apply Pe. left. cbn. split; [auto|discriminate].
  - intros Hh. apply Pp in Hh. cbn in Hh. destruct Hh as [_ Hh].
    discriminate.
Defined.

(* ------------------------------------------------------------------ *)
(** ** When the branching rule cannot branch                           *)
(* ------------------------------------------------------------------ *)

Section BranchingAbort.
Import Branching.
Context {R : Type} {num : SCIP_Real R}.

Lemma aggregate_integral (vars : list (LPVar R)) : forall acc,
  (forall var, In var vars -> fractional var = false) ->
  fold_left aggregateStep vars acc = acc.
Proof.
  induction vars as [|var rest IH]; intros acc H; simpl; [reflexivity|].
  assert (E : aggregateStep acc var = acc).
  { rewrite aggregateStep_eq, (H var (or_introl eq_refl)). reflexivity. }
  rewrite E. apply IH. intros v Hv. apply H. right. exact Hv.
Qed.

End BranchingAbort.

(** X5.  The branching rule trips its assertion instead of branching when
    its search loop passes over every pair of the model with its initial
    best (distance one half, count zero): the weight of the pair is
    integral for the loop, or its distance tests greater than one half.
    This is the case whenever no column has a fractional LP value and the
    weight zero is integral for the loop.  Conversely, when the rule trips
    its assertion, either the loop passed over every pair in this way, or
    the last pair it took lies in the depot row. *)
Theorem X5_branching_without_candidate {R : Type} {num : SCIP_Real R}
    (nC nDays : Z) (vars : list (Branching.LPVar R)) :
  let a := Branching.aggregate vars in
  ((forall i j, 0 <= i < nC -> 0 <= j < nDays ->
      passedOver a real_half 0 (i, j) = true) ->
   Branching.branchExeclpVehicleAss nC nDays vars = None)
  /\ ((forall var, In var vars -> fractional var = false) ->
      SCIPisEQ (real_fabs (real_sub real_half real_zero)) real_half = true ->
      Branching.branchExeclpVehicleAss nC nDays vars = None)
  /\ (Branching.branchExeclpVehicleAss nC nDays vars = None ->
      (forall i j, 0 <= i < nC -> 0 <= j < nDays ->
         passedOver a real_half 0 (i, j) = true)
      \/ exists j, 0 <= j < nDays
           /\ integral a (nC - 1, j) = false
           /\ forall i' j', 0 <= i' < nC -> 0 <= j' < nDays ->
                scannedBefore (nC - 1, j) (i', j') ->
                keeps a (nC - 1, j) (i', j') = true).
Proof.
  intros a.
  assert (N : Branching.branchExeclpVehicleAss nC nDays vars = None
              <-> Branching.selectPair nC nDays a = None).
  { rewrite branch_eq. fold a.
    destruct (Branching.selectPair nC nDays a) as [[c d]|];
      split; congruence. }
  destruct (selectPair_none a nC nDays) as [S1 S2].
  split; [|split].
  - intros Hall. apply N, S1, Hall.
  - intros Hint Hzero. apply N, S1. intros i j _ _.
    unfold passedOver, a, Branching.aggregate. cbn [fst snd].
    rewrite (aggregate_integral vars _ Hint).
    unfold Branching.cur_val. cbn [Branching.VeAssVals Branching.zeroAssignment].
    rewrite Hzero. reflexivity.
  - intros H. apply S2, N, H.
Qed.

(** An instance in binary64 arithmetic: with one column at LP value 1 and
    one at 0 the rule does not branch. *)
Lemma X5_branching_without_candidate_witness :
  Branching.branchExeclpVehicleAss 3 2
    [Branching.mkLPVar 1%float [0; 1] 0; Branching.mkLPVar 0%float [1] 1]
  = None.
Proof.
  apply (proj1 (proj2 (X5_branching_without_candidate 3 2
           [Branching.mkLPVar 1%float [0; 1] 0;
            Branching.mkLPVar 0%float [1] 1]))).
  - intros var [<-|[<-|[]]]; vm_compute; reflexivity.
  - vm_compute. reflexivity.
Defined.

(* ------------------------------------------------------------------ *)
(** ** The arc matrix, exactly                                         *)
(* ------------------------------------------------------------------ *)


(** X6.  After [setArcMatrix], for every non-depot customer [c] the flag
    [toDepot[c]] is false exactly when the arc from [c] to the depot is
    forbidden, and exactly when some active decision leaving [c] prohibits
    the arc to the depot or enforces an arc to another customer. *)
Theorem X6_toDepot_exact
    (md : Pricer.model_data) (conss : list Pricer.ArcCons)
    (pd pd' : Pricer.SCIP_PRICERDATA) (c : Z) :
  Pricer.setArcMatrix md conss pd = Some pd' ->
  0 <= c < Pricer.nC md - 1 ->
  (Pricer.toDepot pd' c = false
   <-> Pricer.isForbidden pd' c (Pricer.nC md - 1) = true)
  /\ (Pricer.toDepot pd' c = false
      <-> exists dec, In dec conss /\ closesReturn md dec c).
Proof.
  intros H Hc. split; [|exact (setArcMatrix_toDepot md _ _ _ H c Hc)].
  rewrite (setArcMatrix_toDepot md _ _ _ H c Hc).
  rewrite (setArcMatrix_forbidden md _ _ _ H c (Pricer.nC md - 1))
    by lia.
  split; intros (dec & Hin & Hd); exists dec; (split; [exact Hin|]);
    apply (closesReturn_forbids md dec c Hc); exact Hd.
Qed.

(** An instance: with the arc from customer 0 to customer 1 enforced,
    customer 0 may not return to the depot and customer 1 may. *)
Lemma X6_toDepot_exact_witness :
  match Pricer.setArcMatrix Sample.model3 [Sample.enforceArc01]
          Sample.pricer0 with
  | Some pd' => Pricer.isForbidden pd' 0 2 = true
                /\ Pricer.toDepot pd' 0 = false
  | None => False
  end.
Proof.
  destruct (Pricer.setArcMatrix Sample.model3 [Sample.enforceArc01]
              Sample.pricer0) as [pd'|] eqn:E.
  - destruct (X6_toDepot_exact Sample.model3 _ _ _ 0 E) as [P1 P2];
      [cbn; lia|].
    assert (Hc : Pricer.toDepot pd' 0 = false).
    { apply P2. exists Sample.enforceArc01. split; [left; reflexivity|].
      unfold closesReturn. cbn. repeat split. discriminate. }
    split; [apply P1; exact Hc|exact Hc].
  - vm_compute in E. discriminate.
Defined.

(** X7.  After [setArcMatrix], an arc between two customers of the model
    is forbidden exactly when some active decision forbids it: a decision
    that prohibits the arc itself, or an enforced arc that excludes it.
    Nothing is forbidden without such a decision; without active decisions
    the matrix is empty and every depot return is open. *)
Theorem X7_forbidden_exact
    (md : Pricer.model_data) (conss : list Pricer.ArcCons)
    (pd pd' : Pricer.SCIP_PRICERDATA) :
  Pricer.setArcMatrix md conss pd = Some pd' ->
  (forall k m, 0 <= k < Pricer.nC md -> 0 <= m < Pricer.nC md ->
     (Pricer.isForbidden pd' k m = true
      <-> exists dec, In dec conss /\ forbidsArc md dec k m))
  /\ ((forall dec, In dec conss -> Pricer.arcActive dec = false) ->
      (forall k m, 0 <= k < Pricer.nC md -> 0 <= m < Pricer.nC md ->
         Pricer.isForbidden pd' k m = false)
      /\ (forall c, 0 <= c < Pricer.nC md - 1 ->
            Pricer.toDepot pd' c = true)).
Proof.
  intros H. split; [exact (setArcMatrix_forbidden md _ _ _ H)|].
  intros Hoff. split.
  - intros k m Hk Hm.
    destruct (Pricer.isForbidden pd' k m) eqn:E; [|reflexivity].
    apply (setArcMatrix_forbidden md _ _ _ H k m Hk Hm) in E
      as (dec & Hin & Ha & _).
    rewrite (Hoff dec Hin) in Ha. discriminate.
  - intros c Hc.
    destruct (Pricer.toDepot pd' c) eqn:E; [reflexivity|].
    apply (setArcMatrix_toDepot md _ _ _ H c Hc) in E
      as (dec & Hin & Ha & _).
    rewrite (Hoff dec Hin) in Ha. discriminate.
Qed.

(** An instance: with ENFORCE(5, 9) as the only decision, the arc from
    customer 4 to customer 7 is not forbidden. *)
Lemma X7_forbidden_exact_witness :
  match Pricer.setArcMatrix Sample.model11 [Sample.enforceArc59]
          Sample.pricer0 with
  | Some pd' => Pricer.isForbidden pd' 4 7 = false
  | None => False
  end.
Proof.
  destruct (Pricer.setArcMatrix Sample.model11 [Sample.enforceArc59]
              Sample.pricer0) as [pd'|] eqn:E.
  - destruct (Pricer.isForbidden pd' 4 7) eqn:F; [|reflexivity].
    apply (proj1 (X7_forbidden_exact _ _ _ _ E) 4 7) in F; [|cbn; lia..].
    destruct F as (dec & [<-|[]] & _ & F). cbn in F. lia.
  - vm_compute in E. discriminate.
Defined.

(** X8.  The outcome of [setArcMatrix] depends on the set of active
    decisions only: two runs that trip no assertion, from any two states of
    the pricer data and over decision lists with the same active members in
    any order, leave the same forbidden arcs between customers of the model
    and the same depot flags. *)
Theorem X8_arc_matrix_order_and_state
    (md : Pricer.model_data) (conss1 conss2 : list Pricer.ArcCons)
    (pd1 pd2 pd1' pd2' : Pricer.SCIP_PRICERDATA) :
  Pricer.setArcMatrix md conss1 pd1 = Some pd1' ->
  Pricer.setArcMatrix md conss2 pd2 = Some pd2' ->
  (forall dec, Pricer.arcActive dec = true ->
     (In dec conss1 <-> In dec conss2)) ->
  (forall k m, 0 <= k < Pricer.nC md -> 0 <= m < Pricer.nC md ->
     Pricer.isForbidden pd1' k m = Pricer.isForbidden pd2' k m)
  /\ (forall c, 0 <= c < Pricer.nC md - 1 ->
        Pricer.toDepot pd1' c = Pricer.toDepot pd2' c).
Proof.
  intros H1 H2 Hsame. split.
  - intros k m Hk Hm. apply eq_iff_eq_true.
    rewrite (setArcMatrix_forbidden md _ _ _ H1 k m Hk Hm),
      (setArcMatrix_forbidden md _ _ _ H2 k m Hk Hm).
    split; intros (dec & Hin & Hf); exists dec;
      (split; [apply (Hsame dec (proj1 Hf)); exact Hin|exact Hf]).
  - intros c Hc.
    assert (E : Pricer.toDepot pd1' c = false
                <-> Pricer.toDepot pd2' c = false).
    { rewrite (setArcMatrix_toDepot md _ _ _ H1 c Hc),
        (setArcMatrix_toDepot md _ _ _ H2 c Hc).
      split; intros (dec & Hin & Hf); exists dec;
        (split; [apply (Hsame dec (proj1 Hf)); exact Hin|exact Hf]). }
    destruct (Pricer.toDepot pd1' c), (Pricer.toDepot pd2' c);
      intuition congruence.
Qed.

(** An instance: ENFORCE(0, 1) and PROHIBIT(1, 0) in either order, from
    two different states. *)
Lemma X8_arc_matrix_order_and_state_witness :
  match Pricer.setArcMatrix Sample.model3
          [Sample.enforceArc01; Pricer.mkArcCons 1 0 Pricer.PROHIBIT true]
          Sample.pricer0,
        Pricer.setArcMatrix Sample.model3
          [Pricer.mkArcCons 1 0 Pricer.PROHIBIT true; Sample.enforceArc01]
          (Pricer.mkPricer (fun _ _ => true) (fun _ => false)
             (fun _ _ => false) (fun _ => 0) (fun _ => 0) (fun _ _ => []) 7)
  with
  | Some pd1', Some pd2' =>
      Pricer.isForbidden pd1' 1 0 = Pricer.isForbidden pd2' 1 0
  | _, _ => False
  end.
Proof.
  destruct (Pricer.setArcMatrix Sample.model3
              [Sample.enforceArc01; Pricer.mkArcCons 1 0 Pricer.PROHIBIT true]
              Sample.pricer0)
    as [pd1'|] eqn:E1; [|vm_compute in E1; discriminate].
  destruct (Pricer.setArcMatrix Sample.model3
              [Pricer.mkArcCons 1 0 Pricer.PROHIBIT true; Sample.enforceArc01]
              _)
    as [pd2'|] eqn:E2; [|vm_compute in E2; discriminate].
  apply (proj1 (X8_arc_matrix_order_and_state _ _ _ _ _ _ _ E1 E2
                  ltac:(intros dec _; cbn; tauto))); cbn; lia.
Defined.

Section ArcMatrixAbort.
Import Pricer.

Variable md : model_data.

Lemma arcLoop_app before : forall rest st,
  arcLoop md (before ++ rest) st
  = match arcLoop md before st with
    | Some st1 => arcLoop md rest st1
    | None => None
    end.
Proof.
  induction before as [|dec l IH]; intros rest st; simpl; [reflexivity|].
  destruct (arcStep md st dec); [apply IH|reflexivity].
Qed.

Lemma arcLoop_prohibit_forbidden before dec rest st :
  arcActive dec = true -> atype dec = PROHIBIT ->
  0 <= tail dec < nC md -> 0 <= head dec < nC md ->
  (exists e, In e before /\ forbidsArc md e (tail dec) (head dec)) ->
  arcLoop md (before ++ dec :: rest) st = None.
Proof.
  intros Ha Hty Ht Hh Hex. rewrite arcLoop_app.
  destruct (arcLoop md before st) as [st1|] eqn:E; [|reflexivity].
  assert (F : aForbidden st1 (tail dec) (head dec) = true).
  { apply (arcLoop_forbidden md _ _ _ E _ _ Ht Hh). right. exact Hex. }
  simpl. unfold arcStep. rewrite Ha, Hty, F. reflexivity.
Qed.

End ArcMatrixAbort.

(** X9.  [setArcMatrix] trips its assertion whenever an active PROHIBIT
    decision on an arc between customers of the model comes after a
    decision that already forbids that arc: a second prohibition of the
    arc, or an enforced arc that excludes it. *)
Theorem X9_prohibit_after_forbidden
    (md : Pricer.model_data) (before rest : list Pricer.ArcCons)
    (dec : Pricer.ArcCons) (pd : Pricer.SCIP_PRICERDATA) :
  Pricer.arcActive dec = true ->
  Pricer.atype dec = Pricer.PROHIBIT ->
  0 <= Pricer.tail dec < Pricer.nC md ->
  0 <= Pricer.head dec < Pricer.nC md ->
  (exists e, In e before
             /\ forbidsArc md e (Pricer.tail dec) (Pricer.head dec)) ->
  Pricer.setArcMatrix md (before ++ dec :: rest) pd = None.
Proof.
  intros Ha Hty Ht Hh Hex. unfold Pricer.setArcMatrix, Pricer.arcMatrixState.
  rewrite (arcLoop_prohibit_forbidden md before dec rest _ Ha Hty Ht Hh Hex).
  reflexivity.
Qed.

(** An instance: PROHIBIT(0, depot) after ENFORCE(0, 1) trips the
    assertion, although the same two decisions in the other order go
    through. *)
Lemma X9_prohibit_after_forbidden_witness :
  Pricer.setArcMatrix Sample.model3
    ([Sample.enforceArc01] ++ Sample.prohibitArc0Depot :: []) Sample.pricer0
  = None
  /\ Pricer.setArcMatrix Sample.model3
       [Sample.prohibitArc0Depot; Sample.enforceArc01] Sample.pricer0
     <> None.
Proof.
  split.
  - apply X9_prohibit_after_forbidden; try reflexivity; try (cbn; lia).
    exists Sample.enforceArc01. split; [left; reflexivity|].
    unfold forbidsArc. cbn. split; [reflexivity|]. left.
    repeat split; try discriminate. left. split; [reflexivity|discriminate].
  - vm_compute. discriminate.
Defined.

Section EnforceTwice.
Import Pricer.

Variable md : model_data.

Lemma arcStep_sets_links st dec st' :
  arcStep md st dec = Some st' ->
  arcActive dec = true -> atype dec = ENFORCE ->
  successor st' (tail dec) = head dec
  /\ predecessor st' (head dec) = tail dec.
Proof.
  intros H Ha Hty. apply arcStep_inv in H. cbv zeta in H.
  destruct H as [[E _]|[(_ & E & _)|(_ & _ & _ & _ & H)]]; [congruence..|].
  destruct H as [(_ & _ & ->)|[(_ & ->)|(_ & _ & ->)]];
    cbn [successor predecessor]; unfold upd; rewrite !Z.eqb_refl; auto.
Qed.

Lemma arcLoop_links conss : forall st st' e,
  arcLoop md conss st = Some st' ->
  In e conss -> arcActive e = true -> atype e = ENFORCE ->
  0 <= tail e -> 0 <= head e ->
  (tail e <> nC md - 1 -> successor st' (tail e) = head e)
  /\ (head e <> nC md - 1 -> predecessor st' (head e) = tail e).
Proof.
  induction conss as [|d rest IH]; intros st st' e H Hin Ha Hty Ht Hh;
    [destruct Hin|].
  simpl in H. destruct (arcStep md st d) as [st1|] eqn:E; [|discriminate].
  destruct Hin as [->|Hin]; [|exact (IH _ _ _ H Hin Ha Hty Ht Hh)].
  destruct (arcStep_sets_links _ _ _ E Ha Hty) as [L1 L2].
  destruct (arcLoop_keeps md _ _ _ (tail e) (head e) H) as [K1 K2].
  split; intros Hne; [apply K1|apply K2]; auto; lia.
Qed.

Lemma arcLoop_enforce_twice before dec rest st e :
  In e before -> arcActive e = true -> atype e = ENFORCE ->
  0 <= tail e -> 0 <= head e ->
  arcActive dec = true -> atype dec = ENFORCE ->
  (tail dec = tail e /\ tail e <> nC md - 1)
  \/ (head dec = head e /\ head e <> nC md - 1) ->
  arcLoop md (before ++ dec :: rest) st = None.
Proof.
  intros Hin Ha Hty Ht Hh Ha' Hty' Hsame. rewrite arcLoop_app.
  destruct (arcLoop md before st) as [st1|] eqn:E; [|reflexivity].
  destruct (arcLoop_links _ _ _ _ E Hin Ha Hty Ht Hh) as [L1 L2].
  simpl. unfold arcStep. rewrite Ha', Hty'. cbn [negb].
  destruct Hsame as [[Et Hne]|[Eh Hne]].
  - rewrite Et, (L1 Hne).
    assert (A : (tail e =? nC md - 1) || (head e =? -1) = false).
    { apply orb_false_iff. split; apply Z.eqb_neq; lia. }
    rewrite A. reflexivity.
  - rewrite Eh, (L2 Hne).
    assert (A : (head e =? nC md - 1) || (tail e =? -1) = false).
    { apply orb_false_iff. split; apply Z.eqb_neq; lia. }
    rewrite A. destruct (assert _); reflexivity.
Qed.

End EnforceTwice.

(** X10.  [setArcMatrix] trips its assertion whenever an active ENFORCE
    decision comes after another active ENFORCE decision with the same
    non-depot tail, or with the same non-depot head: a customer gets at
    most one enforced successor and one enforced predecessor. *)
Theorem X10_enforce_twice
    (md : Pricer.model_data) (before rest : list Pricer.ArcCons)
    (e dec : Pricer.ArcCons) (pd : Pricer.SCIP_PRICERDATA) :
  In e before ->
  Pricer.arcActive e = true -> Pricer.atype e = Pricer.ENFORCE ->
  0 <= Pricer.tail e -> 0 <= Pricer.head e ->
  Pricer.arcActive dec = true -> Pricer.atype dec = Pricer.ENFORCE ->
  (Pricer.tail dec = Pricer.tail e /\ Pricer.tail e <> Pricer.nC md - 1)
  \/ (Pricer.head dec = Pricer.head e
      /\ Pricer.head e <> Pricer.nC md - 1) ->
  Pricer.setArcMatrix md (before ++ dec :: rest) pd = None.
Proof.
  intros Hin Ha Hty Ht Hh Ha' Hty' Hsame.
  unfold Pricer.setArcMatrix, Pricer.arcMatrixState.
  rewrite (arcLoop_enforce_twice md before dec rest _ e Hin Ha Hty Ht Hh
             Ha' Hty' Hsame).
  reflexivity.
Qed.

(** An instance: ENFORCE(5, 9) followed by ENFORCE(5, 7). *)
Lemma X10_enforce_twice_witness :
  Pricer.setArcMatrix Sample.model11
    ([Sample.enforceArc59]
     ++ Pricer.mkArcCons 5 7 Pricer.ENFORCE true :: []) Sample.pricer0
  = None.
Proof.
  apply (X10_enforce_twice Sample.model11 [Sample.enforceArc59] []
           Sample.enforceArc59);
    try reflexivity; try (cbn; lia).
  left. reflexivity.
Defined.

(* ------------------------------------------------------------------ *)
(** ** When the timetable can be built                                 *)
(* ------------------------------------------------------------------ *)

Section TimeTableSuccess.
Import Pricer.

Variable md : model_data.

Lemma timeTableStep_passes tab dec :
  vaActive dec = true ->
  0 <= vaCustomer dec < nC md - 1 -> 0 <= vaDay dec ->
  tab (vaCustomer dec) (vaDay dec) = true ->
  timeTableStep md tab dec <> None.
Proof.
  intros Ha Hc Hd Ht. unfold timeTableStep. rewrite Ha. cbn [negb].
  assert (A1 : (0 <=? vaCustomer dec) && (vaCustomer dec <? nC md - 1)
               = true) by (bool_to_prop; lia).
  assert (A2 : (0 <=? vaDay dec) = true) by (bool_to_prop; lia).
  rewrite A1, A2, Ht. cbn. destruct (vaType dec); discriminate.
Qed.

(** The decision finds its customer in range and its day available after
    the decisions [done]. *)
Let admissible (done : list VACons) (dec : VACons) : Prop :=
  0 <= vaCustomer dec < nC md - 1 /\ 0 <= vaDay dec
  /\ available md done (vaCustomer dec) (vaDay dec).

Lemma timeTableLoop_success conss : forall done tab,
  tableOf md done tab ->
  (forall dec, In dec conss -> vaActive dec = true ->
     vaDay dec < nDays md) ->
  (timeTableLoop md conss tab <> None
   <-> forall before dec rest,
         conss = before ++ dec :: rest -> vaActive dec = true ->
         admissible (done ++ before) dec).
Proof.
  induction conss as [|x l IH]; intros done tab I Hday; simpl.
  - split; [|discriminate]. intros _ [|? ?] dec rest E; discriminate.
  - destruct (timeTableStep md tab x) as [tab1|] eqn:E.
    + pose proof (tableOf_step md _ _ _ _ E I) as I1.
      rewrite (IH (done ++ [x]) tab1 I1)
        by (intros dec Hin; apply Hday; right; exact Hin).
      split.
      * intros H [|y before] dec rest Eq Ha.
        -- simpl in Eq. inversion Eq; subst. rewrite app_nil_r.
           destruct (timeTableStep_active md _ _ _ E Ha) as (Rc & Rd & Hcell).
           destruct Hcell as [Hcell _].
           split; [exact Rc|]. split; [exact Rd|].
           apply (I _ _); [lia| |exact Hcell].
           split; [exact Rd|]. apply Hday; [left; reflexivity|exact Ha].
        -- simpl in Eq. inversion Eq; subst.
           replace (done ++ y :: before) with ((done ++ [y]) ++ before)
             by (rewrite <- app_assoc; reflexivity).
           exact (H before dec rest eq_refl Ha).
      * intros H before dec rest Eq Ha.
        replace ((done ++ [x]) ++ before) with (done ++ x :: before)
          by (rewrite <- app_assoc; reflexivity).
        apply (H (x :: before) dec rest); [rewrite Eq; reflexivity|exact Ha].
    + split; [intros H; destruct (H eq_refl)|].
      intros H. exfalso.
      destruct (vaActive x) eqn:Ha.
      2:{ unfold timeTableStep in E. rewrite Ha in E. discriminate. }
      destruct (H [] x l eq_refl Ha) as (Rc & Rd & Hav).
      rewrite app_nil_r in Hav.
      apply (timeTableStep_passes tab x Ha Rc Rd); [|exact E].
      apply (I _ _); [lia| |exact Hav].
      split; [exact Rd|]. apply Hday; [left; reflexivity|exact Ha].
Qed.

End TimeTableSuccess.

(** X11.  Let every active decision name a day of the model.  Then
    [setTimeTable] goes through without tripping an assertion exactly when
    every active decision names a non-depot customer and a day that is a
    window day of the customer and agrees with every active decision on the
    customer that comes before it.  So a second prohibition of the same day,
    a prohibition or enforcement of a day outside the windows, and an
    enforcement after the enforcement of another day all trip the
    assertion. *)
Theorem X11_timetable_success
    (md : Pricer.model_data) (conss : list Pricer.VACons)
    (pd : Pricer.SCIP_PRICERDATA) :
  (forall dec, In dec conss -> Pricer.vaActive dec = true ->
     Pricer.vaDay dec < Pricer.nDays md) ->
  (Pricer.setTimeTable md conss pd <> None
   <-> forall before dec rest,
         conss = before ++ dec :: rest -> Pricer.vaActive dec = true ->
         0 <= Pricer.vaCustomer dec < Pricer.nC md - 1
         /\ 0 <= Pricer.vaDay dec
         /\ available md before (Pricer.vaCustomer dec) (Pricer.vaDay dec)).
Proof.
  intros Hday.
  pose proof (timeTableLoop_success md conss []
                (Pricer.resetTimeTable md (Pricer.timetable pd))
                (tableOf_reset md _) Hday) as H.
  cbn [app] in H. rewrite <- H.
  unfold Pricer.setTimeTable, Pricer.timeTableOf.
  destruct (Pricer.timeTableLoop md conss _); split; intros G;
    try discriminate; try exact G; destruct (G eq_refl).
Qed.

(** An instance: PROHIBIT(1, 0) twice trips the assertion. *)
Lemma X11_timetable_success_witness :
  Pricer.setTimeTable Sample.model3
    [Sample.prohibitDay10; Sample.prohibitDay10] Sample.pricer0 = None.
Proof.
  destruct (Pricer.setTimeTable Sample.model3
              [Sample.prohibitDay10; Sample.prohibitDay10] Sample.pricer0)
    as [pd'|] eqn:E; [exfalso|reflexivity].
  assert (Hday : forall dec,
            In dec [Sample.prohibitDay10; Sample.prohibitDay10] ->
            Pricer.vaActive dec = true ->
            Pricer.vaDay dec < Pricer.nDays Sample.model3).
  { intros dec [<-|[<-|[]]] _; cbn; lia. }
  assert (Hok : Pricer.setTimeTable Sample.model3
                  [Sample.prohibitDay10; Sample.prohibitDay10] Sample.pricer0
                <> None) by (rewrite E; discriminate).
  pose proof (proj1 (X11_timetable_success _ _ Sample.pricer0 Hday) Hok)
    as Hall.
  destruct (Hall [Sample.prohibitDay10] Sample.prohibitDay10 [] eq_refl
              eq_refl) as (_ & _ & _ & Hag).
  exact (Hag Sample.prohibitDay10 (or_introl eq_refl) eq_refl eq_refl
           eq_refl).
Defined.

(* ------------------------------------------------------------------ *)
(** ** The enforced customers of the rebuilt graph                     *)
(* ------------------------------------------------------------------ *)

Section GraphEnforced.
Import Pricer.

Variable md : model_data.

Lemma set_current_graph_enforced arcs vas pd pd' :
  set_current_graph md arcs vas pd = Some pd' ->
  timeTableOf md vas (timetable pd) = Some (timetable pd')
  /\ eC pd' = fst (enforcedOf md (timetable pd') (eC pd) (nEC pd))
  /\ nEC pd' = snd (enforcedOf md (timetable pd') (eC pd) (nEC pd)).
Proof.
  intros H. unfold set_current_graph, setArcMatrix, setTimeTable in H.
  destruct (arcMatrixState md arcs pd _ _) as [st|]; [|discriminate].
  cbn [timetable] in H.
  destruct (timeTableOf md vas (timetable pd)) as [tab|]; [|discriminate].
  unfold setCurrentNeighborhood, setEnforcedCustomers in H.
  cbn [timetable eC nEC] in H.
  destruct (enforcedOf md tab (eC pd) (nEC pd)) as [ec nec] eqn:Ee.
  destruct (neighborhoodOf md _) as [nbs|]; [|discriminate].
  inversion H; subst. cbn. rewrite Ee. auto.
Qed.

Lemma graph_table arcs vas pd pd' :
  set_current_graph md arcs vas pd = Some pd' ->
  tableOf md vas (timetable pd').
Proof.
  intros H. destruct (set_current_graph_enforced _ _ _ _ H) as (Ht & _).
  unfold timeTableOf in Ht.
  exact (tableOf_loop md _ [] _ _ Ht (tableOf_reset md _)).
Qed.

Lemma enforcedDayOf_single tab c d :
  enforcedDayOf md tab c = d -> d <> -1 -> availableDays md tab c = [d].
Proof.
  unfold enforcedDayOf.
  destruct (availableDays md tab c) as [|x [|y l]]; intros E Hd;
    congruence.
Qed.

End GraphEnforced.

(** X12.  After [set_current_graph], a non-depot customer whose window days
    are days of the model is enforced on day [d] ([eC] holds [d], not -1)
    only if [d] is the one window day that agrees with every active
    decision on the customer; for a window list without repeated days the
    converse holds as well. *)
Theorem X12_enforced_day_from_decisions
    (md : Pricer.model_data) (arcs : list Pricer.ArcCons)
    (vas : list Pricer.VACons) (pd pd' : Pricer.SCIP_PRICERDATA) (c d : Z) :
  Pricer.set_current_graph md arcs vas pd = Some pd' ->
  0 <= c < Pricer.nC md - 1 ->
  (forall w, In w (Pricer.timeWindows md c) -> 0 <= w < Pricer.nDays md) ->
  (Pricer.eC pd' c = d -> d <> -1 ->
   forall d', available md vas c d' <-> d' = d)
  /\ (NoDup (Pricer.timeWindows md c) ->
      (forall d', available md vas c d' <-> d' = d) ->
      Pricer.eC pd' c = d).
Proof.
  intros H Hc Hw.
  pose proof (graph_table md _ _ _ _ H) as I.
  destruct (set_current_graph_enforced md _ _ _ _ H) as (_ & He & _).
  assert (HeC : Pricer.eC pd' c
                = enforcedDayOf md (Pricer.timetable pd') c)
    by (rewrite He; apply enforcedOf_eC; exact Hc).
  assert (Hav : forall x, In x (Pricer.timeWindows md c) ->
            (Pricer.timetable pd' c x = true <-> available md vas c x)).
  { intros x Hx. apply I; [lia|apply Hw, Hx]. }
  assert (Hfil : forall x,
            In x (availableDays md (Pricer.timetable pd') c)
            <-> available md vas c x).
  { intros x. unfold availableDays. rewrite filter_In. split.
    - intros [Hx Ht]. apply (Hav x Hx), Ht.
    - intros Ha. pose proof (proj1 Ha) as Hx. split; [exact Hx|].
      apply (Hav x Hx), Ha. }
  split.
  - intros E Hd d'. rewrite HeC in E.
    rewrite <- Hfil, (enforcedDayOf_single md _ _ _ E Hd). simpl.
    intuition congruence.
  - intros ND Huniq. rewrite HeC. unfold enforcedDayOf.
    rewrite (NoDup_singleton (availableDays md (Pricer.timetable pd') c) d);
      [reflexivity|apply NoDup_filter, ND|].
    intros x. rewrite Hfil. apply Huniq.
Qed.

(** An instance: with ENFORCE(3, 2) as the only decision, customer 3 of the
    sample model is enforced on day 2. *)
Lemma X12_enforced_day_from_decisions_witness :
  match Pricer.set_current_graph Sample.model11 [] [Sample.enforceDay32]
          Sample.pricer0 with
  | Some pd' => Pricer.eC pd' 3 = 2
  | None => False
  end.
Proof.
  destruct (Pricer.set_current_graph Sample.model11 [] [Sample.enforceDay32]
              Sample.pricer0) as [pd'|] eqn:E;
    [|vm_compute in E; discriminate].
  apply (proj2 (X12_enforced_day_from_decisions _ _ _ _ _ 3 2 E
                  ltac:(cbn; lia)
                  ltac:(cbn; intros w [<-|[<-|[]]]; lia))).
  - cbn. repeat constructor; cbn; intuition discriminate.
  - intros d'. unfold available. cbn. split.
    + intros [_ Hag].
      exact (eq_sym (Hag Sample.enforceDay32 (or_introl eq_refl) eq_refl
                       eq_refl)).
    + intros ->. split; [auto|].
      intros dec [<-|[]] _ _. reflexivity.
Defined.

(** X13.  After [set_current_graph], a non-depot customer that is enforced
    on day [d] exists on day [d] only: on every other day of the model its
    row of the timetable is false, its own neighbour list is empty, and it
    appears in no neighbour list of any customer or of the depot. *)
Theorem X13_enforced_customer_only_on_its_day
    (md : Pricer.model_data) (arcs : list Pricer.ArcCons)
    (vas : list Pricer.VACons) (pd pd' : Pricer.SCIP_PRICERDATA) (c d : Z) :
  Pricer.set_current_graph md arcs vas pd = Some pd' ->
  0 <= c < Pricer.nC md - 1 ->
  Pricer.eC pd' c = d -> d <> -1 ->
  forall j, 0 <= j < Pricer.nDays md -> j <> d ->
    Pricer.timetable pd' c j = false
    /\ Pricer.neighbors pd' c j = []
    /\ forall i, 0 <= i < Pricer.nC md ->
         ~ In c (Pricer.neighbors pd' i j).
Proof.
  intros H Hc E Hd j Hj Hne.
  pose proof (graph_table md _ _ _ _ H) as I.
  destruct (set_current_graph_enforced md _ _ _ _ H) as (_ & He & _).
  destruct (set_current_graph_stages md _ _ _ _ ltac:(lia) H)
    as (st & tab & _ & _ & _ & _ & _ & _ & Hn).
  assert (HeC : enforcedDayOf md (Pricer.timetable pd') c = d)
    by (rewrite <- E, He; symmetry; apply enforcedOf_eC; exact Hc).
  pose proof (enforcedDayOf_single md _ _ _ HeC Hd) as Hsingle.
  assert (Hoff : Pricer.timetable pd' c j = false).
  { destruct (Pricer.timetable pd' c j) eqn:Ht; [exfalso|reflexivity].
    pose proof (proj1 (I c j ltac:(lia) Hj) Ht) as [Hwin _].
    assert (Hin : In j (availableDays md (Pricer.timetable pd') c))
      by (apply filter_In; auto).
    rewrite Hsingle in Hin. destruct Hin as [Hin|[]]. congruence. }
  split; [exact Hoff|]. split.
  - rewrite (Hn c j ltac:(lia) Hj). unfold cellValue. rewrite Hoff.
    destruct (Z.eqb_spec c (Pricer.nC md - 1)); [lia|reflexivity].
  - intros i Hi Hin. rewrite (Hn i j Hi Hj) in Hin. unfold cellValue in Hin.
    destruct ((i =? Pricer.nC md - 1) || Pricer.timetable pd' i j);
      [|destruct Hin].
    apply filter_In in Hin as [_ Hs]. unfold survives in Hs.
    rewrite Hoff in Hs. discriminate.
Qed.

(** An instance: customer 3 of the sample model, enforced on day 2, appears
    in no list of the depot on day 0. *)
Lemma X13_enforced_customer_only_on_its_day_witness :
  match Pricer.set_current_graph Sample.model11 [] [Sample.enforceDay32]
          Sample.pricer0 with
  | Some pd' => ~ In 3 (Pricer.neighbors pd' 10 0)
  | None => False
  end.
Proof.
  destruct (Pricer.set_current_graph Sample.model11 [] [Sample.enforceDay32]
              Sample.pricer0) as [pd'|] eqn:E;
    [|vm_compute in E; discriminate].
  refine (proj2 (proj2 (X13_enforced_customer_only_on_its_day
                          _ _ _ _ _ 3 2 E _ _ _ 0 _ _)) 10 _);
    try (cbn; lia).
  vm_compute in E. inversion E. reflexivity.
Defined.

(* ------------------------------------------------------------------ *)
(** ** Transformed records                                             *)
(* ------------------------------------------------------------------ *)

(** X14.  [consTransVehicleAss] copies the customer, the day and the type
    of the source record and resets its propagation state, whatever the
    source's counters are; it trips the assertion of [consdataCreate] when
    the customer or the day is negative.  The next propagation of the
    transformed record therefore scans every column: without a cutoff it
    fixes every column that the source record can fix. *)
Theorem X14_transformed_record_starts_over
    (sourcedata targetdata : ConsVA.SCIP_CONSDATA) :
  (Callbacks.consTransVehicleAss sourcedata = None
   <-> ConsVA.customer sourcedata < 0 \/ ConsVA.day sourcedata < 0)
  /\ (Callbacks.consTransVehicleAss sourcedata = Some targetdata ->
      targetdata
      = ConsVA.mkConsData (ConsVA.customer sourcedata)
          (ConsVA.day sourcedata) (ConsVA.type sourcedata) 0 0 false
      /\ forall vars conss' vars' r,
           ConsVA.consPropVehicleAss [targetdata] vars
           = Some (conss', vars', r) ->
           (r = ConsVA.SCIP_CUTOFF
            <-> exists var, In var vars /\ contradicts sourcedata var)
           /\ (r <> ConsVA.SCIP_CUTOFF ->
               vars' = map (fixOne sourcedata) vars)).
Proof.
  unfold Callbacks.consTransVehicleAss, ConsVA.consdataCreate.
  destruct (Z.leb_spec 0 (ConsVA.customer sourcedata)) as [Hc|Hc];
    cbn [assert].
  2:{ split; [split; [intros _; left; exact Hc|reflexivity]|discriminate]. }
  destruct (Z.leb_spec 0 (ConsVA.day sourcedata)) as [Hd|Hd]; cbn [assert].
  2:{ split; [split; [intros _; right; exact Hd|reflexivity]|discriminate]. }
  split; [split; [discriminate|lia]|].
  intros E. inversion E; subst. clear E. split; [reflexivity|].
  intros vars conss' vars' r HP.
  destruct (propagate_from_index
              (ConsVA.mkConsData (ConsVA.customer sourcedata)
                 (ConsVA.day sourcedata) (ConsVA.type sourcedata) 0 0 false)
              [] vars _ _ _ eq_refl HP) as [_ PF].
  destruct (PF eq_refl) as (P1 & P2 & _). cbn [app] in P2.
  split.
  - rewrite P1, existsb_exists.
    split; intros (var & Hin & Hv); exists var; (split; [exact Hin|]).
    + apply contradictsb_true. exact Hv.
    + apply contradictsb_true in Hv. exact Hv.
  - intros Hr. rewrite (P2 Hr). reflexivity.
Qed.

(** An instance: the record PROHIBIT(3, 1) that had checked two columns and
    run once is transformed into a fresh record. *)
Lemma X14_transformed_record_starts_over_witness :
  ConsVA.mkConsData 3 1 ConsVA.VA_PROHIBIT 0 0 false
  = ConsVA.mkConsData (ConsVA.customer Sample.prohibit31)
      (ConsVA.day Sample.prohibit31) (ConsVA.type Sample.prohibit31)
      0 0 false.
Proof.
  exact (proj1 (proj2 (X14_transformed_record_starts_over Sample.prohibit31
                         (ConsVA.mkConsData 3 1 ConsVA.VA_PROHIBIT 0 0 false))
                  eq_refl)).
Defined.

(* ------------------------------------------------------------------ *)
(** ** The bound on the collectable dual values                        *)
(* ------------------------------------------------------------------ *)

Section DualBound.
Import Pricer PricerMore.
Context {R : Type} {num : SCIP_Real R}.

Variable md : model_data.
Variable dualvalues : Z -> R.
Variable bonus : Z -> Z.

Lemma sumOverNeighbors_fold nodes : forall acc,
  fold_left
    (fun possibleDualValue i =>
       if negb (SCIPisSumPositive (dualTerm dualvalues bonus i))
       then possibleDualValue
       else real_add possibleDualValue (dualTerm dualvalues bonus i))
    nodes acc
  = sumFrom acc (collected dualvalues bonus nodes).
Proof.
  unfold collected.
  induction nodes as [|i l IH]; intros acc; cbn [fold_left filter map];
    [reflexivity|].
  rewrite IH.
  destruct (SCIPisSumPositive (dualTerm dualvalues bonus i)); reflexivity.
Qed.

Lemma addIfWindow_eq windows day (term acc : R) :
  addIfWindow windows day term acc
  = if existsb (Z.eqb day) windows then real_add acc term else acc.
Proof.
  induction windows as [|w next IH]; simpl; [reflexivity|].
  rewrite (Z.eqb_sym day w). destruct (w =? day); [reflexivity|exact IH].
Qed.

Lemma sumOverCustomers_fold day l : forall acc,
  fold_left
    (fun possibleDualValue i =>
       if negb (SCIPisSumPositive (dualTerm dualvalues bonus i))
       then possibleDualValue
       else addIfWindow (timeWindows md i) day (dualTerm dualvalues bonus i)
              possibleDualValue)
    l acc
  = sumFrom acc
      (collected dualvalues bonus
         (filter (fun i => existsb (Z.eqb day) (timeWindows md i)) l)).
Proof.
  unfold collected.
  induction l as [|i l IH]; intros acc; cbn [fold_left filter];
    [reflexivity|].
  rewrite IH, addIfWindow_eq.
  destruct (existsb (Z.eqb day) (timeWindows md i)); cbn [filter map];
    destruct (SCIPisSumPositive (dualTerm dualvalues bonus i));
    reflexivity.
Qed.

(** The walk over the depot's neighbours adds up the terms that pass the
    engine's test, in the order of the list. *)
Lemma sumOverNeighbors_eq nodes :
  sumOverNeighbors dualvalues bonus nodes
  = sumFrom real_zero (collected dualvalues bonus nodes).
Proof. apply sumOverNeighbors_fold. Qed.

(** The search over the customers adds up the terms that pass the engine's
    test, over the customers with a window on the day, in index order. *)
Lemma sumOverCustomers_eq day :
  sumOverCustomers md dualvalues bonus day
  = sumFrom real_zero (collected dualvalues bonus (customersOfDay md day)).
Proof.
  unfold sumOverCustomers, for_range, customersOfDay.
  apply sumOverCustomers_fold.
Qed.

(** [sumOfPossibleDualvalues], with its loops summed up. *)
Lemma sumOfPossibleDualvalues_eq preprocessed day :
  sumOfPossibleDualvalues md preprocessed dualvalues bonus day
  = let total :=
      sumFrom real_zero
        (collected dualvalues bonus
           (if preprocessed then mneighbors md (nC md - 1) day
            else customersOfDay md day)) in
    if (0 <=? day) && (day <? nDays md) then
      if real_geb total real_zero then Some total else None
    else None.
Proof.
  unfold sumOfPossibleDualvalues. cbv zeta.
  assert (Hval : (if preprocessed
                  then sumOverNeighbors dualvalues bonus
                         (mneighbors md (nC md - 1) day)
                  else sumOverCustomers md dualvalues bonus day)
                 = sumFrom real_zero
                     (collected dualvalues bonus
                        (if preprocessed then mneighbors md (nC md - 1) day
                         else customersOfDay md day))).
  { destruct preprocessed;
      [apply sumOverNeighbors_eq|apply sumOverCustomers_eq]. }
  rewrite Hval.
  destruct ((0 <=? day) && (day <? nDays md)); cbn [assert]; [|reflexivity].
  destruct (real_geb _ real_zero); reflexivity.
Qed.

Lemma collected_positive l :
  Forall (fun x => SCIPisSumPositive x = true) (collected dualvalues bonus l).
Proof.
  unfold collected. apply Forall_forall. intros x Hx.
  apply in_map_iff in Hx as (i & <- & Hi).
  apply filter_In in Hi as [_ Hi]. exact Hi.
Qed.

End DualBound.

(** X15.  [sumOfPossibleDualvalues] adds up, one rounded addition after the
    other and starting from zero, the values
    [dualvalues[i] + hardCustomerBonus] that pass [SCIPisSumPositive]: over
    the depot's neighbours of the day, in the order of the list, when the
    instance is preprocessed, and over the non-depot customers with a
    window on the day, in index order and each counted once, otherwise.  It
    returns that sum unless the day is not a day of the model or the sum
    fails the closing test [>= 0].  In an arithmetic in which a sum of
    values that pass [SCIPisSumPositive] is not negative, the closing
    assertion never fails, and the function trips an assertion exactly when
    the day is not a day of the model. *)
Theorem X15_possible_dual_values {R : Type} {num : SCIP_Real R}
    (md : Pricer.model_data) (preprocessed : bool)
    (dualvalues : Z -> R) (bonus : Z -> Z) (day : Z) :
  let total :=
    sumFrom real_zero
      (collected dualvalues bonus
         (if preprocessed
          then Pricer.mneighbors md (Pricer.nC md - 1) day
          else customersOfDay md day)) in
  (forall v,
     PricerMore.sumOfPossibleDualvalues md preprocessed dualvalues bonus day
     = Some v
     <-> 0 <= day < Pricer.nDays md
         /\ real_geb total real_zero = true /\ v = total)
  /\ (sumsNonnegative ->
      (PricerMore.sumOfPossibleDualvalues md preprocessed dualvalues bonus day
       = None <-> ~ (0 <= day < Pricer.nDays md))
      /\ (0 <= day < Pricer.nDays md ->
          PricerMore.sumOfPossibleDualvalues md preprocessed dualvalues bonus
            day = Some total)).
Proof.
  intros total. rewrite sumOfPossibleDualvalues_eq. cbv zeta. fold total.
  assert (Hd : (0 <=? day) && (day <? Pricer.nDays md) = true
               <-> 0 <= day < Pricer.nDays md) by (bool_to_prop; tauto).
  split.
  - intros v.
    destruct ((0 <=? day) && (day <? Pricer.nDays md)).
    + destruct (real_geb total real_zero).
      * split; [intros E; inversion E; tauto|].
        intros (_ & _ & ->). reflexivity.
      * split; [discriminate|]. intros (_ & E & _). discriminate.
    + split; [discriminate|]. intros (E & _). apply Hd in E. discriminate.
  - intros Hnn.
    assert (Hge : real_geb total real_zero = true)
      by (apply Hnn, collected_positive).
    rewrite Hge.
    destruct ((0 <=? day) && (day <? Pricer.nDays md)).
    + split; [|reflexivity].
      split; [discriminate|]. intros E. exfalso. apply E, Hd. reflexivity.
    + split.
      * split; [|reflexivity]. intros _ E. apply Hd in E. discriminate.
      * intros E. apply Hd in E. discriminate.
Qed.

(** An instance over the rationals, where a sum of values above the
    tolerance is not negative: the depot of the sample model neighbours
    customers 0, 1 and itself; with dual values 3, -1 and 0 the bound for
    day 0 is 3. *)
Lemma X15_possible_dual_values_witness :
  PricerMore.sumOfPossibleDualvalues Sample.model3 true
    (fun i : Z => if (i =? 0)%Z then 3%Q else
                  if (i =? 1)%Z then (-1)%Q else 0%Q)
    (fun _ : Z => 0%Z) 0%Z
  = Some 3%Q.
Proof.
  refine (proj2 (proj2 (X15_possible_dual_values Sample.model3 true
                          (fun i : Z => if (i =? 0)%Z then 3%Q else
                                        if (i =? 1)%Z then (-1)%Q else 0%Q)
                          (fun _ : Z => 0%Z) 0%Z)
                   Rational_sumsNonnegative) _).
  cbn. lia.
Defined.

(** X16.  The two branches of [sumOfPossibleDualvalues] return the same
    value when the depot's neighbours of the day whose value passes
    [SCIPisSumPositive] are, in the same order, the non-depot customers
    with a window on that day whose value passes it; in particular when the
    depot's list is the list of those customers in index order.  The order
    matters, because the additions round: in binary64 arithmetic, with the
    three customers of a day at dual values 0.1, 0.2 and 0.3 and the depot
    listing them as 2, 1, 0, the two branches return different values. *)
Theorem X16_dual_bound_modes_agree :
  (forall (R : Type) (num : SCIP_Real R) (md : Pricer.model_data)
          (dualvalues : Z -> R) (bonus : Z -> Z) (day : Z) (v w : R),
     collected dualvalues bonus
       (Pricer.mneighbors md (Pricer.nC md - 1) day)
     = collected dualvalues bonus (customersOfDay md day) ->
     PricerMore.sumOfPossibleDualvalues md true dualvalues bonus day
     = Some v ->
     PricerMore.sumOfPossibleDualvalues md false dualvalues bonus day
     = Some w ->
     v = w)
  /\ (let md :=
        Pricer.mkModel 4 1 (fun _ => [0])
          (fun i _ => if i =? 3 then [2; 1; 0] else []) in
      let dualvalues :=
        fun i : Z =>
          if i =? 0 then 0x1.999999999999ap-4%float
          else if i =? 1 then 0x1.999999999999ap-3%float
          else 0x1.3333333333333p-2%float in
      (forall i, In i (Pricer.mneighbors md (Pricer.nC md - 1) 0)
                 <-> In i (customersOfDay md 0))
      /\ exists v w,
           PricerMore.sumOfPossibleDualvalues md true dualvalues
             (fun _ => 0) 0 = Some v
           /\ PricerMore.sumOfPossibleDualvalues md false dualvalues
                (fun _ => 0) 0 = Some w
           /\ v <> w).
Proof.
  split.
  - intros R num md dualvalues bonus day v w Hsame Hv Hw.
    rewrite sumOfPossibleDualvalues_eq in Hv, Hw. cbv zeta in Hv, Hw.
    rewrite Hsame in Hv.
    destruct ((0 <=? day) && (day <? Pricer.nDays md)); [|discriminate].
    destruct (real_geb _ real_zero); [|discriminate].
    congruence.
  - cbv zeta. split.
    + intros i. vm_compute. tauto.
    + eexists. eexists.
      split; [vm_compute; reflexivity|].
      split; [vm_compute; reflexivity|].
      match goal with
      | |- ?v <> ?w =>
          intros H;
          assert (X : PrimFloat.eqb v w = false) by (vm_compute; reflexivity);
          rewrite H in X; vm_compute in X; discriminate X
      end.
Qed.

(** An instance of the first part over the rationals: two customers with a
    window on day 0, listed by the depot in index order, at dual values 1/3
    and 1/2. *)
Lemma X16_dual_bound_modes_agree_witness :
  (5 # 6 = 5 # 6)%Q.
Proof.
  refine (proj1 X16_dual_bound_modes_agree Q Rational
            (Pricer.mkModel 3 2 (fun c => if c =? 0 then [0] else [0; 1])
               (fun i j => if (i =? 2) && (j =? 0) then [0; 1] else []))
            (fun i : Z => if i =? 0 then (1 # 3)%Q else (1 # 2)%Q)
            (fun _ : Z => 0) 0 (5 # 6)%Q (5 # 6)%Q _ _ _).
  - reflexivity.
  - vm_compute. reflexivity.
  - vm_compute. reflexivity.
Defined.

(* ------------------------------------------------------------------ *)
(** ** The activation of the pricer                                    *)
(* ------------------------------------------------------------------ *)

Section Activation.
Import Pricer PricerMore.

Variable md : model_data.








End Activation.



Section FirstRebuild.
Import Pricer PricerMore.

Variable md : model_data.



End FirstRebuild.



(* ------------------------------------------------------------------ *)
(** ** Records in conflict                                             *)
(* ------------------------------------------------------------------ *)

Section Conflicts.
Import ConsVA.

Lemma noEqualConsdata_sound x later c2 :
  noEqualConsdata x later = true -> In c2 later -> ~ conflicting x c2.
Proof.
  unfold noEqualConsdata. intros H Hin [Hc Hk].
  rewrite forallb_forall in H. specialize (H c2 Hin).
  apply andb_true_iff in H as [H1 H2].
  apply negb_true_iff in H1, H2.
  apply Z.eqb_eq in Hc. rewrite Hc in H1, H2. cbn [andb] in H1, H2.
  destruct Hk as [[E1 E2]|Ed].
  - rewrite E1, E2 in H1. discriminate.
  - apply Z.eqb_eq in Ed. congruence.
Qed.

Lemma propLoop_noEqual conss : forall vars r0 conss' vars' r,
  propLoop conss vars r0 = Some (conss', vars', r) ->
  is_cutoff r = false ->
  forall before x later,
    conss = before ++ x :: later -> noEqualConsdata x later = true.
Proof.
  induction conss as [|c l IH]; intros vars r0 conss' vars' r H Hr
    before x later Eq.
  - destruct before; discriminate.
  - cbn [propLoop] in H.
    destruct (assertCheck vars c true); [|discriminate].
    destruct (noEqualConsdata c l) eqn:Hne; cbn [assert] in H;
      [|discriminate].
    assert (Hrest : exists vars1 r1 later' vars2,
              propLoop l vars1 r1 = Some (later', vars2, r)).
    { destruct (propagated c); cbn [negb] in H.
      - destruct (assertCheck vars c false); [|discriminate].
        destruct (propLoop l vars r0) as [[[l' v2] r2]|] eqn:E;
          [|discriminate].
        inversion H; subst. eauto.
      - destruct (consdataFixVariables c vars r0) as [[vars1 r1]|];
          [|discriminate].
        destruct (is_cutoff r1) eqn:Hc1; cbn [negb] in H.
        + inversion H; subst. congruence.
        + destruct (assertCheck vars1 _ false); [|discriminate].
          destruct (propLoop l vars1 r1) as [[[l' v2] r2]|] eqn:E;
            [|discriminate].
          inversion H; subst. eauto. }
    destruct Hrest as (vars1 & r1 & later' & vars2 & E).
    destruct before as [|y b]; cbn [app] in Eq; inversion Eq; subst.
    + exact Hne.
    + exact (IH _ _ _ _ _ E Hr b x later eq_refl).
Qed.

End Conflicts.

(** X19.  A propagation that goes through without a cutoff has checked
    every pair of records handed to it: no two of them name the same
    customer and the same day, and no customer is enforced by two of
    them. *)
Theorem X19_propagated_records_do_not_conflict
    (conss conss' : list ConsVA.SCIP_CONSDATA)
    (vars vars' : list ConsVA.SCIP_VAR) (r : ConsVA.SCIP_RESULT) :
  ConsVA.consPropVehicleAss conss vars = Some (conss', vars', r) ->
  r <> ConsVA.SCIP_CUTOFF ->
  forall before c1 mid c2 after,
    conss = before ++ c1 :: mid ++ c2 :: after -> ~ conflicting c1 c2.
Proof.
  intros H Hr before c1 mid c2 after Eq.
  assert (Hr' : ConsVA.is_cutoff r = false)
    by (destruct r; simpl; congruence).
  apply (noEqualConsdata_sound c1 (mid ++ c2 :: after)).
  - exact (propLoop_noEqual _ _ _ _ _ _ H Hr' before c1 _ Eq).
  - apply in_or_app. right. left. reflexivity.
Qed.

(** An instance: ENFORCE(3, 2) and PROHIBIT(5, 2) propagate together. *)
Lemma X19_propagated_records_do_not_conflict_witness :
  ~ conflicting Sample.enforce32 Sample.prohibit52.
Proof.
  destruct (ConsVA.consPropVehicleAss [Sample.enforce32; Sample.prohibit52]
              [Sample.otherDayVar]) as [[[c' v'] r]|] eqn:E;
    [|vm_compute in E; discriminate].
  refine (X19_propagated_records_do_not_conflict _ _ _ _ _ E _
            [] Sample.enforce32 [] Sample.prohibit52 [] eq_refl).
  vm_compute in E. inversion E. discriminate.
Defined.

(* ------------------------------------------------------------------ *)
(** ** The former neighbourhood builder                                *)
(* ------------------------------------------------------------------ *)

Section FormerBuilder.
Import Pricer PricerMore.

Variable md : model_data.

Lemma cells_stuck (step : Z -> Z -> (Z -> Z -> list Z)
                          -> option (Z -> Z -> list Z)) i lj :
  fold_left (fun acc j => do n <- acc; step i j n) lj None = None.
Proof. induction lj as [|j l IH]; simpl; [reflexivity|exact IH]. Qed.

(** A pass over one cell that goes through writes the cell's value. *)
Let writes (val : Z -> Z -> option (list Z))
    (step : Z -> Z -> (Z -> Z -> list Z) -> option (Z -> Z -> list Z))
  : Prop :=
  forall i j nbs nbs', step i j nbs = Some nbs' ->
    exists v, val i j = Some v
      /\ forall k m, nbs' k m = if (k =? i) && (m =? j) then v else nbs k m.

Lemma partial_row val step (W : writes val step) i lj : forall nbs nbs',
  fold_left (fun acc j => do n <- acc; step i j n) lj (Some nbs) = Some nbs' ->
  forall k m,
    if (k =? i) && existsb (Z.eqb m) lj then val k m = Some (nbs' k m)
    else nbs' k m = nbs k m.
Proof.
  induction lj as [|j l IH]; intros nbs nbs' H k m; cbn [fold_left] in H.
  - inversion H; subst. rewrite andb_false_r. reflexivity.
  - destruct (step i j nbs) as [n1|] eqn:E;
      [|rewrite cells_stuck in H; discriminate].
    destruct (W _ _ _ _ E) as (v & Hv & Hn1).
    specialize (IH _ _ H k m). cbn [existsb].
    destruct (Z.eqb_spec k i) as [->|]; cbn [andb] in *.
    + destruct (existsb (Z.eqb m) l); [rewrite orb_true_r; exact IH|].
      rewrite orb_false_r. rewrite IH, Hn1, Z.eqb_refl. cbn [andb].
      destruct (Z.eqb_spec m j) as [->|]; [symmetry in Hv|]; auto.
    + rewrite IH, Hn1.
      destruct (Z.eqb_spec k i); [contradiction|reflexivity].
Qed.

Lemma rows_stuck (step : Z -> Z -> (Z -> Z -> list Z)
                         -> option (Z -> Z -> list Z)) lj li :
  fold_left
    (fun acc i => fold_left (fun acc' j => do n <- acc'; step i j n) lj acc)
    li None = None.
Proof.
  induction li as [|i l IH]; simpl; [reflexivity|].
  rewrite cells_stuck. exact IH.
Qed.

Lemma partial_rows val step (W : writes val step) lj li : forall nbs nbs',
  fold_left
    (fun acc i => fold_left (fun acc' j => do n <- acc'; step i j n) lj acc)
    li (Some nbs) = Some nbs' ->
  forall k m,
    if existsb (Z.eqb k) li && existsb (Z.eqb m) lj
    then val k m = Some (nbs' k m)
    else nbs' k m = nbs k m.
Proof.
  induction li as [|i l IH]; intros nbs nbs' H k m; cbn [fold_left] in H.
  - inversion H; subst. reflexivity.
  - destruct (fold_left (fun acc' j => do n <- acc'; step i j n) lj
                (Some nbs)) as [n1|] eqn:E;
      [|rewrite rows_stuck in H; discriminate].
    pose proof (partial_row val step W i lj _ _ E k m) as R.
    specialize (IH _ _ H k m). cbn [existsb].
    destruct (existsb (Z.eqb k) l) eqn:Ek.
    + rewrite orb_true_r. cbn [andb] in *.
      destruct (existsb (Z.eqb m) lj); [exact IH|].
      rewrite andb_false_r in R. rewrite IH. exact R.
    + rewrite orb_false_r. cbn [andb] in IH. rewrite IH.
      exact R.
Qed.

Lemma formerCustomerCell_writes st :
  writes (fun i j => if negb (successor st i =? -1)
                     then Some [successor st i]
                     else copyUnclaimed st i (mneighbors md i j))
    (formerCustomerCell md st).
Proof.
  intros i j nbs nbs' H. unfold formerCustomerCell in H.
  destruct (assert _); [|discriminate].
  destruct (negb (successor st i =? -1)).
  - inversion H; subst. eexists. split; reflexivity.
  - destruct (copyUnclaimed st i (mneighbors md i j)) as [l|];
      [|discriminate].
    inversion H; subst. eexists. split; reflexivity.
Qed.

Lemma formerDepotCell_writes st :
  writes (fun i j => Some (copyDepot st i (mneighbors md i j)))
    (formerDepotCell md st).
Proof.
  intros i j nbs nbs' H. unfold formerDepotCell in H.
  destruct (assert _); [|discriminate].
  inversion H; subst. eexists. split; reflexivity.
Qed.

Lemma arcInitKeepDepot_eq forb toDep succ0 pred0 :
  aForbidden (arcInitKeepDepot md forb toDep succ0 pred0)
  = aForbidden (arcInit md forb toDep succ0 pred0)
  /\ aToDepot (arcInitKeepDepot md forb toDep succ0 pred0) = toDep.
Proof.
  unfold arcInitKeepDepot, arcInit.
  destruct (for_range (nC md) _ (forb, succ0, pred0)) as [[f s] p].
  split; reflexivity.
Qed.

Lemma copyUnclaimed_filter st i nb l :
  copyUnclaimed st i nb = Some l ->
  l = filter (fun id => negb (aForbidden st i id)
                        && (predecessor st id =? -1)) nb.
Proof.
  revert l. induction nb as [|id next IH]; intros l H; cbn in H.
  - inversion H. reflexivity.
  - cbn [filter].
    destruct (aForbidden st i id || negb (predecessor st id =? -1)) eqn:E.
    + destruct (assert _); [|discriminate].
      assert (F : negb (aForbidden st i id) && (predecessor st id =? -1)
                  = false).
      { destruct (aForbidden st i id), (predecessor st id =? -1);
          cbn in *; congruence. }
      rewrite F. apply IH, H.
    + destruct (copyUnclaimed st i next) as [rest|]; [|discriminate].
      inversion H; subst.
      assert (F : negb (aForbidden st i id) && (predecessor st id =? -1)
                  = true).
      { destruct (aForbidden st i id), (predecessor st id =? -1);
          cbn in *; congruence. }
      rewrite F. f_equal. apply IH. reflexivity.
Qed.

(** What [getCurrentNeighborhood] leaves when it goes through. *)
Lemma former_spec conss pd succ0 pred0 pd' :
  getCurrentNeighborhood md conss pd succ0 pred0 = Some pd' ->
  1 < nC md ->
  exists st,
    arcLoop md conss
      (arcInitKeepDepot md (isForbidden pd) (toDepot pd) succ0 pred0)
    = Some st
    /\ isForbidden pd' = aForbidden st
    /\ toDepot pd' = aToDepot st
    /\ timetable pd' = timetable pd
    /\ forall i j, 0 <= i < nC md - 1 -> 0 <= j < nDays md ->
         (successor st i <> -1 -> neighbors pd' i j = [successor st i])
         /\ (successor st i = -1 ->
             neighbors pd' i j
             = filter (fun id => negb (aForbidden st i id)
                                 && (predecessor st id =? -1))
                 (mneighbors md i j)).
Proof.
  intros H HnC. unfold getCurrentNeighborhood in H.
  destruct (arcLoop md conss _) as [st|] eqn:Ea; [|discriminate].
  cbn [assert] in H.
  match type of H with
  | context [for_range (nC md - 1) ?body (Some ?c)] =>
      destruct (for_range (nC md - 1) body (Some c)) as [nbs1|] eqn:E1
  end.
  2:{ unfold for_range in H. rewrite cells_stuck in H. discriminate. }
  match type of H with
  | context [for_range (nDays md) ?body (Some nbs1)] =>
      destruct (for_range (nDays md) body (Some nbs1)) as [nbs2|] eqn:E2
  end; [|discriminate].
  inversion H; subst. clear H. exists st. cbn.
  split; [reflexivity|]. split; [reflexivity|]. split; [reflexivity|].
  split; [reflexivity|].
  intros i j Hi Hj. unfold for_range in E1, E2.
  pose proof (partial_rows _ _ (formerCustomerCell_writes st)
                (range (nDays md)) (range (nC md - 1)) _ _ E1 i j) as R1.
  pose proof (partial_row _ _ (formerDepotCell_writes st) (nC md - 1)
                (range (nDays md)) _ _ E2 i j) as R2.
  rewrite !existsb_eqb_range in R1. rewrite existsb_eqb_range in R2.
  assert (Hi' : inRangeb (nC md - 1) i = true) by (apply inRangeb_true; lia).
  assert (Hj' : inRangeb (nDays md) j = true) by (apply inRangeb_true; lia).
  rewrite Hi', Hj' in R1. cbn [andb] in R1.
  destruct (Z.eqb_spec i (nC md - 1)) as [Ei|_]; [lia|].
  cbn [andb] in R2. rewrite R2.
  split.
  - intros Hs. apply Z.eqb_neq in Hs. rewrite Hs in R1. cbn in R1.
    inversion R1. reflexivity.
  - intros Hs. rewrite Hs in R1. cbn in R1.
    exact (copyUnclaimed_filter _ _ _ _ R1).
Qed.

End FormerBuilder.

(** X20.  [getCurrentNeighborhood], whose calls in the two pricing
    callbacks are commented out in favour of [set_current_graph], builds
    the same forbidden matrix as [setArcMatrix] but does not reset the depot
    flags: a depot return is closed afterwards when it was closed before or
    some active decision closes it.  It does not look at the timetable: a
    non-depot customer with an active enforced outgoing arc gets the
    one-element list of the enforced successor on every day of the model. *)
Theorem X20_former_builder
    (md : Pricer.model_data) (conss : list Pricer.ArcCons)
    (pd pd' : Pricer.SCIP_PRICERDATA) (succ0 pred0 : Z -> Z) :
  PricerMore.getCurrentNeighborhood md conss pd succ0 pred0 = Some pd' ->
  1 < Pricer.nC md ->
  (forall k m, 0 <= k < Pricer.nC md -> 0 <= m < Pricer.nC md ->
     (Pricer.isForbidden pd' k m = true
      <-> exists dec, In dec conss /\ forbidsArc md dec k m))
  /\ (forall c, 0 <= c < Pricer.nC md - 1 ->
        (Pricer.toDepot pd' c = false
         <-> Pricer.toDepot pd c = false
             \/ exists dec, In dec conss /\ closesReturn md dec c))
  /\ Pricer.timetable pd' = Pricer.timetable pd
  /\ (forall e j,
        In e conss -> Pricer.arcActive e = true ->
        Pricer.atype e = Pricer.ENFORCE ->
        0 <= Pricer.tail e < Pricer.nC md - 1 -> 0 <= Pricer.head e ->
        0 <= j < Pricer.nDays md ->
        Pricer.neighbors pd' (Pricer.tail e) j = [Pricer.head e]).
Proof.
  intros H HnC.
  destruct (former_spec md _ _ _ _ _ H HnC)
    as (st & Ea & Hf & Hd & Ht & Hn).
  destruct (arcInitKeepDepot_eq md (Pricer.isForbidden pd)
              (Pricer.toDepot pd) succ0 pred0) as [If Id].
  split; [|split; [|split; [exact Ht|]]].
  - intros k m Hk Hm.
    rewrite Hf, (arcLoop_forbidden md _ _ _ Ea k m Hk Hm), If,
      arcInit_forbidden.
    apply inRangeb_true in Hk. apply inRangeb_true in Hm. rewrite Hk, Hm.
    cbn. intuition discriminate.
  - intros c Hc. rewrite Hd, (arcLoop_toDepot md _ _ _ Ea c Hc), Id.
    reflexivity.
  - intros e j Hin Ha Hty Htl Hhd Hj.
    destruct (arcLoop_links md _ _ _ e Ea Hin Ha Hty (proj1 Htl) Hhd)
      as [L _].
    specialize (L ltac:(lia)).
    destruct (Hn (Pricer.tail e) j Htl Hj) as [N _].
    rewrite N, L; [reflexivity|]. rewrite L. lia.
Qed.

(** An instance: two customers and the depot, the arc from customer 0 to
    customer 1 enforced; on day 1 the list of customer 0 holds customer 1
    only, and the depot return of customer 1, closed before the call, stays
    closed. *)
Lemma X20_former_builder_witness :
  match PricerMore.getCurrentNeighborhood Sample.model3
          [Sample.enforceArc01]
          (Pricer.mkPricer (fun _ _ => false) (fun _ => false)
             (fun _ _ => false) (fun _ => -1) (fun _ => 0) (fun _ _ => []) 1)
          (fun _ => 0) (fun _ => 0) with
  | Some pd' => Pricer.neighbors pd' 0 1 = [1]
                /\ Pricer.toDepot pd' 1 = false
  | None => False
  end.
Proof.
  destruct (PricerMore.getCurrentNeighborhood Sample.model3
              [Sample.enforceArc01] _ (fun _ => 0) (fun _ => 0))
    as [pd'|] eqn:E; [|vm_compute in E; discriminate].
  destruct (X20_former_builder _ _ _ _ _ _ E ltac:(cbn; lia))
    as (_ & Hd & _ & Hn).
  split.
  - apply (Hn Sample.enforceArc01 1); try reflexivity; try (cbn; lia).
    left. reflexivity.
  - apply Hd; [cbn; lia|]. left. reflexivity.
Defined.

(* ------------------------------------------------------------------ *)
(** ** When the graph can be rebuilt                                   *)
(* ------------------------------------------------------------------ *)

(** X21.  The neighbourhood stage of [set_current_graph] never trips its
    assertion: the lists it finds were emptied by [clearNeighbors] just
    before.  The rebuild fails exactly when [setArcMatrix] or
    [setTimeTable] does. *)
Theorem X21_rebuild_fails_only_in_the_first_stages
    (md : Pricer.model_data) (arcs : list Pricer.ArcCons)
    (vas : list Pricer.VACons) (pd : Pricer.SCIP_PRICERDATA) :
  0 < Pricer.nC md ->
  (Pricer.set_current_graph md arcs vas pd = None
   <-> Pricer.setArcMatrix md arcs pd = None
       \/ Pricer.setTimeTable md vas pd = None).
Proof.
  intros HnC.
  unfold Pricer.set_current_graph, Pricer.setArcMatrix, Pricer.setTimeTable.
  destruct (Pricer.arcMatrixState md arcs pd _ _) as [st|];
    [|split; [auto|reflexivity]].
  cbn [Pricer.timetable].
  destruct (Pricer.timeTableOf md vas (Pricer.timetable pd)) as [tab|];
    [|split; [auto|reflexivity]].
  unfold Pricer.setCurrentNeighborhood.
  match goal with
  | |- context [Pricer.neighborhoodOf md ?p] =>
      destruct (neighborhoodOf_spec md p HnC) as (nbs & En & _)
  end.
  { intros i j Hi Hj. rewrite clearNeighbors_eq.
    apply inRangeb_true in Hi. apply inRangeb_true in Hj.
    rewrite Hi, Hj. reflexivity. }
  rewrite En. split; [discriminate|]. intros [H|H]; discriminate.
Qed.

(** An instance: in the sample model the rebuild with the decision
    PROHIBIT(1, 0) given twice fails, as [setTimeTable] does. *)
Lemma X21_rebuild_fails_only_in_the_first_stages_witness :
  Pricer.set_current_graph Sample.model3 []
    [Sample.prohibitDay10; Sample.prohibitDay10] Sample.pricer0 = None.
Proof.
  apply (X21_rebuild_fails_only_in_the_first_stages Sample.model3);
    [cbn; lia|].
  right. reflexivity.
Defined.

(* ------------------------------------------------------------------ *)
(** ** Ties in the branching rule                                      *)
(* ------------------------------------------------------------------ *)

(** X22.  Ties go to the pair scanned first, when the comparisons of the
    engine are decisive on the distances of the model.  When the branching
    rule then branches on the pair [(c, d)], every pair of the model that
    the search loop visits before [(c, d)] (a smaller customer, or the same
    customer and a smaller day) and whose weight is not integral is
    strictly beaten by [(c, d)]: it is strictly farther from one half, or
    as far with strictly fewer days counted for its customer. *)
Theorem X22_ties_go_to_the_first_pair {R : Type} {num : SCIP_Real R}
    (nC nDays : Z) (vars : list (Branching.LPVar R))
    (cp ce : ConsVA.SCIP_CONSDATA) (value : R -> Q) :
  Branching.branchExeclpVehicleAss nC nDays vars = Some (cp, ce) ->
  decisive (Branching.aggregate vars) nC nDays value ->
  forall i j, 0 <= i < nC -> 0 <= j < nDays ->
    scannedBefore (i, j) (ConsVA.customer cp, ConsVA.day cp) ->
    integral (Branching.aggregate vars) (i, j) = false ->
    strictlyBeats value (Branching.aggregate vars)
      (ConsVA.customer cp, ConsVA.day cp) (i, j).
Proof.
  intros H Hdec.
  destruct (branch_some _ _ _ _ _ H) as (c & d & E & -> & ->).
  cbn [ConsVA.customer ConsVA.day].
  exact (proj2 (proj2 (proj1 (selectPair_decisive _ nC nDays value Hdec)
                         c d E))).
Qed.

(** An instance over the rationals: on the sample columns the pairs (1, 0)
    and (1, 1) both have weight one half; the rule branches on (1, 0), and
    the pair (0, 1) scanned before it is strictly farther from one half. *)
Lemma X22_ties_go_to_the_first_pair_witness :
  strictlyBeats (fun x => x) (Branching.aggregate Sample.lpVarsQ)
    (1, 0) (0, 1).
Proof.
  refine (X22_ties_go_to_the_first_pair 3 2 Sample.lpVarsQ
            (ConsVA.mkConsData 1 0 ConsVA.VA_PROHIBIT 0 0 false)
            (ConsVA.mkConsData 1 0 ConsVA.VA_ENFORCE 0 0 false)
            (fun x => x) eq_refl sample_decisive 0 1 _ _ _ _); try lia.
  - left. cbn. lia.
  - reflexivity.
Defined.

(* ------------------------------------------------------------------ *)
(** ** When the arc matrix can be built                                *)
(* ------------------------------------------------------------------ *)

Section ArcMatrixSuccess.
Import Pricer.

Variable md : model_data.

(** The endpoints of an active decision are customers of the model. *)
Let inModel (dec : ArcCons) : Prop :=
  arcActive dec = true ->
  0 <= tail dec < nC md /\ 0 <= head dec < nC md.

Lemma ex_snoc {A} (P : A -> Prop) (done : list A) (x : A) :
  (exists e, In e (done ++ [x]) /\ P e)
  <-> (exists e, In e done /\ P e) \/ P x.
Proof.
  split.
  - intros (e & Hin & He). apply in_app_or in Hin as [Hin|[<-|[]]];
      [left; exists e; auto|right; exact He].
  - intros [(e & Hin & He)|Hx].
    + exists e. split; [apply in_or_app; auto|exact He].
    + exists x. split; [apply in_or_app; simpl; auto|exact Hx].
Qed.

Lemma matrixOf_init forb toDep succ0 pred0 :
  matrixOf md [] (arcInit md forb toDep succ0 pred0).
Proof.
  split; [|split].
  - intros k m Hk Hm. rewrite arcInit_forbidden.
    apply inRangeb_true in Hk. apply inRangeb_true in Hm. rewrite Hk, Hm.
    cbn. split; [discriminate|]. intros (e & [] & _).
  - intros t Ht. rewrite arcInit_successor.
    apply inRangeb_true in Ht. rewrite Ht.
    split; [congruence|]. intros (e & [] & _).
  - intros h Hh. rewrite arcInit_predecessor.
    apply inRangeb_true in Hh. rewrite Hh.
    split; [congruence|]. intros (e & [] & _).
Qed.

Lemma matrixOf_step done st dec st' :
  inModel dec -> arcStep md st dec = Some st' ->
  matrixOf md done st -> matrixOf md (done ++ [dec]) st'.
Proof.
  intros Hr E (I1 & I2 & I3).
  pose proof (arcStep_forbidden md _ _ _ E) as F.
  apply arcStep_inv in E. cbv zeta in E.
  split; [|split].
  - intros k m Hk Hm. rewrite (F k m Hk Hm), (I1 k m Hk Hm).
    symmetry. apply (ex_snoc (fun e => forbidsArc md e k m)).
  - intros t Ht. unfold enforcedFrom.
    rewrite (ex_snoc (fun e => arcActive e = true /\ atype e = ENFORCE
                               /\ tail e = t)).
    fold (enforcedFrom done t). rewrite <- (I2 t Ht).
    destruct E as [[Ha ->]|[(Ha & Hty & _ & ->)|(Ha & Hty & _ & _ & E)]].
    + intuition congruence.
    + cbn [successor]. intuition congruence.
    + assert (Es : successor st' t
                   = upd (successor st) (tail dec) (head dec) t).
      { destruct E as [(_ & _ & ->)|[(_ & ->)|(_ & _ & ->)]]; reflexivity. }
      rewrite Es. unfold upd. destruct (Hr Ha) as [_ Hh].
      destruct (Z.eqb_spec t (tail dec)) as [->|Hne].
      * split; [intros _; right; auto|intros _; lia].
      * intuition congruence.
  - intros h Hh. unfold enforcedInto.
    rewrite (ex_snoc (fun e => arcActive e = true /\ atype e = ENFORCE
                               /\ head e = h)).
    fold (enforcedInto done h). rewrite <- (I3 h Hh).
    destruct E as [[Ha ->]|[(Ha & Hty & _ & ->)|(Ha & Hty & _ & _ & E)]].
    + intuition congruence.
    + cbn [predecessor]. intuition congruence.
    + assert (Es : predecessor st' h
                   = upd (predecessor st) (head dec) (tail dec) h).
      { destruct E as [(_ & _ & ->)|[(_ & ->)|(_ & _ & ->)]]; reflexivity. }
      rewrite Es. unfold upd. destruct (Hr Ha) as [Ht _].
      destruct (Z.eqb_spec h (head dec)) as [->|Hne].
      * split; [intros _; right; auto|intros _; lia].
      * intuition congruence.
Qed.

Lemma arcStep_passes done st dec :
  inModel dec -> matrixOf md done st ->
  (arcStep md st dec <> None
   <-> (arcActive dec = true -> admissibleArc md done dec)).
Proof.
  intros Hr (I1 & I2 & I3). unfold arcStep, admissibleArc. cbv zeta.
  destruct (arcActive dec) eqn:Ha; cbn [negb].
  2:{ split; [intros _ H; discriminate|intros _; discriminate]. }
  destruct (Hr Ha) as [Ht Hh].
  destruct (atype dec).
  - rewrite <- (I1 _ _ Ht Hh).
    destruct (aForbidden st (tail dec) (head dec)); cbn.
    + split; [intros H; destruct (H eq_refl)|].
      intros H. destruct (H eq_refl eq_refl).
    + split; [intros _ _; discriminate|intros _; discriminate].
  - rewrite <- (I2 _ Ht), <- (I3 _ Hh).
    destruct (Z.eqb_spec (tail dec) (nC md - 1)) as [Et|Et];
      destruct (Z.eqb_spec (head dec) (nC md - 1)) as [Eh|Eh];
      destruct (Z.eqb_spec (successor st (tail dec)) (-1)) as [Es|Es];
      destruct (Z.eqb_spec (predecessor st (head dec)) (-1)) as [Ep|Ep];
      cbn; (split; [intros H; try (destruct (H eq_refl)); intros _|
                    intros H; try discriminate;
                    specialize (H eq_refl)]); tauto.
Qed.

Lemma arcLoop_success conss : forall done st,
  matrixOf md done st ->
  (forall dec, In dec conss -> inModel dec) ->
  (arcLoop md conss st <> None
   <-> forall before dec rest,
         conss = before ++ dec :: rest -> arcActive dec = true ->
         admissibleArc md (done ++ before) dec).
Proof.
  induction conss as [|x l IH]; intros done st I Hr; cbn [arcLoop].
  - split; [|discriminate]. intros _ [|? ?] dec rest E; discriminate.
  - pose proof (arcStep_passes done st x (Hr x (or_introl eq_refl)) I) as P.
    destruct (arcStep md st x) as [st1|] eqn:E.
    + pose proof (matrixOf_step _ _ _ _ (Hr x (or_introl eq_refl)) E I)
        as I1.
      rewrite (IH (done ++ [x]) st1 I1)
        by (intros dec Hin; apply Hr; right; exact Hin).
      split.
      * intros H [|y before] dec rest Eq Ha; cbn [app] in Eq;
          inversion Eq; subst.
        -- rewrite app_nil_r. apply P; [discriminate|exact Ha].
        -- replace (done ++ y :: before) with ((done ++ [y]) ++ before)
             by (rewrite <- app_assoc; reflexivity).
           exact (H before dec rest eq_refl Ha).
      * intros H before dec rest Eq Ha.
        replace ((done ++ [x]) ++ before) with (done ++ x :: before)
          by (rewrite <- app_assoc; reflexivity).
        apply (H (x :: before) dec rest); [rewrite Eq; reflexivity|exact Ha].
    + split; [intros H; destruct (H eq_refl)|].
      intros H. exfalso. apply (proj2 P); [|reflexivity].
      intros Ha. specialize (H [] x l eq_refl Ha).
      rewrite app_nil_r in H. exact H.
Qed.

End ArcMatrixSuccess.

(** X23.  Let the endpoints of every active decision be customers of the
    model.  Then [setArcMatrix] goes through without tripping an assertion
    exactly when every active decision is admissible after the decisions
    before it: a PROHIBIT decision names an arc that no earlier active
    decision forbids; an ENFORCE decision leaves the depot or a customer
    that no earlier active ENFORCE decision leaves, and enters the depot or
    a customer that no earlier active ENFORCE decision enters. *)
Theorem X23_arc_matrix_success
    (md : Pricer.model_data) (conss : list Pricer.ArcCons)
    (pd : Pricer.SCIP_PRICERDATA) :
  (forall dec, In dec conss -> Pricer.arcActive dec = true ->
     0 <= Pricer.tail dec < Pricer.nC md
     /\ 0 <= Pricer.head dec < Pricer.nC md) ->
  (Pricer.setArcMatrix md conss pd <> None
   <-> forall before dec rest,
         conss = before ++ dec :: rest -> Pricer.arcActive dec = true ->
         admissibleArc md before dec).
Proof.
  intros Hr.
  pose proof (arcLoop_success md conss []
                (Pricer.arcInit md (Pricer.isForbidden pd)
                   (Pricer.toDepot pd) (fun _ => 0) (fun _ => 0))
                (matrixOf_init md _ _ _ _) Hr) as H.
  cbn [app] in H. rewrite <- H.
  unfold Pricer.setArcMatrix, Pricer.arcMatrixState.
  destruct (Pricer.arcLoop md conss _); split; intros G;
    try discriminate; try exact G; destruct (G eq_refl).
Qed.

(** An instance: PROHIBIT(0, depot) followed by ENFORCE(0, 1) goes
    through. *)
Lemma X23_arc_matrix_success_witness :
  Pricer.setArcMatrix Sample.model3
    [Sample.prohibitArc0Depot; Sample.enforceArc01] Sample.pricer0 <> None.
Proof.
  apply (X23_arc_matrix_success Sample.model3).
  - intros dec [<-|[<-|[]]] _; cbn; lia.
  - intros [|x [|y before]] dec rest Eq _; cbn [app] in Eq;
      inversion Eq; subst; unfold admissibleArc; cbn.
    + intros (e & [] & _).
    + split; right; intros (e & [<-|[]] & _ & Hty & _); discriminate.
    + destruct before; discriminate.
Defined.

(* ------------------------------------------------------------------ *)
(** ** The scan of one record, precisely                               *)
(* ------------------------------------------------------------------ *)

Section ScanPrecisely.
Import ConsVA.

Lemma scanVars_first_cut cd pre var post : forall nf,
  existsb (abortsb cd) pre = false ->
  existsb (contradictsb cd) pre = false ->
  contradictsb cd var = true ->
  scanVars cd (pre ++ var :: post) nf false
  = Some (map (fixOne cd) pre ++ var :: post,
          nf + Z.of_nat (length (filter (fixableb cd) pre)), true).
Proof.
  induction pre as [|x pre IH]; intros nf Hab Hpre Hvar; cbn [app map].
  - cbn [scanVars].
    rewrite checkVariable_cases, (contradicts_not_aborts _ _ Hvar), Hvar,
      scanVars_stopped.
    cbn. rewrite Z.add_0_r. reflexivity.
  - cbn [existsb] in Hpre, Hab.
    apply orb_false_iff in Hpre as [Hx Hpre].
    apply orb_false_iff in Hab as [Ha Hab].
    cbn [scanVars]. rewrite checkVariable_cases, Ha, Hx. unfold fixOne.
    cbn [filter].
    destruct (fixableb cd x); rewrite (IH _ Hab Hpre Hvar); cbn [length];
      [|reflexivity].
    do 3 f_equal. lia.
Qed.

Lemma abortsb_fixOne cd var :
  abortsb cd var = false -> abortsb cd (fixOne cd var) = false.
Proof.
  unfold fixOne. destruct (fixableb cd var); [reflexivity|auto].
Qed.

(** The loop of [consdataCheck] answers when the classifier passes its
    assertion on the feasible columns. *)
Lemma checkScan_total cd vars :
  existsb (abortsb cd) vars = false -> exists b, checkScan cd vars = Some b.
Proof.
  induction vars as [|var rest IH]; cbn [existsb checkScan]; [eauto|].
  intros H. apply orb_false_iff in H as [Ha Hrest].
  unfold abortsb, feasibleb in Ha.
  destruct (Qltb (ubLocal var) half); [exact (IH Hrest)|].
  destruct (customerAndDayInVar var (customer cd) (day cd)) as [s|];
    [|discriminate].
  destruct (s =? 0); [eauto|]. destruct (verdictHit _ _); [eauto|].
  exact (IH Hrest).
Qed.

Lemma skipn_fixFrom cd vars :
  skipn (scanStart cd) (fixFrom cd vars)
  = map (fixOne cd) (skipn (scanStart cd) vars).
Proof.
  unfold fixFrom.
  destruct (Nat.le_gt_cases (scanStart cd) (length vars)) as [Hle|Hgt].
  - assert (L : length (firstn (scanStart cd) vars) = scanStart cd)
      by (rewrite length_firstn; lia).
    rewrite <- L at 1. apply skipn_length_app.
  - rewrite (skipn_all2 vars) by lia. cbn [map].
    rewrite app_nil_r, firstn_all2 by lia. apply skipn_all2. lia.
Qed.

Lemma fixOne_not_violating cd var :
  contradictsb cd var = false -> ~ violates cd (fixOne cd var).
Proof.
  intros Hc [Hub Hhit]. unfold fixOne in *.
  destruct (fixableb cd var) eqn:Hf.
  - cbn in Hub. unfold half in Hub. apply Hub. reflexivity.
  - apply feasibleb_true in Hub. apply hitByb_true in Hhit.
    unfold contradictsb in Hc. unfold fixableb in Hf.
    rewrite Hub, Hhit in Hc, Hf. cbn in Hc, Hf.
    destruct (Qltb half (lbLocal var)); discriminate.
Qed.

End ScanPrecisely.

(** X24.  The scan of [consdataFixVariables] stops at the first column that
    contradicts the record.  With the start index at the length of [old],
    the columns of [old] are left alone, the columns between the start
    index and the contradicting column are fixed where the record can fix
    them, the contradicting column and every column after it are left as
    they are, and the result is CUTOFF whatever was fixed on the way. *)
Theorem X24_scan_stops_at_first_contradiction
    (consdata : ConsVA.SCIP_CONSDATA)
    (old pre post : list ConsVA.SCIP_VAR) (var : ConsVA.SCIP_VAR)
    (result : ConsVA.SCIP_RESULT) :
  ConsVA.npropagatedvars consdata = Z.of_nat (length old) ->
  Forall validTour pre ->
  (forall v, In v pre -> ~ contradicts consdata v) ->
  contradicts consdata var ->
  ConsVA.consdataFixVariables consdata (old ++ pre ++ var :: post) result
  = Some (old ++ map (fixOne consdata) pre ++ var :: post,
          ConsVA.SCIP_CUTOFF).
Proof.
  intros Hn Hvalid Hpre Hvar.
  assert (Hs : Z.to_nat (ConsVA.npropagatedvars consdata) = length old)
    by (rewrite Hn; apply Nat2Z.id).
  assert (Hpre' : existsb (contradictsb consdata) pre = false).
  { destruct (existsb (contradictsb consdata) pre) eqn:E; [|reflexivity].
    apply existsb_exists in E as (v & Hin & Hv).
    apply contradictsb_true in Hv. destruct (Hpre v Hin Hv). }
  apply contradictsb_true in Hvar.
  unfold ConsVA.consdataFixVariables.
  rewrite Hs, skipn_length_app, firstn_length_app.
  rewrite (scanVars_first_cut consdata pre var post 0
             (existsb_abortsb_valid consdata pre Hvalid) Hpre' Hvar).
  reflexivity.
Qed.

(** An instance: ENFORCE(3, 2) from index 0 over a column it can fix, a
    column forced to one that contradicts it, and a third column it could
    fix: the first is fixed, the other two are left alone. *)
Lemma X24_scan_stops_at_first_contradiction_witness :
  ConsVA.consdataFixVariables Sample.enforce32
    ([] ++ [Sample.otherDayVar] ++ Sample.forcedVar :: [Sample.sameDayVar])
    ConsVA.SCIP_DIDNOTFIND
  = Some ([] ++ map (fixOne Sample.enforce32) [Sample.otherDayVar]
             ++ Sample.forcedVar :: [Sample.sameDayVar],
          ConsVA.SCIP_CUTOFF).
Proof.
  apply X24_scan_stops_at_first_contradiction.
  - reflexivity.
  - repeat constructor; lia.
  - intros v [<-|[]] Hc. apply contradictsb_true in Hc. discriminate.
  - apply contradictsb_true. reflexivity.
Defined.

(** X25.  A scan of [consdataFixVariables] that does not end in CUTOFF
    establishes what the assertion after it checks: from the start index
    on, no column is left that is feasible and ruled out by the record, and
    the loop of [consdataCheck] over those columns answers TRUE. *)
Theorem X25_scan_leaves_no_violation
    (consdata : ConsVA.SCIP_CONSDATA) (vars vars' : list ConsVA.SCIP_VAR)
    (result result' : ConsVA.SCIP_RESULT) :
  ConsVA.consdataFixVariables consdata vars result
  = Some (vars', result') ->
  result' <> ConsVA.SCIP_CUTOFF ->
  (forall var, In var (skipn (scanStart consdata) vars') ->
     ~ violates consdata var)
  /\ ConsVA.checkScan consdata (skipn (scanStart consdata) vars')
     = Some ConsVA.TRUE.
Proof.
  intros H Hr.
  destruct (existsb (contradictsb consdata)
              (skipn (scanStart consdata) vars)) eqn:Hc.
  { destruct (consdataFixVariables_cut consdata vars result _ H Hc)
      as (v' & E & _). inversion E; subst.
    destruct (Hr eq_refl). }
  rewrite (consdataFixVariables_nocut_eq consdata vars result Hc) in H.
  destruct (existsb (abortsb consdata) (skipn (scanStart consdata) vars))
    eqn:Hab; [discriminate|].
  inversion H; subst vars'. clear H.
  rewrite skipn_fixFrom.
  assert (Hno : forall var,
            In var (map (fixOne consdata) (skipn (scanStart consdata) vars))
            -> ~ violates consdata var).
  { intros var Hin. apply in_map_iff in Hin as (v & <- & Hv).
    apply fixOne_not_violating.
    destruct (contradictsb consdata v) eqn:E; [|reflexivity].
    assert (X : existsb (contradictsb consdata)
                  (skipn (scanStart consdata) vars) = true)
      by (apply existsb_exists; exists v; auto).
    congruence. }
  split; [exact Hno|].
  destruct (checkScan_total consdata
              (map (fixOne consdata) (skipn (scanStart consdata) vars)))
    as [b E].
  { destruct (existsb (abortsb consdata) (map _ _)) eqn:X; [|reflexivity].
    apply existsb_exists in X as (x & Hin & Hx).
    apply in_map_iff in Hin as (v & <- & Hv).
    rewrite abortsb_fixOne in Hx; [discriminate|].
    destruct (abortsb consdata v) eqn:Y; [|reflexivity].
    assert (Hz : existsb (abortsb consdata)
                   (skipn (scanStart consdata) vars) = true)
      by (apply existsb_exists; exists v; auto).
    congruence. }
  rewrite E. destruct (checkScan_values _ _ _ E) as [->| ->];
    [|reflexivity].
  apply checkScan_false in E as (var & Hin & Hv).
  destruct (Hno var Hin Hv).
Qed.

(** An instance: after the scan of ENFORCE(3, 2) over a column serving
    customer 3 on day 1, the check over the scanned columns answers TRUE. *)
Lemma X25_scan_leaves_no_violation_witness :
  ConsVA.checkScan Sample.enforce32
    (skipn (scanStart Sample.enforce32) [zeroFixed Sample.otherDayVar])
  = Some ConsVA.TRUE.
Proof.
  refine (proj2 (X25_scan_leaves_no_violation Sample.enforce32
                   [Sample.otherDayVar] [zeroFixed Sample.otherDayVar]
                   ConsVA.SCIP_DIDNOTFIND ConsVA.SCIP_REDUCEDDOM
                   eq_refl _)).
  discriminate.
Defined.
